(** * closewatcher.ts: the close-watcher manager, its registrations and the
      dismissal dispatcher, embedded over an explicit heap.

    JavaScript objects are identified by their position in a store:
    an [InternalCloseWatcher] by its index in [watchers], an inner group
    array by its index in [arrays].  [manager.groups] holds references to
    group arrays, so that [reverse] and [splice] act on the one shared array
    the way they do in the source. *)

From stdpp Require Import base list strings gmap.
From Stdlib Require Import ZArith Lia.

Local Open Scope Z_scope.
Local Open Scope nat_scope.

(** ** JavaScript array primitives used by the source *)

Module JsArray.

Section Ops.
Context {A : Type} (eqb : A -> A -> bool).

(** [Array.prototype.includes] *)
Fixpoint includes (x : A) (l : list A) : bool :=
  match l with
  | [] => false
  | y :: l' => if eqb y x then true else includes x l'
  end.

(** [Array.prototype.indexOf]: the first index holding [x], or [-1]. *)
Fixpoint indexOf (x : A) (l : list A) : Z :=
  match l with
  | [] => (-1)%Z
  | y :: l' =>
      if eqb y x then 0%Z
      else let k := indexOf x l' in
           if (k <? 0)%Z then (-1)%Z else (k + 1)%Z
  end.
End Ops.

(** [Array.prototype.splice(start, 1)]: a negative [start] counts from the
    end (clamped at 0), a [start] past the end removes nothing. *)
Definition splice1 {A : Type} (start : Z) (l : list A) : list A :=
  let len := Z.of_nat (length l) in
  let actual :=
    if (start <? 0)%Z then Z.max (len + start) 0 else Z.min start len in
  delete (Z.to_nat actual) l.

End JsArray.

Import JsArray.

(** ** Data model *)

(** Identity of an [InternalCloseWatcher] object: its index in the store. *)
Abbreviation Watcher := nat (only parsing).
(** Identity of an inner array of [manager.groups]: its index in the store. *)
Abbreviation Ref := nat (only parsing).

(** [class CloseWatcherManager] *)
Record CloseWatcherManager := mkCloseWatcherManager {
  groups : list Ref;
  allowedNumberOfGroups : Z;
  nextUserInteractionAllowsAnewGroup : bool
}.

(** The field initialisers of [CloseWatcherManager]. *)
Definition newCloseWatcherManager : CloseWatcherManager :=
  mkCloseWatcherManager [] 1%Z true.

(** The part of the JavaScript heap the module reads and writes.

    [manager] is the result of [new CloseWatcherManager(window)]: the
    constructor returns the manager already stored in [managers] for the
    window, and stores a new one on first use.  [InternalCloseWatcher] is
    private to the module and each of its three call sites leaves the
    [window] parameter at its default, while the methods look the manager up
    through the global [window]; so a single key is ever used, and the heap
    holds that one manager, the initial heap holding the field initialisers.

    [watchers] holds, for each [InternalCloseWatcher] ever constructed, its
    [isRunningCancelAction] field. [defaultView] says whether
    [document.defaultView] is non-null, [aborted] whether the controller of
    [listenForActivationTriggeringInputEvent] has been aborted. *)
Record Heap := mkHeap {
  manager : CloseWatcherManager;
  arrays : list (list Watcher);
  watchers : list bool;
  defaultView : bool;
  aborted : bool
}.

Definition initialHeap : Heap :=
  mkHeap newCloseWatcherManager [] [] true false.

Definition set_manager (m : CloseWatcherManager) (h : Heap) : Heap :=
  mkHeap m (arrays h) (watchers h) (defaultView h) (aborted h).
Definition set_arrays (a : list (list Watcher)) (h : Heap) : Heap :=
  mkHeap (manager h) a (watchers h) (defaultView h) (aborted h).
Definition set_watchers (f : list bool) (h : Heap) : Heap :=
  mkHeap (manager h) (arrays h) f (defaultView h) (aborted h).
Definition set_defaultView (b : bool) (h : Heap) : Heap :=
  mkHeap (manager h) (arrays h) (watchers h) b (aborted h).
Definition set_aborted (b : bool) (h : Heap) : Heap :=
  mkHeap (manager h) (arrays h) (watchers h) (defaultView h) b.

Definition set_groups (g : list Ref) (m : CloseWatcherManager) : CloseWatcherManager :=
  mkCloseWatcherManager g (allowedNumberOfGroups m)
    (nextUserInteractionAllowsAnewGroup m).
Definition set_allowedNumberOfGroups (n : Z) (m : CloseWatcherManager) : CloseWatcherManager :=
  mkCloseWatcherManager (groups m) n (nextUserInteractionAllowsAnewGroup m).
Definition set_nextUserInteractionAllowsAnewGroup (b : bool) (m : CloseWatcherManager)
  : CloseWatcherManager :=
  mkCloseWatcherManager (groups m) (allowedNumberOfGroups m) b.

(** The array a reference denotes. *)
Definition arr (h : Heap) (r : Ref) : list Watcher :=
  default [] (arrays h !! r).

(** Write through a reference. *)
Definition set_arr (r : Ref) (l : list Watcher) (h : Heap) : Heap :=
  set_arrays (<[r := l]> (arrays h)) h.

(** [manager.groups] read as an array of arrays. *)
Definition groupsOf (h : Heap) : list (list Watcher) :=
  arr h <$> groups (manager h).

(** [this.isRunningCancelAction] *)
Definition isRunningCancelAction (this : Watcher) (h : Heap) : bool :=
  default false (watchers h !! this).

Definition set_isRunningCancelAction (this : Watcher) (b : bool) (h : Heap) : Heap :=
  set_watchers (<[this := b]> (watchers h)) h.

(** ** [InternalCloseWatcher]: constructor, [isActive], [destroy] *)

(** The constructor allocates the object (its [isRunningCancelAction] is the
    default [false]) and places it.  In the [else] branch
    [manager.groups.at(-1)!.push(this)] throws a TypeError when there is no
    group: [None]. *)
Definition InternalCloseWatcher_new (h : Heap) : option (Watcher * Heap) :=
  let this := length (watchers h) in
  let h := set_watchers (watchers h ++ [false]) h in
  let m := manager h in
  if (Z.of_nat (length (groups m)) <? allowedNumberOfGroups m)%Z then
    let r := length (arrays h) in
    let h := set_arrays (arrays h ++ [[this]]) h in
    Some (this, set_manager (set_groups (groups m ++ [r]) m) h)
  else
    match last (groups m) with
    | Some r => Some (this, set_arr r (arr h r ++ [this]) h)
    | None => None
    end.

(** [n] constructor calls in a row; the watchers come back in the order
    they were constructed. *)
Fixpoint register (n : nat) (h : Heap) : option (list Watcher * Heap) :=
  match n with
  | O => Some ([], h)
  | S n' =>
      match InternalCloseWatcher_new h with
      | None => None
      | Some (w, h') =>
          match register n' h' with
          | None => None
          | Some (ws, h'') => Some (w :: ws, h'')
          end
      end
  end.

(** [get isActive()] *)
Definition isActive (this : Watcher) (h : Heap) : bool :=
  existsb (fun r => includes Nat.eqb this (arr h r)) (groups (manager h)).

(** One turn of the [for ... of manager.groups] loop of [destroy], at
    iterator position [i]; [None] when the iterator is exhausted.  The
    iterator reads the live outer array. *)
Definition destroy_body (this : Watcher) (i : nat) (h : Heap) : option Heap :=
  match groups (manager h) !! i with
  | None => None
  | Some group =>
      let h1 :=
        if includes Nat.eqb this (arr h group)
        then set_arr group
               (splice1 (indexOf Nat.eqb this (arr h group)) (arr h group)) h
        else h in
      let h2 :=
        if Nat.eqb (length (arr h1 group)) 0
        then set_manager
               (set_groups
                  (splice1 (indexOf Nat.eqb group (groups (manager h1)))
                     (groups (manager h1)))
                  (manager h1)) h1
        else h1 in
      Some h2
  end.

(** The loop of [destroy]. The outer array never grows during the loop and
    the position advances at every turn, so [n] turns suffice when [n] is
    the length of [manager.groups] at entry. *)
Fixpoint destroy_loop (n : nat) (this : Watcher) (i : nat) (h : Heap) : Heap :=
  match n with
  | O => h
  | S n' =>
      match destroy_body this i h with
      | None => h
      | Some h' => destroy_loop n' this (S i) h'
      end
  end.

Definition destroy (this : Watcher) (h : Heap) : Heap :=
  destroy_loop (length (groups (manager h))) this 0 h.

(** ** Callbacks, [close], [requestClose], [processCloseWatchers] *)

(** What the instrumented semantics records. *)
Inductive Event :=
| RequestCloseCalled (w : Watcher)
| CancelActionCalled (w : Watcher)
| CloseActionCalled (w : Watcher).

Global Instance Event_eq_dec : EqDecision Event.
Proof. solve_decision. Defined.

Record World := mkWorld {
  heap : Heap;
  trace : list Event
}.

Definition initialWorld : World := mkWorld initialHeap [].

Definition set_heap (h : Heap) (s : World) : World := mkWorld h (trace s).
Definition record (e : Event) (s : World) : World :=
  mkWorld (heap s) (trace s ++ [e]).

Section Callbacks.

(** The two constructor arguments of each [InternalCloseWatcher], indexed
    by the watcher they were given to, as state transformers: a callback is
    host code and may change the heap. *)
Variable cancelAction : Watcher -> Heap -> bool * Heap.
Variable closeAction : Watcher -> Heap -> Heap.

(** [close()] *)
Definition close (this : Watcher) (s : World) : World :=
  if isActive this (heap s) && defaultView (heap s) then
    let s := set_heap (destroy this (heap s)) s in
    let s := record (CloseActionCalled this) s in
    set_heap (closeAction this (heap s)) s
  else s.

(** [requestClose()] *)
Definition requestClose (this : Watcher) (s : World) : bool * World :=
  let s := record (RequestCloseCalled this) s in
  let s :=
    if isActive this (heap s) && negb (isRunningCancelAction this (heap s)) then
      let s := set_heap (set_isRunningCancelAction this true (heap s)) s in
      let s := record (CancelActionCalled this) s in
      let '(r, h) := cancelAction this (heap s) in
      let s := set_heap h s in
      if negb r then close this s else s
    else s in
  (true, s).

(** The [for ... of] loop of [processCloseWatchers] over the array [group],
    at iterator position [i]. The array is read anew at each turn. A
    callback may push onto the array, so the loop takes fuel; [None] is
    fuel exhausted. *)
Fixpoint forOf (fuel : nat) (group : Ref) (i : nat) (processed : bool) (s : World)
  : option (bool * World) :=
  match fuel with
  | O => None
  | S fuel' =>
      match arr (heap s) group !! i with
      | None => Some (processed, s)
      | Some closeWatcher =>
          let '(r, s') := requestClose closeWatcher s in
          if negb r then Some (true, s')
          else forOf fuel' group (S i) true s'
      end
  end.

(** [Array.prototype.reverse] on the array behind [r]: in place. *)
Definition reverse_in_place (r : Ref) (h : Heap) : Heap :=
  set_arr r (rev (arr h r)) h.

(** [processCloseWatchers(window)] *)
Definition processCloseWatchers (fuel : nat) (s : World) : option (bool * World) :=
  let looped :=
    if Nat.ltb 0 (length (groups (manager (heap s)))) then
      match last (groups (manager (heap s))) with
      | Some r => forOf fuel r 0 false (set_heap (reverse_in_place r (heap s)) s)
      | None => Some (false, s)
      end
    else Some (false, s) in
  match looped with
  | None => None
  | Some (processedACloseWatcher, s') =>
      let m := manager (heap s') in
      let s'' :=
        if (1 <? allowedNumberOfGroups m)%Z
        then set_heap
               (set_manager
                  (set_allowedNumberOfGroups (allowedNumberOfGroups m - 1)%Z m)
                  (heap s')) s'
        else s' in
      Some (processedACloseWatcher, s'')
  end.

(** The dispatcher's loop with the [break] left out. *)
Fixpoint forOf_nobreak (fuel : nat) (group : Ref) (i : nat) (processed : bool)
    (s : World) : option (bool * World) :=
  match fuel with
  | O => None
  | S fuel' =>
      match arr (heap s) group !! i with
      | None => Some (processed, s)
      | Some closeWatcher =>
          forOf_nobreak fuel' group (S i) true (snd (requestClose closeWatcher s))
      end
  end.

(** Callbacks that only decide: they leave the heap as they found it. *)
Definition quiet : Prop :=
  (forall w h, snd (cancelAction w h) = h) /\ (forall w h, closeAction w h = h).

(** Callbacks that leave [allowedNumberOfGroups] alone, whatever else they
    do: the counter is private to the module, and no function the callbacks
    can reach writes it. *)
Definition keeps_budget : Prop :=
  (forall w h, allowedNumberOfGroups (manager (snd (cancelAction w h)))
               = allowedNumberOfGroups (manager h)) /\
  (forall w h, allowedNumberOfGroups (manager (closeAction w h))
               = allowedNumberOfGroups (manager h)).

End Callbacks.

(** ** [notify] *)

(** The fields of an input event that [notify] reads. *)
Record InputEvent := mkInputEvent {
  isKeyboardEvent : bool;
  key : string;
  isPointerEvent : bool;
  pointerType : string;
  isTrusted : bool
}.

Definition notify (e : InputEvent) (h : Heap) : Heap :=
  if isKeyboardEvent e && String.eqb (key e) "Esc" then h
  else if isPointerEvent e && String.eqb (pointerType e) "mouse" then h
  else if isTrusted e then
    let m := manager h in
    let m :=
      if nextUserInteractionAllowsAnewGroup m
      then set_allowedNumberOfGroups (allowedNumberOfGroups m + 1)%Z m
      else m in
    let m := set_nextUserInteractionAllowsAnewGroup false m in
    set_aborted true (set_manager m h)
  else h.

(** The events that get past the two early returns of [notify] and its
    [isTrusted] test. *)
Definition qualifying (e : InputEvent) : bool :=
  negb (isKeyboardEvent e && String.eqb (key e) "Esc")
  && negb (isPointerEvent e && String.eqb (pointerType e) "mouse")
  && isTrusted e.

(** The listeners are registered with the controller's signal: once the
    controller is aborted the document no longer calls [notify]. *)
Definition deliver (e : InputEvent) (h : Heap) : Heap :=
  if aborted h then h else notify e h.

Global Arguments destroy : simpl never.
Global Arguments close : simpl never.
Global Arguments requestClose : simpl never.

(** ** Specification vocabulary *)

(** The heap [destroy] leaves when [w] sits at position [k] of the group at
    position [i] and nowhere else. *)
Definition destroyed_at (i : nat) (r : Ref) (k : nat) (h : Heap) : Heap :=
  let h1 := set_arr r (delete k (arr h r)) h in
  if decide (delete k (arr h r) = [])
  then set_manager (set_groups (delete i (groups (manager h))) (manager h)) h1
  else h1.

(** What every heap the module builds satisfies: the groups are distinct
    non-empty arrays, a watcher occurs at most once in them, every watcher in
    a group has been constructed, and the group budget is at least one. *)
Record wf (h : Heap) : Prop := mk_wf {
  wf_refs : NoDup (groups (manager h));
  wf_nonempty : forall r, r ∈ groups (manager h) -> arr h r <> [];
  wf_members : NoDup (concat (groupsOf h));
  wf_allocated : forall w, w ∈ concat (groupsOf h) -> w < length (watchers h);
  wf_allowed : (1 <= allowedNumberOfGroups (manager h))%Z
}.

(** [wf] as a test. *)
Definition wfb (h : Heap) : bool :=
  bool_decide (NoDup (groups (manager h)))
  && forallb (fun r => negb (Nat.eqb (length (arr h r)) 0)) (groups (manager h))
  && bool_decide (NoDup (concat (groupsOf h)))
  && forallb (fun w => Nat.ltb w (length (watchers h))) (concat (groupsOf h))
  && (1 <=? allowedNumberOfGroups (manager h))%Z.

(** What [destroy] never touches, and what it can only shrink. *)
Definition shrinks (h h' : Heap) : Prop :=
  watchers h' = watchers h /\
  defaultView h' = defaultView h /\
  aborted h' = aborted h /\
  allowedNumberOfGroups (manager h') = allowedNumberOfGroups (manager h) /\
  nextUserInteractionAllowsAnewGroup (manager h') =
    nextUserInteractionAllowsAnewGroup (manager h) /\
  length (groups (manager h')) <= length (groups (manager h)) /\
  forall r, length (arr h' r) <= length (arr h r).

(** Counting what the trace records. *)
Definition cancelCalls (w : Watcher) (t : list Event) : nat :=
  count_occ Event_eq_dec t (CancelActionCalled w).
Definition closeCalls (w : Watcher) (t : list Event) : nat :=
  count_occ Event_eq_dec t (CloseActionCalled w).
Definition requestCloseCalls (t : list Event) : list Watcher :=
  omap (fun e => match e with RequestCloseCalled w => Some w | _ => None end) t.

(** What a [requestClose] with callbacks that only decide can change: it
    may set guards and remove watchers, nothing else. *)
Definition settles (h h' : Heap) : Prop :=
  defaultView h' = defaultView h /\
  aborted h' = aborted h /\
  allowedNumberOfGroups (manager h') = allowedNumberOfGroups (manager h) /\
  nextUserInteractionAllowsAnewGroup (manager h') =
    nextUserInteractionAllowsAnewGroup (manager h) /\
  length (watchers h') = length (watchers h) /\
  (forall w, isRunningCancelAction w h = true -> isRunningCancelAction w h' = true) /\
  length (groups (manager h')) <= length (groups (manager h)) /\
  forall r, length (arr h' r) <= length (arr h r).

(** The guard covers every watcher whose cancel action has run, and none
    has run twice. *)
Definition guarded (s : World) : Prop :=
  forall w, cancelCalls w (trace s) <= 1 /\
            (1 <= cancelCalls w (trace s) -> isRunningCancelAction w (heap s) = true).

(** ** Reachable worlds *)

Section Reachability.

Variable cancelAction : Watcher -> Heap -> bool * Heap.
Variable closeAction : Watcher -> Heap -> Heap.

(** The operations the module offers its callers and the host: constructing
    a watcher, its three methods, a dismissal signal, an input event reaching
    the document, and the document gaining or losing its view. *)
Inductive step : World -> World -> Prop :=
| step_new s w h' :
    InternalCloseWatcher_new (heap s) = Some (w, h') ->
    step s (set_heap h' s)
| step_destroy s w : step s (set_heap (destroy w (heap s)) s)
| step_close s w : step s (close closeAction w s)
| step_requestClose s w :
    step s (snd (requestClose cancelAction closeAction w s))
| step_dismiss s fuel b s' :
    processCloseWatchers cancelAction closeAction fuel s = Some (b, s') ->
    step s s'
| step_input s e : step s (set_heap (deliver e (heap s)) s)
| step_view s b : step s (set_heap (set_defaultView b (heap s)) s).

Inductive reachable : World -> Prop :=
| reachable_init : reachable initialWorld
| reachable_step s s' : reachable s -> step s s' -> reachable s'.

End Reachability.

(** ** Sample callbacks, heaps and events *)

(** A [cancelAction] that returns [true], one that returns [false], one
    that returns [true] for watcher 0 only; a [closeAction] with no effect on
    the heap. *)
Definition cancelTrue : nat -> Heap -> bool * Heap := fun _ h => (true, h).
Definition cancelFalse : nat -> Heap -> bool * Heap := fun _ h => (false, h).
Definition closeNothing : nat -> Heap -> Heap := fun _ h => h.

(** The heap after [new InternalCloseWatcher] twice from the initial heap:
    A is watcher 0, B is watcher 1, and [groups] is [[A, B]]. *)
Definition heapAB : Heap :=
  mkHeap (mkCloseWatcherManager [0] 1 true) [[0; 1]] [false; false] true false.

(** The same heap in a document that has lost its view. *)
Definition heapAB_detached : Heap := set_defaultView false heapAB.


(** Two groups, [[0, 1]] and [[2]], after an activation and a dismissal. *)
Definition heapTwoGroups : Heap :=
  mkHeap (mkCloseWatcherManager [0; 1] 2 false) [[0; 1]; [2]]
         [false; true; false] true true.


(** One group [[0, 1]] with a budget of one, watcher 0 guarded. *)
Definition heapGuarded : Heap :=
  mkHeap (mkCloseWatcherManager [0] 1 false) [[0; 1]] [true; false] true true.

(** The world after one constructor call from the initial world. *)
Definition worldA : World :=
  mkWorld (mkHeap (mkCloseWatcherManager [0] 1 true) [[0]] [false] true false) [].

(** A trusted press of the Enter key. *)
Definition keydownEnter : InputEvent := mkInputEvent true "Enter" false "" true.

(** ** The rest of the module *)

(** [const managers = new Map()] with the constructor of
    [CloseWatcherManager]: the manager already stored for the window is
    returned, otherwise the new one, holding the field initialisers, is
    stored and returned. Windows are identified by numbers. *)
Definition CloseWatcherManager_new (window : nat)
    (managers : gmap nat CloseWatcherManager)
  : CloseWatcherManager * gmap nat CloseWatcherManager :=
  match managers !! window with
  | Some m => (m, managers)
  | None => (newCloseWatcherManager, <[window := newCloseWatcherManager]> managers)
  end.

(** Input events reaching the document one after the other. *)
Definition deliver_all (es : list InputEvent) (h : Heap) : Heap :=
  fold_left (fun h e => deliver e h) es h.

(** What [globalThis.window.CloseWatcher] may hold: something that is not a
    function, a function other than the module's class (a native
    implementation, say), or the module's class [CloseWatcher]. *)
Inductive GlobalValue :=
| NotAFunction
| OtherFunction
| PolyfillClass.

(** What [apply] reads and writes outside the manager: the global
    [CloseWatcher], how many times [listenForActivationTriggeringInputEvent]
    has run, how many [keyup] and [toggle] listeners [apply] has added to
    the document, and how many times it has wrapped
    [HTMLDialogElement.prototype.showModal]. *)
Record Platform := mkPlatform {
  globalCloseWatcher : GlobalValue;
  activationListeners : nat;
  keyupListeners : nat;
  toggleListeners : nat;
  showModalWrappers : nat
}.

(** [isSupported()]: [typeof globalThis.window.CloseWatcher === 'function'] *)
Definition isSupported (p : Platform) : bool :=
  match globalCloseWatcher p with
  | NotAFunction => false
  | OtherFunction | PolyfillClass => true
  end.

(** [isPolyfilled()]: [globalThis.window.CloseWatcher === CloseWatcher] *)
Definition isPolyfilled (p : Platform) : bool :=
  match globalCloseWatcher p with
  | PolyfillClass => true
  | NotAFunction | OtherFunction => false
  end.

(** [apply()] *)
Definition apply (p : Platform) : Platform :=
  if negb (isSupported p) then
    mkPlatform PolyfillClass
      (S (activationListeners p)) (S (keyupListeners p))
      (S (toggleListeners p)) (S (showModalWrappers p))
  else p.

(** [apply()] called [n] times. *)
Fixpoint apply_times (n : nat) (p : Platform) : Platform :=
  match n with
  | O => p
  | S n' => apply_times n' (apply p)
  end.

(** Every second element of a list, starting with the first ([true]) or
    with the second ([false]). *)
Fixpoint every_other {A : Type} (first : bool) (l : list A) : list A :=
  match l with
  | [] => []
  | x :: l' => if first then x :: every_other false l' else every_other true l'
  end.

(** No close action has run twice, and a watcher whose close action has run
    has been constructed and is inactive. *)
Definition closedOnce (s : World) : Prop :=
  forall w, closeCalls w (trace s) <= 1 /\
            (1 <= closeCalls w (trace s) ->
             isActive w (heap s) = false /\ w < length (watchers (heap s))).

(** What the manager holds in every world it can reach: a budget of one or
    two groups, two only once the one-shot flag is spent, and at most two
    groups. *)
Definition smallBudget (h : Heap) : Prop :=
  (1 <= allowedNumberOfGroups (manager h) <= 2)%Z /\
  (nextUserInteractionAllowsAnewGroup (manager h) = true ->
   allowedNumberOfGroups (manager h) = 1%Z) /\
  length (groups (manager h)) <= 2.

(** An array of arrays with every occurrence of [w] taken out and the
    arrays this empties dropped; the rest keeps its order. *)
Definition without (w : Watcher) (gs : list (list Watcher)) : list (list Watcher) :=
  filter (fun g => g <> []) (filter (fun x => x <> w) <$> gs).

(** Further sample inputs. *)

(** A heap that no sequence of operations builds: no group, no budget. *)
Definition heapNoBudget : Heap :=
  mkHeap (mkCloseWatcherManager [] 0 true) [] [] true false.

(** One group of five watchers. *)
Definition heapFive : Heap :=
  mkHeap (mkCloseWatcherManager [0] 1 false) [[0; 1; 2; 3; 4]]
         [false; false; false; false; false] true true.

(** An untrusted press of the Enter key, a trusted press of the Esc key and
    a trusted mouse pointer event. *)
Definition syntheticEnter : InputEvent := mkInputEvent true "Enter" false "" false.
Definition keydownEsc : InputEvent := mkInputEvent true "Esc" false "" true.
Definition pointerMouse : InputEvent := mkInputEvent false "" true "mouse" true.

(** A platform without [CloseWatcher] and one with a native one. *)
Definition platformBare : Platform := mkPlatform NotAFunction 0 0 0 0.
Definition platformNative : Platform := mkPlatform OtherFunction 0 0 0 0.

(** ** Callbacks that call back into the module *)

(** [cancelAction] and [closeAction] are host code. While one of them runs
    it can call the methods of any watcher, of its own watcher too,
    construct watchers, detach the document, and throw; the methods it calls
    call further callbacks. Above, a callback is a function on the heap:
    what it leaves of the module's state, the calls it makes left off the
    record. Here the calls a callback makes are run and recorded, so that a
    callback can re-enter the very method that called it; the methods are
    the same, line for line, and on callbacks that only return their
    decision the two agree. *)

(** How a call ends: it returns a value, it throws, or the run is cut
    short ([OutOfFuel]: the bound on nested callbacks, or on the turns of
    the dispatcher's loop, is reached). *)
Inductive Outcome (R : Type) : Type :=
| Returns (r : R)
| Throws
| OutOfFuel.

Global Arguments Returns {R} r.
Global Arguments Throws {R}.
Global Arguments OutOfFuel {R}.

(** A call takes the world it starts in to the way it ends and the world it
    leaves. A call that throws or is cut short leaves the world as it was
    at that moment. *)
Definition M (R : Type) : Type := World -> Outcome R * World.

Definition ret {R : Type} (r : R) : M R := fun s => (Returns r, s).

(** One call after the other; an exception passes through. *)
Definition bind {A B : Type} (m : M A) (k : A -> M B) : M B := fun s =>
  match m s with
  | (Returns a, s') => k a s'
  | (Throws, s') => (Throws, s')
  | (OutOfFuel, s') => (OutOfFuel, s')
  end.

Notation "'let*' x ':=' m 'in' k" := (bind m (fun x => k))
  (at level 10, x name, m at level 100, k at level 200).

Module Reentrant.

(** What a callback does, as far as the module is concerned: it returns a
    value or throws; before that it may look at the world (the module's
    state through [isActive], and its own state, which is a matter of what
    has happened so far), call [requestClose()], [close()] or [destroy()]
    on any watcher, construct a watcher, and give or take the document's
    view. A call that can throw hands [None] to what follows when it threw
    (the host caught the exception) and the result otherwise. *)
Inductive Script (R : Type) : Type :=
| Return (r : R)
| Throw
| Look (k : World -> Script R)
| CallRequestClose (w : Watcher) (k : option bool -> Script R)
| CallClose (w : Watcher) (k : option unit -> Script R)
| CallDestroy (w : Watcher) (k : Script R)
| CallNew (k : option Watcher -> Script R)
| SetView (b : bool) (k : Script R).

Global Arguments Return {R} r.
Global Arguments Throw {R}.
Global Arguments Look {R} k.
Global Arguments CallRequestClose {R} w k.
Global Arguments CallClose {R} w k.
Global Arguments CallDestroy {R} w k.
Global Arguments CallNew {R} k.
Global Arguments SetView {R} b k.

Section Bodies.

(** [this.cancelAction()] and [this.closeAction()] as calls. *)
Variable cancelAction : Watcher -> M bool.
Variable closeAction : Watcher -> M unit.

(** [close()] *)
Definition close_with (this : Watcher) : M unit := fun s =>
  if isActive this (heap s) && defaultView (heap s) then
    let s := set_heap (destroy this (heap s)) s in
    let s := record (CloseActionCalled this) s in
    closeAction this s
  else ret tt s.

(** [requestClose()] *)
Definition requestClose_with (this : Watcher) : M bool := fun s =>
  let s := record (RequestCloseCalled this) s in
  if isActive this (heap s) && negb (isRunningCancelAction this (heap s)) then
    let s := set_heap (set_isRunningCancelAction this true (heap s)) s in
    let s := record (CancelActionCalled this) s in
    (let* r := cancelAction this in
     let* _ := (if negb r then close_with this else ret tt) in
     ret true) s
  else ret true s.

(** The [for ... of] loop of [processCloseWatchers] over the live array
    [group], at iterator position [i]. *)
Fixpoint forOf_with (fuel : nat) (group : Ref) (i : nat) (processed : bool)
  : M bool := fun s =>
  match fuel with
  | O => (OutOfFuel, s)
  | S fuel' =>
      match arr (heap s) group !! i with
      | None => ret processed s
      | Some closeWatcher =>
          (let* r := requestClose_with closeWatcher in
           if negb r then ret true else forOf_with fuel' group (S i) true) s
      end
  end.

(** [processCloseWatchers(window)] *)
Definition processCloseWatchers_with (fuel : nat) : M bool := fun s =>
  let looped : M bool :=
    if Nat.ltb 0 (length (groups (manager (heap s)))) then
      match last (groups (manager (heap s))) with
      | Some r =>
          fun s => forOf_with fuel r 0 false
                     (set_heap (reverse_in_place r (heap s)) s)
      | None => ret false
      end
    else ret false in
  (let* processedACloseWatcher := looped in
   fun s' =>
     let m := manager (heap s') in
     let s'' :=
       if (1 <? allowedNumberOfGroups m)%Z
       then set_heap
              (set_manager
                 (set_allowedNumberOfGroups (allowedNumberOfGroups m - 1)%Z m)
                 (heap s')) s'
       else s' in
     ret processedACloseWatcher s'') s.

End Bodies.

Section Exec.

(** The methods a callback can reach. *)
Variable requestClose : Watcher -> M bool.
Variable close : Watcher -> M unit.

(** Running a callback. *)
Fixpoint exec {R : Type} (p : Script R) : M R := fun s =>
  match p with
  | Return r => (Returns r, s)
  | Throw => (Throws, s)
  | Look k => exec (k s) s
  | CallRequestClose w k =>
      match requestClose w s with
      | (Returns r, s') => exec (k (Some r)) s'
      | (Throws, s') => exec (k None) s'
      | (OutOfFuel, s') => (OutOfFuel, s')
      end
  | CallClose w k =>
      match close w s with
      | (Returns r, s') => exec (k (Some r)) s'
      | (Throws, s') => exec (k None) s'
      | (OutOfFuel, s') => (OutOfFuel, s')
      end
  | CallDestroy w k => exec k (set_heap (destroy w (heap s)) s)
  | CallNew k =>
      match InternalCloseWatcher_new (heap s) with
      | Some (w, h') => exec (k (Some w)) (set_heap h' s)
      | None => exec (k None) s
      end
  | SetView b k => exec k (set_heap (set_defaultView b (heap s)) s)
  end.

End Exec.

Section Handlers.

(** The two constructor arguments of each [InternalCloseWatcher], indexed
    by the watcher they were given to. *)
Variable onCancel : Watcher -> Script bool.
Variable onClose : Watcher -> Script unit.

(** [this.cancelAction()] and [this.closeAction()]: the callback runs, with
    the methods it calls running further callbacks, nested at most [fuel]
    deep. *)
Fixpoint cancelAction (fuel : nat) (this : Watcher) : M bool :=
  match fuel with
  | O => fun s => (OutOfFuel, s)
  | S fuel' =>
      exec (requestClose_with (cancelAction fuel') (closeAction fuel'))
           (close_with (closeAction fuel')) (onCancel this)
  end
with closeAction (fuel : nat) (this : Watcher) : M unit :=
  match fuel with
  | O => fun s => (OutOfFuel, s)
  | S fuel' =>
      exec (requestClose_with (cancelAction fuel') (closeAction fuel'))
           (close_with (closeAction fuel')) (onClose this)
  end.

Definition close (fuel : nat) : Watcher -> M unit :=
  close_with (closeAction fuel).

Definition requestClose (fuel : nat) : Watcher -> M bool :=
  requestClose_with (cancelAction fuel) (closeAction fuel).

Definition processCloseWatchers (fuel : nat) : M bool :=
  processCloseWatchers_with (cancelAction fuel) (closeAction fuel) fuel.

(** The operations of the module with such callbacks. The world an
    operation leaves counts whether the operation returned, threw, or was
    cut short. *)
Inductive step : World -> World -> Prop :=
| step_new s w h' :
    InternalCloseWatcher_new (heap s) = Some (w, h') ->
    step s (set_heap h' s)
| step_destroy s w : step s (set_heap (destroy w (heap s)) s)
| step_close s fuel w : step s (snd (close fuel w s))
| step_requestClose s fuel w : step s (snd (requestClose fuel w s))
| step_dismiss s fuel : step s (snd (processCloseWatchers fuel s))
| step_input s e : step s (set_heap (deliver e (heap s)) s)
| step_view s b : step s (set_heap (set_defaultView b (heap s)) s).

Inductive reachable : World -> Prop :=
| reachable_init : reachable initialWorld
| reachable_step s s' : reachable s -> step s s' -> reachable s'.

End Handlers.

End Reentrant.

(** The world in which [requestClose()] on [w] hands control to
    [cancelAction]: the guard is set and the call is on record. *)
Definition entered (w : Watcher) (s : World) : World :=
  record (CancelActionCalled w)
    (set_heap (set_isRunningCancelAction w true (heap s))
       (record (RequestCloseCalled w) s)).


(** The single moves every operation is made of, whatever the callbacks
    do: a call on record, the guard set before [cancelAction] runs, the
    removal before [closeAction] runs, a [destroy()], a constructor call,
    the view given or taken, the dispatcher's reversal and its decrement,
    an input event. *)
Inductive prim : World -> World -> Prop :=
| prim_requestClose s w : prim s (record (RequestCloseCalled w) s)
| prim_cancelAction s w :
    isActive w (heap s) = true ->
    isRunningCancelAction w (heap s) = false ->
    prim s (record (CancelActionCalled w)
              (set_heap (set_isRunningCancelAction w true (heap s)) s))
| prim_closeAction s w :
    isActive w (heap s) = true ->
    defaultView (heap s) = true ->
    prim s (record (CloseActionCalled w) (set_heap (destroy w (heap s)) s))
| prim_destroy s w : prim s (set_heap (destroy w (heap s)) s)
| prim_new s w h' :
    InternalCloseWatcher_new (heap s) = Some (w, h') ->
    prim s (set_heap h' s)
| prim_view s b : prim s (set_heap (set_defaultView b (heap s)) s)
| prim_reverse s r :
    last (groups (manager (heap s))) = Some r ->
    prim s (set_heap (reverse_in_place r (heap s)) s)
| prim_decrement s :
    (1 < allowedNumberOfGroups (manager (heap s)))%Z ->
    prim s (set_heap
              (set_manager
                 (set_allowedNumberOfGroups
                    (allowedNumberOfGroups (manager (heap s)) - 1)%Z
                    (manager (heap s)))
                 (heap s)) s)
| prim_input s e : prim s (set_heap (deliver e (heap s)) s).

(** A stretch of execution: moves one after the other. *)
Inductive stretch : World -> World -> Prop :=
| stretch_nil s : stretch s s
| stretch_snoc s s1 s2 : stretch s s1 -> prim s1 s2 -> stretch s s2.

(** A call that is a stretch of moves from wherever it starts, however it
    ends. *)
Definition moves {R : Type} (m : M R) : Prop :=
  forall s, stretch s (snd (m s)).

Definition nothing : Watcher -> Reentrant.Script unit :=
  fun _ => Reentrant.Return tt.
Definition asksAgain (b : bool) : Watcher -> Reentrant.Script bool :=
  fun this => Reentrant.CallRequestClose this (fun _ => Reentrant.Return b).

(** The group of [heapAB] after a dispatch has reversed it: [[B, A]]. *)
Definition heapBA : Heap :=
  mkHeap (mkCloseWatcherManager [0] 1 true) [[1; 0]] [true; true] true false.

(** * Properties *)

(** ** Array primitives *)

Lemma includes_true (x : nat) (l : list nat) :
  includes Nat.eqb x l = true <-> x ∈ l.
Proof.
  induction l as [|y l IH]; simpl.
  - split; [discriminate | intros H; inversion H].
  - destruct (Nat.eqb_spec y x) as [->|Hne].
    + split; [intros _; left | reflexivity].
    + rewrite IH. split; [intros H; by right|].
      intros H. inversion H; subst; [congruence | assumption].
Qed.

Lemma includes_false (x : nat) (l : list nat) :
  includes Nat.eqb x l = false <-> x ∉ l.
Proof.
  rewrite <- includes_true. destruct (includes Nat.eqb x l); split; congruence.
Qed.

Lemma indexOf_lookup (x : nat) (l : list nat) (i : nat) :
  NoDup l -> l !! i = Some x -> indexOf Nat.eqb x l = Z.of_nat i.
Proof.
  revert i. induction l as [|y l IH]; intros i Hnd Hi; [done|].
  apply NoDup_cons in Hnd as [Hy Hnd]. destruct i as [|i]; simpl in *.
  - injection Hi as ->. by rewrite Nat.eqb_refl.
  - destruct (Nat.eqb_spec y x) as [->|_].
    + exfalso. apply Hy. eapply list_elem_of_lookup_2. exact Hi.
    + rewrite (IH i Hnd Hi).
      destruct (Z.ltb_spec (Z.of_nat i) 0); lia.
Qed.

Lemma delete_beyond {A} (l : list A) (i : nat) : length l <= i -> delete i l = l.
Proof.
  intros H. rewrite delete_take_drop.
  rewrite take_ge by lia. rewrite drop_ge by lia. apply app_nil_r.
Qed.

Lemma splice1_of_nat {A} (l : list A) (i : nat) :
  splice1 (Z.of_nat i) l = delete i l.
Proof.
  unfold splice1. destruct (Z.ltb_spec (Z.of_nat i) 0); [lia|].
  destruct (Nat.le_gt_cases i (length l)).
  - f_equal. lia.
  - rewrite (delete_beyond l i) by lia. rewrite delete_beyond; [done|lia].
Qed.

(** [splice(-1, 1)], which [indexOf] of an absent element would give,
    removes the last element. *)
Example splice1_minus_one : splice1 (-1) [1; 2; 3] = [1; 2].
Proof. reflexivity. Qed.

(** ** Reading and writing through references *)

Lemma wfb_correct h : wfb h = true -> wf h.
Proof.
  unfold wfb. rewrite !andb_true_iff. intros ((((H1 & H2) & H3) & H4) & H5).
  apply bool_decide_eq_true in H1. apply bool_decide_eq_true in H3.
  rewrite forallb_forall in H2. rewrite forallb_forall in H4.
  split; try done.
  - intros r Hr. apply list_elem_of_In, H2 in Hr.
    destruct (arr h r); [done|discriminate].
  - intros w Hw. apply list_elem_of_In, H4 in Hw. by apply Nat.ltb_lt.
  - by apply Z.leb_le.
Qed.

Lemma arr_set_arr_eq h r l : r < length (arrays h) -> arr (set_arr r l h) r = l.
Proof.
  intros H. unfold arr, set_arr; simpl. by rewrite list_lookup_insert_eq.
Qed.

Lemma arr_set_arr_ne h r r' l : r <> r' -> arr (set_arr r l h) r' = arr h r'.
Proof.
  intros H. unfold arr, set_arr; simpl. by rewrite list_lookup_insert_ne.
Qed.

Lemma arr_set_manager m h r : arr (set_manager m h) r = arr h r.
Proof. reflexivity. Qed.

Lemma arr_nonempty_valid h r : arr h r <> [] -> r < length (arrays h).
Proof.
  unfold arr. intros H. destruct (arrays h !! r) eqn:E; [|done].
  eapply lookup_lt_Some; eauto.
Qed.

(** ** [destroy] *)

Lemma destroy_body_skip w i h r :
  groups (manager h) !! i = Some r ->
  w ∉ arr h r -> arr h r <> [] ->
  destroy_body w i h = Some h.
Proof.
  intros Hi Hw Hne. unfold destroy_body. rewrite Hi.
  apply includes_false in Hw. rewrite Hw.
  destruct (arr h r) eqn:E; [done|]. reflexivity.
Qed.

Lemma destroy_loop_skip w n : forall i h,
  (forall j r, i <= j -> groups (manager h) !! j = Some r ->
               (w ∉ arr h r) /\ arr h r <> []) ->
  destroy_loop n w i h = h.
Proof.
  induction n as [|n IH]; intros i h H; [done|]. simpl.
  destruct (groups (manager h) !! i) as [r|] eqn:Hi.
  - destruct (H i r (Nat.le_refl _) Hi) as [Hw Hne].
    rewrite (destroy_body_skip w i h r) by done.
    apply IH. intros j r' Hj. apply H. lia.
  - unfold destroy_body. by rewrite Hi.
Qed.

Lemma destroy_loop_prefix w k : forall n i h,
  (forall j r, (i <= j < i + k) -> groups (manager h) !! j = Some r ->
               (w ∉ arr h r) /\ arr h r <> []) ->
  i + k <= length (groups (manager h)) ->
  destroy_loop (k + n) w i h = destroy_loop n w (i + k) h.
Proof.
  induction k as [|k IH]; intros n i h H Hlen.
  - by rewrite Nat.add_0_r.
  - simpl. destruct (lookup_lt_is_Some_2 (groups (manager h)) i) as [r Hi]; [lia|].
    destruct (H i r ltac:(lia) Hi) as [Hw Hne].
    rewrite (destroy_body_skip w i h r) by done.
    rewrite IH; [f_equal; lia| |lia].
    intros j r' Hj. apply H. lia.
Qed.


Lemma destroy_at w h i r k :
  NoDup (groups (manager h)) ->
  groups (manager h) !! i = Some r ->
  arr h r !! k = Some w ->
  NoDup (arr h r) ->
  (forall j r', j <> i -> groups (manager h) !! j = Some r' ->
                (w ∉ arr h r') /\ arr h r' <> []) ->
  destroy w h = destroyed_at i r k h.
Proof.
  intros Hnd Hi Hk Hndr Hothers.
  assert (Hw : w ∈ arr h r) by (eapply list_elem_of_lookup_2; eauto).
  assert (Hval : r < length (arrays h)).
  { apply arr_nonempty_valid. intros E. rewrite E in Hw. inversion Hw. }
  pose proof (lookup_lt_Some _ _ _ Hi) as Hlt.
  unfold destroy.
  replace (length (groups (manager h)))
    with (i + S (length (groups (manager h)) - S i)) by lia.
  rewrite destroy_loop_prefix; [|intros j r' Hj; apply Hothers; lia|lia].
  simpl. unfold destroy_body. rewrite Hi.
  apply includes_true in Hw. rewrite Hw.
  rewrite (indexOf_lookup _ _ _ Hndr Hk), splice1_of_nat.
  rewrite arr_set_arr_eq by done. simpl.
  rewrite (indexOf_lookup _ _ _ Hnd Hi), splice1_of_nat.
  unfold destroyed_at.
  destruct (decide (delete k (arr h r) = [])) as [Edel|Edel].
  - rewrite Edel; simpl.
    apply destroy_loop_skip. intros j r' Hj; simpl.
    rewrite list_lookup_delete_ge by lia. intros Hj'.
    assert (r' <> r).
    { intros ->. pose proof (NoDup_lookup _ _ _ _ Hnd Hi Hj'). lia. }
    rewrite arr_set_manager, arr_set_arr_ne by done.
    apply (Hothers (S j)); [lia|done].
  - destruct (delete k (arr h r)) as [|x l'] eqn:Edel'; [done|]. simpl.
    apply destroy_loop_skip. intros j r' Hj; simpl. intros Hj'.
    assert (r' <> r).
    { intros ->. pose proof (NoDup_lookup _ _ _ _ Hnd Hi Hj'). lia. }
    rewrite arr_set_arr_ne by done. apply (Hothers j); [lia|done].
Qed.

(** ** Arrays of arrays *)

Lemma elem_of_concat (x : nat) (gs : list (list nat)) :
  x ∈ concat gs <-> exists g, g ∈ gs /\ x ∈ g.
Proof.
  induction gs as [|a gs IH]; simpl.
  - split; [intros H; inversion H | intros (g & H & _); inversion H].
  - rewrite elem_of_app, IH. split.
    + intros [H|(g & Hg & H)]; [exists a | exists g]; split; auto; by constructor.
    + intros (g & Hg & H). inversion Hg; subst; [by left | right; eauto].
Qed.

Lemma concat_split (gs : list (list nat)) i g :
  gs !! i = Some g ->
  concat gs = concat (take i gs) ++ g ++ concat (drop (S i) gs).
Proof.
  intros H. rewrite <- (take_drop_middle gs i g H) at 1.
  rewrite concat_app. reflexivity.
Qed.

Lemma concat_insert (gs : list (list nat)) i g g' :
  gs !! i = Some g ->
  concat (<[i := g']> gs) = concat (take i gs) ++ g' ++ concat (drop (S i) gs).
Proof.
  intros H. rewrite insert_take_drop by (eapply lookup_lt_Some; eauto).
  rewrite concat_app. reflexivity.
Qed.

Lemma concat_delete (gs : list (list nat)) i :
  concat (delete i gs) = concat (take i gs) ++ concat (drop (S i) gs).
Proof. rewrite delete_take_drop. apply concat_app. Qed.

Lemma concat_insert_sublist (gs : list (list nat)) i g g' :
  gs !! i = Some g -> g' `sublist_of` g ->
  concat (<[i := g']> gs) `sublist_of` concat gs.
Proof.
  intros H Hs. rewrite (concat_insert gs i g g' H), (concat_split gs i g H).
  apply sublist_app; [done|]. apply sublist_app; done.
Qed.

Lemma concat_delete_sublist (gs : list (list nat)) i :
  concat (delete i gs) `sublist_of` concat gs.
Proof.
  destruct (gs !! i) as [g|] eqn:H.
  - rewrite concat_delete, (concat_split gs i g H).
    apply sublist_app; [done|]. by apply sublist_inserts_l.
  - rewrite delete_beyond; [done|]. by apply lookup_ge_None.
Qed.

Lemma concat_insert_Permutation (gs : list (list nat)) i g g' :
  gs !! i = Some g -> g' ≡ₚ g -> concat (<[i := g']> gs) ≡ₚ concat gs.
Proof.
  intros H Hp. rewrite (concat_insert gs i g g' H), (concat_split gs i g H).
  by rewrite Hp.
Qed.

Lemma NoDup_concat_group (gs : list (list nat)) i g :
  NoDup (concat gs) -> gs !! i = Some g -> NoDup g.
Proof.
  intros Hnd H. rewrite (concat_split gs i g H) in Hnd.
  apply NoDup_app in Hnd as (_ & _ & Hnd). by apply NoDup_app in Hnd as (? & _ & _).
Qed.

Lemma NoDup_concat_disjoint (gs : list (list nat)) i j g g' x :
  NoDup (concat gs) -> gs !! i = Some g -> gs !! j = Some g' -> i <> j ->
  x ∈ g -> x ∉ g'.
Proof.
  intros Hnd Hi Hj Hne Hx Hx'.
  rewrite (concat_split gs i g Hi) in Hnd.
  apply NoDup_app in Hnd as (_ & Hpre & Hnd).
  apply NoDup_app in Hnd as (_ & Hpost & _).
  destruct (Nat.lt_total j i) as [Hlt|[->|Hgt]]; [|done|].
  - apply (Hpre x); [|apply elem_of_app; by left].
    apply elem_of_concat. exists g'. split; [|done].
    eapply list_elem_of_lookup_2 with (i := j). by rewrite lookup_take_lt.
  - apply (Hpost x Hx). apply elem_of_concat. exists g'. split; [|done].
    eapply list_elem_of_lookup_2 with (i := j - S i).
    rewrite lookup_drop. rewrite <- Hj. f_equal. lia.
Qed.

Lemma NoDup_delete_lookup (g : list nat) k x :
  NoDup g -> g !! k = Some x -> x ∉ delete k g.
Proof.
  intros Hnd Hk. rewrite (delete_Permutation g k x Hk) in Hnd.
  by apply NoDup_cons in Hnd as [? _].
Qed.

(** ** Well-formed heaps *)


Lemma groupsOf_lookup h i :
  groupsOf h !! i = arr h <$> (groups (manager h) !! i).
Proof. apply list_lookup_fmap. Qed.

Lemma groupsOf_length h : length (groupsOf h) = length (groups (manager h)).
Proof. apply length_fmap. Qed.

Lemma existsb_includes (w : Watcher) (f : Ref -> list Watcher) (l : list Ref) :
  existsb (fun r => includes Nat.eqb w (f r)) l = true <-> w ∈ concat (f <$> l).
Proof.
  induction l as [|r l IH]; simpl.
  - split; [discriminate | intros H; inversion H].
  - rewrite orb_true_iff, elem_of_app, IH, includes_true. reflexivity.
Qed.

Lemma isActive_true w h : isActive w h = true <-> w ∈ concat (groupsOf h).
Proof. apply existsb_includes. Qed.

Lemma isActive_false w h : isActive w h = false <-> w ∉ concat (groupsOf h).
Proof.
  rewrite <- isActive_true. destruct (isActive w h); split; congruence.
Qed.

Lemma groupsOf_set_arr h i r l :
  NoDup (groups (manager h)) ->
  groups (manager h) !! i = Some r ->
  r < length (arrays h) ->
  groupsOf (set_arr r l h) = <[i := l]> (groupsOf h).
Proof.
  intros Hnd Hi Hval. apply list_eq. intros j.
  unfold groupsOf at 1. rewrite list_lookup_fmap.
  change (manager (set_arr r l h)) with (manager h).
  destruct (decide (j = i)) as [->|Hne].
  - rewrite list_lookup_insert_eq
      by (rewrite groupsOf_length; eapply lookup_lt_Some; eauto).
    rewrite Hi. simpl. by rewrite arr_set_arr_eq.
  - rewrite list_lookup_insert_ne by done. rewrite groupsOf_lookup.
    destruct (groups (manager h) !! j) as [r'|] eqn:Hj; [|done]. simpl.
    rewrite arr_set_arr_ne; [done|].
    intros ->. apply Hne. eapply NoDup_lookup; eauto.
Qed.

(** Where an active watcher sits in a well-formed heap. *)
Lemma wf_locate w h :
  wf h -> isActive w h = true ->
  exists i r k,
    groups (manager h) !! i = Some r /\ arr h r !! k = Some w /\
    destroy w h = destroyed_at i r k h.
Proof.
  intros Hwf Hact. apply isActive_true, elem_of_concat in Hact as (g & Hg & Hw).
  apply list_elem_of_lookup in Hg as [i Hi].
  apply list_elem_of_lookup in Hw as [k Hk].
  pose proof Hi as Hi'. rewrite groupsOf_lookup in Hi'.
  destruct (groups (manager h) !! i) as [r|] eqn:Hr; [|done].
  injection Hi' as <-. exists i, r, k. split; [done|]. split; [done|].
  apply destroy_at; try done.
  - apply Hwf.
  - eapply NoDup_concat_group; [apply Hwf | exact Hi].
  - intros j r' Hne Hj. split.
    + eapply (NoDup_concat_disjoint (groupsOf h) i j); [apply Hwf|exact Hi| |done|].
      * by rewrite groupsOf_lookup, Hj.
      * eapply list_elem_of_lookup_2; eauto.
    + apply Hwf. eapply list_elem_of_lookup_2; eauto.
Qed.

Lemma destroy_inactive w h :
  (forall r, r ∈ groups (manager h) -> arr h r <> []) ->
  isActive w h = false -> destroy w h = h.
Proof.
  intros Hne Hw. apply destroy_loop_skip. intros j r _ Hj.
  assert (r ∈ groups (manager h)) by (eapply list_elem_of_lookup_2; eauto).
  split; [|by apply Hne].
  intros Hin. apply isActive_false in Hw. apply Hw, elem_of_concat.
  exists (arr h r). split; [|done].
  apply list_elem_of_lookup. exists j. by rewrite groupsOf_lookup, Hj.
Qed.

Lemma groupsOf_destroyed_at h i r k :
  NoDup (groups (manager h)) ->
  groups (manager h) !! i = Some r ->
  r < length (arrays h) ->
  groupsOf (destroyed_at i r k h) =
    if decide (delete k (arr h r) = [])
    then delete i (groupsOf h)
    else <[i := delete k (arr h r)]> (groupsOf h).
Proof.
  intros Hnd Hi Hval. unfold destroyed_at.
  destruct (decide (delete k (arr h r) = [])) as [E|E].
  - unfold groupsOf at 1. simpl. rewrite list_fmap_delete.
    change (arr (set_manager _ ?h') <$> ?l) with (arr h' <$> l).
    change (arr (set_arr r (delete k (arr h r)) h) <$> groups (manager h))
      with (groupsOf (set_arr r (delete k (arr h r)) h)).
    rewrite (groupsOf_set_arr h i r) by done.
    rewrite !delete_take_drop.
    rewrite take_insert_ge by lia. rewrite drop_insert_lt by lia. done.
  - by apply groupsOf_set_arr.
Qed.

Lemma wf_destroyed_at h i r k w :
  wf h ->
  groups (manager h) !! i = Some r ->
  arr h r !! k = Some w ->
  wf (destroyed_at i r k h) /\ isActive w (destroyed_at i r k h) = false.
Proof.
  intros Hwf Hi Hk.
  assert (Hr : r ∈ groups (manager h)) by (eapply list_elem_of_lookup_2; eauto).
  assert (Hval : r < length (arrays h)) by (apply arr_nonempty_valid; by apply Hwf).
  assert (Hgi : groupsOf h !! i = Some (arr h r)) by (by rewrite groupsOf_lookup, Hi).
  pose proof (groupsOf_destroyed_at h i r k (wf_refs h Hwf) Hi Hval) as Hview.
  assert (Hsub : concat (groupsOf (destroyed_at i r k h)) `sublist_of` concat (groupsOf h)).
  { rewrite Hview. destruct (decide (delete k (arr h r) = [])).
    - apply concat_delete_sublist.
    - eapply concat_insert_sublist; [exact Hgi | apply sublist_delete]. }
  split; [split|].
  - unfold destroyed_at. destruct (decide (delete k (arr h r) = [])); simpl.
    + eapply sublist_NoDup; [apply (wf_refs _ Hwf) | apply sublist_delete].
    + apply Hwf.
  - intros r' Hr'.
    assert (Hin : r' ∈ groups (manager h)).
    { revert Hr'. unfold destroyed_at.
      destruct (decide (delete k (arr h r) = [])); simpl; [|done].
      apply list_elem_of_delete_inv. }
    destruct (decide (r' = r)) as [->|Hne].
    + revert Hr'. unfold destroyed_at.
      destruct (decide (delete k (arr h r) = [])) as [E|E]; simpl.
      * intros Hr'. exfalso.
        apply list_elem_of_lookup in Hr' as [j Hj].
        destruct (Nat.lt_ge_cases j i).
        -- rewrite list_lookup_delete_lt in Hj by done.
           pose proof (NoDup_lookup _ _ _ _ (wf_refs h Hwf) Hi Hj). lia.
        -- rewrite list_lookup_delete_ge in Hj by done.
           pose proof (NoDup_lookup _ _ _ _ (wf_refs h Hwf) Hi Hj). lia.
      * intros _. by rewrite arr_set_arr_eq.
    + unfold destroyed_at.
      destruct (decide (delete k (arr h r) = [])); simpl;
        rewrite ?arr_set_manager, arr_set_arr_ne by done; by apply Hwf.
  - eapply sublist_NoDup; [apply (wf_members _ Hwf) | exact Hsub].
  - intros x Hx.
    assert (Hlen : length (watchers (destroyed_at i r k h)) = length (watchers h)).
    { unfold destroyed_at. by destruct (decide (delete k (arr h r) = [])). }
    rewrite Hlen. apply Hwf. eapply elem_of_sublist; [exact Hx | exact Hsub].
  - unfold destroyed_at. destruct (decide (delete k (arr h r) = [])); apply Hwf.
  - apply isActive_false. rewrite Hview.
    assert (Hnd : NoDup (arr h r)).
    { eapply NoDup_concat_group; [apply Hwf | exact Hgi]. }
    assert (Hout : forall j g, j <> i -> groupsOf h !! j = Some g -> w ∉ g).
    { intros j g Hne Hj.
      eapply (NoDup_concat_disjoint (groupsOf h) i j); eauto; [apply Hwf|].
      eapply list_elem_of_lookup_2; eauto. }
    intros Hin. apply elem_of_concat in Hin as (g & Hg & Hw).
    apply list_elem_of_lookup in Hg as [j Hj].
    destruct (decide (delete k (arr h r) = [])) as [E|E].
    + destruct (Nat.lt_ge_cases j i).
      * rewrite list_lookup_delete_lt in Hj by done. apply (Hout j g); [lia|done|done].
      * rewrite list_lookup_delete_ge in Hj by done. apply (Hout (S j) g); [lia|done|done].
    + destruct (decide (j = i)) as [->|Hne].
      * rewrite list_lookup_insert_eq in Hj by (eapply lookup_lt_Some; eauto).
        injection Hj as <-. by apply (NoDup_delete_lookup (arr h r) k w).
      * rewrite list_lookup_insert_ne in Hj by done. by apply (Hout j g).
Qed.

Lemma wf_destroy w h : wf h -> wf (destroy w h) /\ isActive w (destroy w h) = false.
Proof.
  intros Hwf. destruct (isActive w h) eqn:Hact.
  - destruct (wf_locate w h Hwf Hact) as (i & r & k & Hi & Hk & ->).
    by apply wf_destroyed_at.
  - rewrite destroy_inactive; [done|apply Hwf|done].
Qed.

(** Heaps that agree on the groups and on the arrays behind them. *)
Lemma groupsOf_ext h h' :
  groups (manager h') = groups (manager h) ->
  (forall r, r ∈ groups (manager h) -> arr h' r = arr h r) ->
  groupsOf h' = groupsOf h.
Proof.
  intros Hg Ha. unfold groupsOf. rewrite Hg.
  apply list_fmap_ext. intros i r Hi. apply Ha.
  eapply list_elem_of_lookup_2; eauto.
Qed.

Lemma wf_transfer h h' :
  wf h ->
  groups (manager h') = groups (manager h) ->
  (forall r, r ∈ groups (manager h) -> arr h' r = arr h r) ->
  length (watchers h) <= length (watchers h') ->
  (1 <= allowedNumberOfGroups (manager h'))%Z ->
  wf h'.
Proof.
  intros Hwf Hg Ha Hlen Hal.
  pose proof (groupsOf_ext h h' Hg Ha) as Hview.
  split.
  - rewrite Hg. apply Hwf.
  - intros r Hr. rewrite Hg in Hr. rewrite Ha by done. by apply Hwf.
  - rewrite Hview. apply Hwf.
  - intros w Hw. rewrite Hview in Hw. apply (wf_allocated h Hwf) in Hw. lia.
  - done.
Qed.

(** Replacing the contents of one group. *)
Lemma wf_set_arr h i r g' :
  wf h ->
  groups (manager h) !! i = Some r ->
  g' <> [] ->
  NoDup (concat (<[i := g']> (groupsOf h))) ->
  (forall w, w ∈ g' -> w < length (watchers h)) ->
  wf (set_arr r g' h).
Proof.
  intros Hwf Hi Hne Hnd Hall.
  assert (Hr : r ∈ groups (manager h)) by (eapply list_elem_of_lookup_2; eauto).
  assert (Hval : r < length (arrays h)) by (apply arr_nonempty_valid; by apply Hwf).
  pose proof (groupsOf_set_arr h i r g' (wf_refs h Hwf) Hi Hval) as Hview.
  split.
  - apply Hwf.
  - intros r' Hr'. destruct (decide (r' = r)) as [->|Hner].
    + by rewrite arr_set_arr_eq.
    + rewrite arr_set_arr_ne by done. by apply Hwf.
  - by rewrite Hview.
  - intros w Hw. rewrite Hview in Hw. change (length (watchers (set_arr r g' h)))
      with (length (watchers h)).
    apply elem_of_concat in Hw as (g & Hg & Hw).
    apply list_elem_of_lookup in Hg as [j Hj].
    destruct (decide (j = i)) as [->|Hnej].
    + rewrite list_lookup_insert_eq in Hj
        by (rewrite groupsOf_length; eapply lookup_lt_Some; eauto).
      injection Hj as <-. by apply Hall.
    + rewrite list_lookup_insert_ne in Hj by done.
      apply Hwf, elem_of_concat. exists g. split; [|done].
      eapply list_elem_of_lookup_2; eauto.
  - apply Hwf.
Qed.

Lemma wf_reverse_in_place h i r :
  wf h -> groups (manager h) !! i = Some r -> wf (reverse_in_place r h).
Proof.
  intros Hwf Hi.
  assert (Hr : r ∈ groups (manager h)) by (eapply list_elem_of_lookup_2; eauto).
  assert (Hgi : groupsOf h !! i = Some (arr h r)) by (by rewrite groupsOf_lookup, Hi).
  apply (wf_set_arr h i r); try done.
  - intros E. apply (wf_nonempty h Hwf r Hr).
    apply (f_equal (@length nat)) in E. rewrite length_rev in E.
    by destruct (arr h r).
  - rewrite (concat_insert_Permutation _ _ _ _ Hgi);
      [apply (wf_members h Hwf) | symmetry; apply Permutation_rev].
  - intros w Hw. apply Hwf, elem_of_concat. exists (arr h r). split.
    + eapply list_elem_of_lookup_2; eauto.
    + apply list_elem_of_In. apply list_elem_of_In, in_rev in Hw. exact Hw.
Qed.

Lemma groupsOf_reverse_in_place h r init :
  wf h -> groups (manager h) = init ++ [r] ->
  groupsOf h = (arr h <$> init) ++ [arr h r] /\
  groupsOf (reverse_in_place r h) = (arr h <$> init) ++ [rev (arr h r)].
Proof.
  intros Hwf Hg.
  assert (Hi : groups (manager h) !! length init = Some r).
  { rewrite Hg. by apply list_lookup_middle. }
  assert (Hr : r ∈ groups (manager h)) by (eapply list_elem_of_lookup_2; eauto).
  assert (Hval : r < length (arrays h)) by (apply arr_nonempty_valid; by apply Hwf).
  assert (Hv : groupsOf h = (arr h <$> init) ++ [arr h r]).
  { unfold groupsOf. rewrite Hg. apply fmap_snoc. }
  split; [done|].
  unfold reverse_in_place.
  rewrite (groupsOf_set_arr h (length init) r) by (done || apply Hwf).
  rewrite Hv. replace (length init) with (length (arr h <$> init) + 0)
    by (rewrite length_fmap; lia).
  by rewrite insert_app_r.
Qed.

(** ** The constructor *)

Lemma concat_snoc (gs : list (list nat)) g : concat (gs ++ [g]) = concat gs ++ g.
Proof. rewrite concat_app. simpl. by rewrite app_nil_r. Qed.

Lemma InternalCloseWatcher_new_spec h :
  wf h ->
  exists h',
    InternalCloseWatcher_new h = Some (length (watchers h), h') /\
    wf h' /\
    watchers h' = watchers h ++ [false] /\
    allowedNumberOfGroups (manager h') = allowedNumberOfGroups (manager h) /\
    nextUserInteractionAllowsAnewGroup (manager h') =
      nextUserInteractionAllowsAnewGroup (manager h) /\
    defaultView h' = defaultView h /\ aborted h' = aborted h /\
    if (Z.of_nat (length (groupsOf h)) <? allowedNumberOfGroups (manager h))%Z
    then groupsOf h' = groupsOf h ++ [[length (watchers h)]]
    else exists init g,
        groupsOf h = init ++ [g] /\
        groupsOf h' = init ++ [g ++ [length (watchers h)]].
Proof.
  intros Hwf. set (this := length (watchers h)).
  assert (Hfresh : this ∉ concat (groupsOf h)).
  { intros Hin. apply (wf_allocated h Hwf) in Hin. unfold this in Hin. lia. }
  unfold InternalCloseWatcher_new. rewrite groupsOf_length. fold this. simpl.
  destruct (Z.ltb_spec (Z.of_nat (length (groups (manager h))))
              (allowedNumberOfGroups (manager h))) as [Hlt|Hge].
  - eexists. split; [reflexivity|].
    set (h' := set_manager _ _).
    assert (Hold : forall r, r ∈ groups (manager h) -> arr h' r = arr h r).
    { intros r Hr. apply (wf_nonempty h Hwf), arr_nonempty_valid in Hr.
      unfold arr, h'. simpl. by rewrite lookup_app_l. }
    assert (Hnew : arr h' (length (arrays h)) = [this]).
    { unfold arr, h'. simpl. by rewrite list_lookup_middle. }
    assert (Hview : groupsOf h' = groupsOf h ++ [[this]]).
    { unfold groupsOf at 1. unfold h' at 2. simpl. rewrite fmap_snoc, Hnew.
      f_equal. apply list_fmap_ext. intros i r Hi. apply Hold.
      eapply list_elem_of_lookup_2; eauto. }
    split; [|by repeat split].
    split.
    + unfold h'; simpl. apply NoDup_app. split; [apply Hwf|]. split; [|apply NoDup_singleton].
      intros r Hr Hr'. apply list_elem_of_singleton in Hr'. subst r.
      apply (wf_nonempty h Hwf), arr_nonempty_valid in Hr. lia.
    + intros r Hr. unfold h' in Hr; simpl in Hr.
      apply elem_of_app in Hr as [Hr|Hr].
      * rewrite Hold by done. by apply Hwf.
      * apply list_elem_of_singleton in Hr. subst r. by rewrite Hnew.
    + rewrite Hview, concat_snoc. apply NoDup_app. split; [apply Hwf|].
      split; [|apply NoDup_singleton].
      intros w Hw Hw'. apply list_elem_of_singleton in Hw'. by subst w.
    + intros w Hw. rewrite Hview, concat_snoc in Hw. unfold h'; simpl.
      rewrite length_app; simpl.
      apply elem_of_app in Hw as [Hw|Hw].
      * apply (wf_allocated h Hwf) in Hw. lia.
      * apply list_elem_of_singleton in Hw. subst w. unfold this. lia.
    + apply Hwf.
  - pose proof (wf_allowed h Hwf) as Hal.
    destruct (last (groups (manager h))) as [r|] eqn:Hlast.
    2:{ apply last_None in Hlast. rewrite Hlast in Hge. simpl in Hge. lia. }
    apply last_Some in Hlast as [init Hinit].
    set (h0 := set_watchers (watchers h ++ [false]) h).
    assert (Hwf0 : wf h0).
    { apply (wf_transfer h); try done. unfold h0; simpl. rewrite length_app. lia. }
    assert (Hi : groups (manager h0) !! length init = Some r).
    { unfold h0; simpl. rewrite Hinit. by apply list_lookup_middle. }
    assert (Hr : r ∈ groups (manager h)) by (eapply list_elem_of_lookup_2; eauto).
    assert (Hval : r < length (arrays h)) by (apply arr_nonempty_valid; by apply Hwf).
    assert (Hv : groupsOf h = (arr h <$> init) ++ [arr h r]).
    { unfold groupsOf. rewrite Hinit. apply fmap_snoc. }
    change (arr (set_watchers (watchers h ++ [false]) h) r) with (arr h r).
    fold h0.
    assert (Hview : groupsOf (set_arr r (arr h r ++ [this]) h0)
                    = (arr h <$> init) ++ [arr h r ++ [this]]).
    { rewrite (groupsOf_set_arr h0 (length init) r) by (done || apply Hwf).
      change (groupsOf h0) with (groupsOf h). rewrite Hv.
      replace (length init) with (length (arr h <$> init) + 0)
        by (rewrite length_fmap; lia).
      by rewrite insert_app_r. }
    eexists. split; [reflexivity|].
    split; [|repeat split; try done; by exists (arr h <$> init), (arr h r)].
    assert (Hins : <[length init := arr h r ++ [this]]> (groupsOf h0)
                   = (arr h <$> init) ++ [arr h r ++ [this]]).
    { rewrite <- Hview. symmetry.
      apply (groupsOf_set_arr h0 (length init) r); done || apply Hwf. }
    apply (wf_set_arr h0 (length init) r); try done;
      change (arr h0 r) with (arr h r).
    + by destruct (arr h r).
    + rewrite Hins, concat_snoc, app_assoc. apply NoDup_app.
      split; [|split; [|apply NoDup_singleton]].
      * rewrite <- concat_snoc, <- Hv. apply Hwf.
      * intros w Hw Hw'. apply list_elem_of_singleton in Hw'. subst w.
        apply Hfresh. by rewrite Hv, concat_snoc.
    + intros w Hw. unfold h0; simpl. rewrite length_app; simpl.
      apply elem_of_app in Hw as [Hw|Hw].
      * assert (w < length (watchers h)); [|lia].
        apply Hwf. rewrite Hv, concat_snoc. apply elem_of_app. by right.
      * apply list_elem_of_singleton in Hw. subst w. unfold this. lia.
Qed.

(** ** [destroy] only removes *)

Lemma length_splice1 {A} (z : Z) (l : list A) : length (splice1 z l) <= length l.
Proof.
  unfold splice1. set (k := Z.to_nat _).
  destruct (Nat.lt_ge_cases k (length l)) as [Hlt|Hge].
  - pose proof (length_delete l k (lookup_lt_is_Some_2 l k Hlt)). lia.
  - by rewrite delete_beyond.
Qed.

Lemma length_arr_set_arr h r l r' :
  length l <= length (arr h r) -> length (arr (set_arr r l h) r') <= length (arr h r').
Proof.
  intros Hl. destruct (decide (r = r')) as [<-|Hne].
  - destruct (Nat.lt_ge_cases r (length (arrays h))).
    + by rewrite arr_set_arr_eq.
    + unfold arr, set_arr; simpl. by rewrite list_insert_ge.
  - by rewrite arr_set_arr_ne.
Qed.


Lemma shrinks_refl h : shrinks h h.
Proof. by repeat split. Qed.

Lemma shrinks_trans h1 h2 h3 : shrinks h1 h2 -> shrinks h2 h3 -> shrinks h1 h3.
Proof.
  intros (?&?&?&?&?&?&Ha) (?&?&?&?&?&?&Hb).
  repeat split; try congruence; try lia.
  intros r. specialize (Ha r). specialize (Hb r). lia.
Qed.

Lemma destroy_body_shrinks w i h h' : destroy_body w i h = Some h' -> shrinks h h'.
Proof.
  unfold destroy_body. destruct (groups (manager h) !! i) as [g|]; [|done].
  intros [= <-].
  set (h1 := if includes Nat.eqb w (arr h g) then _ else h).
  assert (H1 : shrinks h h1).
  { unfold h1. destruct (includes Nat.eqb w (arr h g)); [|apply shrinks_refl].
    repeat split; try done. intros r. apply length_arr_set_arr, length_splice1. }
  eapply shrinks_trans; [exact H1|].
  destruct (Nat.eqb (length (arr h1 g)) 0); [|apply shrinks_refl].
  repeat split; try done. simpl. apply length_splice1.
Qed.

Lemma destroy_loop_shrinks w n : forall i h, shrinks h (destroy_loop n w i h).
Proof.
  induction n as [|n IH]; intros i h; simpl; [apply shrinks_refl|].
  destruct (destroy_body w i h) as [h'|] eqn:E; [|apply shrinks_refl].
  eapply shrinks_trans; [eapply destroy_body_shrinks; eauto | apply IH].
Qed.

Lemma destroy_shrinks w h : shrinks h (destroy w h).
Proof. apply destroy_loop_shrinks. Qed.

(** The bound of [destroy_loop] is enough: a turn past it finds the
    iterator exhausted. *)
Lemma destroy_loop_enough w n : forall i h,
  length (groups (manager h)) <= i + n ->
  destroy_body w (i + n) (destroy_loop n w i h) = None.
Proof.
  induction n as [|n IH]; intros i h Hlen; simpl.
  - unfold destroy_body. rewrite Nat.add_0_r.
    by rewrite (lookup_ge_None_2 (groups (manager h)) i) by lia.
  - destruct (destroy_body w i h) as [h'|] eqn:E.
    + replace (i + S n) with (S i + n) by lia. apply IH.
      apply destroy_body_shrinks in E as (_&_&_&_&_&Hg&_). lia.
    + unfold destroy_body in *.
      destruct (groups (manager h) !! i) eqn:Hi; [done|].
      apply lookup_ge_None in Hi.
      by rewrite (lookup_ge_None_2 (groups (manager h)) (i + S n)) by lia.
Qed.


(** ** The constructor and [notify] on the rest of the heap *)

Lemma InternalCloseWatcher_new_watchers h w h' :
  InternalCloseWatcher_new h = Some (w, h') ->
  w = length (watchers h) /\ watchers h' = watchers h ++ [false].
Proof.
  unfold InternalCloseWatcher_new. simpl.
  destruct (_ <? _)%Z; [by intros [= <- <-]|].
  destruct (last (groups (manager h))); [by intros [= <- <-]|done].
Qed.

Lemma notify_frame e h :
  groups (manager (notify e h)) = groups (manager h) /\
  arrays (notify e h) = arrays h /\
  watchers (notify e h) = watchers h /\
  defaultView (notify e h) = defaultView h /\
  (allowedNumberOfGroups (manager h) <= allowedNumberOfGroups (manager (notify e h)))%Z.
Proof.
  unfold notify.
  destruct (isKeyboardEvent e && _); [repeat split; lia|].
  destruct (isPointerEvent e && _); [repeat split; lia|].
  destruct (isTrusted e); [|repeat split; lia].
  destruct (nextUserInteractionAllowsAnewGroup (manager h)); simpl; repeat split; lia.
Qed.

Lemma deliver_frame e h :
  groups (manager (deliver e h)) = groups (manager h) /\
  arrays (deliver e h) = arrays h /\
  watchers (deliver e h) = watchers h /\
  defaultView (deliver e h) = defaultView h /\
  (allowedNumberOfGroups (manager h) <= allowedNumberOfGroups (manager (deliver e h)))%Z.
Proof.
  unfold deliver. destruct (aborted h); [repeat split; lia | apply notify_frame].
Qed.

Lemma wf_deliver e h : wf h -> wf (deliver e h).
Proof.
  intros Hwf. destruct (deliver_frame e h) as (Hg & Ha & Hw & _ & Hal).
  apply (wf_transfer h); try done.
  - intros r _. unfold arr. by rewrite Ha.
  - by rewrite Hw.
  - pose proof (wf_allowed h Hwf). lia.
Qed.

(** ** Counting calls *)

Lemma cancelCalls_app w t1 t2 :
  cancelCalls w (t1 ++ t2) = cancelCalls w t1 + cancelCalls w t2.
Proof. apply count_occ_app. Qed.

Lemma closeCalls_app w t1 t2 :
  closeCalls w (t1 ++ t2) = closeCalls w t1 + closeCalls w t2.
Proof. apply count_occ_app. Qed.

Lemma cancelCalls_one w e :
  cancelCalls w [e] = if decide (e = CancelActionCalled w) then 1 else 0.
Proof.
  unfold cancelCalls. simpl.
  destruct (Event_eq_dec e (CancelActionCalled w)), (decide (e = CancelActionCalled w));
    congruence.
Qed.

Lemma closeCalls_one w e :
  closeCalls w [e] = if decide (e = CloseActionCalled w) then 1 else 0.
Proof.
  unfold closeCalls. simpl.
  destruct (Event_eq_dec e (CloseActionCalled w)), (decide (e = CloseActionCalled w));
    congruence.
Qed.

Lemma cancelCalls_cons w e t :
  cancelCalls w (e :: t) =
    (if decide (e = CancelActionCalled w) then 1 else 0) + cancelCalls w t.
Proof. change (e :: t) with ([e] ++ t). by rewrite cancelCalls_app, cancelCalls_one. Qed.

Lemma closeCalls_cons w e t :
  closeCalls w (e :: t) =
    (if decide (e = CloseActionCalled w) then 1 else 0) + closeCalls w t.
Proof. change (e :: t) with ([e] ++ t). by rewrite closeCalls_app, closeCalls_one. Qed.

Ltac count_calls :=
  rewrite ?cancelCalls_app, ?closeCalls_app, ?cancelCalls_cons, ?closeCalls_cons;
  repeat case_decide; try congruence;
  change (cancelCalls ?w []) with 0; change (closeCalls ?w []) with 0; lia.

(** ** [close], [requestClose] and the dispatcher, for arbitrary callbacks *)

Section Semantics.

Variable cancelAction : Watcher -> Heap -> bool * Heap.
Variable closeAction : Watcher -> Heap -> Heap.

Lemma close_noop w s :
  isActive w (heap s) = false \/ defaultView (heap s) = false ->
  close closeAction w s = s.
Proof.
  intros H. unfold close.
  destruct H as [-> | ->]; [done | by rewrite andb_false_r].
Qed.

Lemma close_active w s :
  isActive w (heap s) = true -> defaultView (heap s) = true ->
  close closeAction w s =
    mkWorld (closeAction w (destroy w (heap s)))
            (trace s ++ [CloseActionCalled w]).
Proof. intros Ha Hv. unfold close. by rewrite Ha, Hv. Qed.

Lemma requestClose_true w s :
  fst (requestClose cancelAction closeAction w s) = true.
Proof. reflexivity. Qed.

Lemma requestClose_guarded w s :
  isActive w (heap s) = false \/ isRunningCancelAction w (heap s) = true ->
  requestClose cancelAction closeAction w s =
    (true, record (RequestCloseCalled w) s).
Proof.
  intros H. unfold requestClose. cbn [heap record].
  destruct H as [-> | ->]; [done | by rewrite andb_false_r].
Qed.

Lemma requestClose_fires w s :
  isActive w (heap s) = true -> isRunningCancelAction w (heap s) = false ->
  requestClose cancelAction closeAction w s =
    (true,
     let s1 :=
       mkWorld (snd (cancelAction w (set_isRunningCancelAction w true (heap s))))
               (trace s ++ [RequestCloseCalled w; CancelActionCalled w]) in
     if fst (cancelAction w (set_isRunningCancelAction w true (heap s)))
     then s1 else close closeAction w s1).
Proof.
  intros Ha Hr. unfold requestClose. cbn [heap record]. rewrite Ha, Hr.
  cbn [andb negb heap set_heap record trace].
  destruct (cancelAction w _) as [r h']. cbn [fst snd negb].
  assert (E : set_heap h'
                (record (CancelActionCalled w)
                   (set_heap (set_isRunningCancelAction w true (heap s))
                      (record (RequestCloseCalled w) s)))
              = mkWorld h' (trace s ++ [RequestCloseCalled w; CancelActionCalled w])).
  { unfold set_heap, record; simpl. by rewrite <- app_assoc. }
  rewrite E. by destruct r.
Qed.

(** One turn of the dispatcher's loop: since [requestClose] returns [true],
    the loop goes on with the world [requestClose] leaves. *)
Lemma forOf_S fuel group i processed s :
  forOf cancelAction closeAction (S fuel) group i processed s =
    match arr (heap s) group !! i with
    | None => Some (processed, s)
    | Some w =>
        forOf cancelAction closeAction fuel group (S i) true
          (snd (requestClose cancelAction closeAction w s))
    end.
Proof. reflexivity. Qed.

(** Whatever every [requestClose] preserves, the loop preserves. *)
Lemma forOf_invariant (P : World -> Prop) :
  (forall w s, P s -> P (snd (requestClose cancelAction closeAction w s))) ->
  forall fuel group i processed s b s',
    P s ->
    forOf cancelAction closeAction fuel group i processed s = Some (b, s') ->
    P s'.
Proof.
  intros Hstep. induction fuel as [|fuel IH]; intros group i p s b s' HP; [done|].
  rewrite forOf_S. destruct (arr (heap s) group !! i) as [w|]; [|by intros [= _ <-]].
  apply IH. by apply Hstep.
Qed.

(** A dispatch that returns, in its parts: the reversal when there is a
    group, the loop, and the last statement on the budget. *)
Lemma processCloseWatchers_parts fuel s b s' :
  processCloseWatchers cancelAction closeAction fuel s = Some (b, s') ->
  exists s0 s1,
    (s0 = s \/
     exists r, last (groups (manager (heap s))) = Some r /\
               s0 = set_heap (reverse_in_place r (heap s)) s) /\
    (forall P : World -> Prop,
        (forall w s, P s -> P (snd (requestClose cancelAction closeAction w s))) ->
        P s0 -> P s1) /\
    s' = if (1 <? allowedNumberOfGroups (manager (heap s1)))%Z
         then set_heap
                (set_manager
                   (set_allowedNumberOfGroups
                      (allowedNumberOfGroups (manager (heap s1)) - 1)%Z
                      (manager (heap s1)))
                   (heap s1)) s1
         else s1.
Proof.
  unfold processCloseWatchers.
  destruct (Nat.ltb 0 (length (groups (manager (heap s))))).
  - destruct (last (groups (manager (heap s)))) as [r|] eqn:Hlast.
    + destruct (forOf _ _ fuel r 0 false _) as [[p s1]|] eqn:Hloop; [|done].
      intros [= <- <-]. exists (set_heap (reverse_in_place r (heap s)) s), s1.
      split; [right; eauto|]. split; [|done].
      intros P HP H0. eapply forOf_invariant; eauto.
    + intros [= <- <-]. exists s, s. by split; [left|].
  - intros [= <- <-]. exists s, s. by split; [left|].
Qed.

(** ** Callbacks that leave the group budget alone *)

Lemma quiet_keeps_budget :
  quiet cancelAction closeAction -> keeps_budget cancelAction closeAction.
Proof. intros [Hc Hd]. split; intros w h; by rewrite ?Hc, ?Hd. Qed.

Section Budget.

Hypothesis Hkeep : keeps_budget cancelAction closeAction.






End Budget.

(** ** Callbacks that only decide *)

Lemma settles_refl h : settles h h.
Proof. by repeat split. Qed.

Lemma settles_trans h1 h2 h3 : settles h1 h2 -> settles h2 h3 -> settles h1 h3.
Proof.
  intros (?&?&?&?&?&Hf&?&Ha) (?&?&?&?&?&Hf'&?&Hb).
  repeat split; try congruence; try lia; [by auto|].
  intros r. specialize (Ha r). specialize (Hb r). lia.
Qed.

Lemma shrinks_settles h h' : shrinks h h' -> settles h h'.
Proof.
  intros (Hw&?&?&?&?&?&?). repeat split; try done; [by rewrite Hw|].
  intros w. unfold isRunningCancelAction. by rewrite Hw.
Qed.

Lemma isRunningCancelAction_set w w' h :
  isRunningCancelAction w h = true ->
  isRunningCancelAction w (set_isRunningCancelAction w' true h) = true.
Proof.
  unfold isRunningCancelAction, set_isRunningCancelAction; simpl.
  destruct (decide (w' = w)) as [->|Hne].
  - destruct (watchers h !! w) eqn:E; [|done]. intros _.
    rewrite list_lookup_insert_eq; [done|]. eapply lookup_lt_Some; eauto.
  - by rewrite list_lookup_insert_ne.
Qed.

Lemma isRunningCancelAction_set_eq w h :
  w < length (watchers h) ->
  isRunningCancelAction w (set_isRunningCancelAction w true h) = true.
Proof.
  intros H. unfold isRunningCancelAction, set_isRunningCancelAction; simpl.
  by rewrite list_lookup_insert_eq.
Qed.

Lemma set_isRunningCancelAction_settles w h :
  settles h (set_isRunningCancelAction w true h).
Proof.
  repeat split; try done.
  - unfold set_isRunningCancelAction; simpl. by rewrite length_insert.
  - intros w'. apply isRunningCancelAction_set.
Qed.

Lemma wf_set_isRunningCancelAction w b h :
  wf h -> wf (set_isRunningCancelAction w b h).
Proof.
  intros Hwf. apply (wf_transfer h); try done; [|apply Hwf].
  unfold set_isRunningCancelAction; simpl. by rewrite length_insert.
Qed.

Section Quiet.

Hypothesis Hquiet : quiet cancelAction closeAction.

Lemma close_quiet w s :
  close closeAction w s =
    if isActive w (heap s) && defaultView (heap s)
    then mkWorld (destroy w (heap s)) (trace s ++ [CloseActionCalled w])
    else s.
Proof.
  unfold close. destruct (isActive w (heap s) && defaultView (heap s)); [|done].
  simpl. by rewrite (proj2 Hquiet).
Qed.

(** [requestClose] written out for callbacks that only decide. *)
Lemma requestClose_quiet w s :
  requestClose cancelAction closeAction w s =
    (true,
     if isActive w (heap s) && negb (isRunningCancelAction w (heap s)) then
       let h1 := set_isRunningCancelAction w true (heap s) in
       let t1 := trace s ++ [RequestCloseCalled w; CancelActionCalled w] in
       if fst (cancelAction w h1) || negb (defaultView (heap s))
       then mkWorld h1 t1
       else mkWorld (destroy w h1) (t1 ++ [CloseActionCalled w])
     else record (RequestCloseCalled w) s).
Proof.
  destruct (isActive w (heap s)) eqn:Ha; [|by rewrite requestClose_guarded by auto].
  destruct (isRunningCancelAction w (heap s)) eqn:Hr;
    [by rewrite requestClose_guarded by auto|].
  rewrite requestClose_fires by done. cbn [andb negb]. f_equal.
  rewrite (proj1 Hquiet).
  destruct (fst (cancelAction w _)); [done|]. rewrite close_quiet. cbn [heap trace orb].
  change (isActive w (set_isRunningCancelAction w true (heap s)))
    with (isActive w (heap s)).
  change (defaultView (set_isRunningCancelAction w true (heap s)))
    with (defaultView (heap s)).
  rewrite Ha. by destruct (defaultView (heap s)).
Qed.

Lemma requestClose_settles w s :
  settles (heap s) (heap (snd (requestClose cancelAction closeAction w s))).
Proof.
  rewrite requestClose_quiet. cbn [snd].
  destruct (isActive w (heap s) && negb (isRunningCancelAction w (heap s)));
    [|apply settles_refl].
  cbv zeta. destruct (fst (cancelAction w _) || negb (defaultView (heap s))).
  - apply set_isRunningCancelAction_settles.
  - eapply settles_trans; [apply set_isRunningCancelAction_settles|].
    apply shrinks_settles, destroy_shrinks.
Qed.

Lemma requestClose_wf w s :
  wf (heap s) -> wf (heap (snd (requestClose cancelAction closeAction w s))).
Proof.
  intros Hwf. rewrite requestClose_quiet. cbn [snd].
  destruct (isActive w (heap s) && negb (isRunningCancelAction w (heap s)));
    [|done].
  cbv zeta. destruct (fst (cancelAction w _) || negb (defaultView (heap s))); cbn [heap].
  - by apply wf_set_isRunningCancelAction.
  - by apply wf_destroy, wf_set_isRunningCancelAction.
Qed.

(** With callbacks that only decide the iterated array cannot grow, so the
    loop ends within its length. *)
Lemma forOf_total : forall fuel group i processed s,
  length (arr (heap s) group) - i < fuel ->
  exists b s', forOf cancelAction closeAction fuel group i processed s = Some (b, s').
Proof.
  induction fuel as [|fuel IH]; intros group i p s Hlt; [lia|].
  rewrite forOf_S. destruct (arr (heap s) group !! i) as [w|] eqn:Hi; [|eauto].
  apply IH. apply lookup_lt_Some in Hi.
  destruct (requestClose_settles w s) as (_&_&_&_&_&_&_&Hlen).
  specialize (Hlen group). lia.
Qed.

Lemma processCloseWatchers_total fuel s :
  length (default [] (last (groupsOf (heap s)))) < fuel ->
  exists b s', processCloseWatchers cancelAction closeAction fuel s = Some (b, s').
Proof.
  intros Hfuel. unfold processCloseWatchers.
  destruct (Nat.ltb 0 (length (groups (manager (heap s))))); [|eauto].
  destruct (last (groups (manager (heap s)))) as [r|] eqn:Hlast; [|eauto].
  unfold groupsOf in Hfuel. rewrite fmap_last, Hlast in Hfuel. simpl in Hfuel.
  destruct (forOf_total fuel r 0 false (set_heap (reverse_in_place r (heap s)) s))
    as (b & s1 & ->); [|eauto].
  simpl. pose proof (length_arr_set_arr (heap s) r (rev (arr (heap s) r)) r) as Hl.
  rewrite length_rev in Hl. specialize (Hl (Nat.le_refl _)).
  unfold reverse_in_place. lia.
Qed.

Lemma processCloseWatchers_wf fuel s b s' :
  processCloseWatchers cancelAction closeAction fuel s = Some (b, s') ->
  wf (heap s) -> wf (heap s').
Proof.
  intros H Hwf. apply processCloseWatchers_parts in H as (s0 & s1 & H0 & Hloop & ->).
  assert (Hwf1 : wf (heap s1)).
  { apply (Hloop (fun x => wf (heap x))); [apply requestClose_wf|].
    destruct H0 as [->|(r & Hlast & ->)]; [done|]. simpl.
    apply last_Some in Hlast as [init Hinit].
    apply (wf_reverse_in_place (heap s) (length init) r Hwf).
    rewrite Hinit. by apply list_lookup_middle. }
  destruct (Z.ltb_spec 1 (allowedNumberOfGroups (manager (heap s1)))); [|done].
  apply (wf_transfer (heap s1)); try done. simpl. lia.
Qed.

Lemma step_wf s s' :
  step cancelAction closeAction s s' -> wf (heap s) -> wf (heap s').
Proof.
  intros Hstep Hwf. destruct Hstep as [s w h' Hnew|s w|s w|s w|s fuel b s' Hd|s e|s b]; simpl.
  - destruct (InternalCloseWatcher_new_spec (heap s) Hwf) as (h'' & E & Hwf' & _).
    rewrite Hnew in E. injection E as _ ->. exact Hwf'.
  - by apply wf_destroy.
  - rewrite close_quiet.
    destruct (isActive w (heap s) && defaultView (heap s)); [|done].
    by apply wf_destroy.
  - by apply requestClose_wf.
  - eapply processCloseWatchers_wf; eauto.
  - by apply wf_deliver.
  - apply (wf_transfer (heap s)); try done. apply Hwf.
Qed.

Lemma reachable_wf s : reachable cancelAction closeAction s -> wf (heap s).
Proof.
  induction 1 as [|s s' _ IH Hstep].
  - split; simpl; try done; try apply NoDup_nil_2; try lia;
      intros x Hx; inversion Hx.
  - eapply step_wf; eauto.
Qed.

(** *** [destroy] and the guards *)

Lemma destroy_watchers w h : watchers (destroy w h) = watchers h.
Proof. by destruct (destroy_shrinks w h) as (?&_). Qed.

End Quiet.

End Semantics.

(** ** What [destroy] does to an active watcher *)

Lemma destroy_active w h :
  wf h -> isActive w h = true ->
  exists i g k,
    groupsOf h !! i = Some g /\ g !! k = Some w /\
    (forall j g', j <> i -> groupsOf h !! j = Some g' -> w ∉ g') /\
    groupsOf (destroy w h) =
      (if decide (delete k g = []) then delete i (groupsOf h)
       else <[i := delete k g]> (groupsOf h)) /\
    isActive w (destroy w h) = false.
Proof.
  intros Hwf Hact.
  destruct (wf_locate w h Hwf Hact) as (i & r & k & Hi & Hk & Heq).
  assert (Hgi : groupsOf h !! i = Some (arr h r)) by (by rewrite groupsOf_lookup, Hi).
  exists i, (arr h r), k. split; [done|]. split; [done|]. split; [|split].
  - intros j g' Hne Hj.
    eapply (NoDup_concat_disjoint (groupsOf h) i j); eauto; [apply Hwf|].
    eapply list_elem_of_lookup_2; eauto.
  - rewrite Heq. apply groupsOf_destroyed_at; [apply Hwf | done |].
    apply arr_nonempty_valid, Hwf. eapply list_elem_of_lookup_2; eauto.
  - by apply wf_destroy.
Qed.

(** ** Placement, [n] times *)

Lemma register_spec : forall n h,
  wf h -> allowedNumberOfGroups (manager h) = 1%Z ->
  exists h',
    register n h = Some (seq (length (watchers h)) n, h') /\
    wf h' /\ allowedNumberOfGroups (manager h') = 1%Z /\
    length (watchers h') = length (watchers h) + n /\
    groupsOf h' =
      match n with
      | O => groupsOf h
      | S _ =>
          removelast (groupsOf h)
            ++ [default [] (last (groupsOf h)) ++ seq (length (watchers h)) n]
      end.
Proof.
  induction n as [|n IH]; intros h Hwf Hal.
  - exists h. split; [done|]. split; [done|]. split; [done|]. split; [lia|done].
  - destruct (InternalCloseWatcher_new_spec h Hwf)
      as (h1 & Hnew & Hwf1 & Hw1 & Hal1 & _ & _ & _ & Hview1).
    rewrite Hal in Hal1.
    destruct (IH h1 Hwf1 Hal1) as (h' & Hreg & Hwf' & Hal' & Hlen' & Hview').
    assert (Hlen1 : length (watchers h1) = S (length (watchers h))).
    { rewrite Hw1, length_app. simpl. lia. }
    exists h'. cbn [register]. rewrite Hnew, Hreg, Hlen1.
    split; [done|]. split; [done|]. split; [done|]. split; [lia|].
    assert (Hone : groupsOf h1 =
      removelast (groupsOf h)
        ++ [default [] (last (groupsOf h)) ++ [length (watchers h)]]).
    { rewrite Hal in Hview1.
      destruct (Z.ltb_spec (Z.of_nat (length (groupsOf h))) 1).
      - destruct (groupsOf h) as [|g gs] eqn:E; [by rewrite Hview1|simpl in *; lia].
      - destruct Hview1 as (init & g & -> & ->).
        by rewrite removelast_last, last_snoc. }
    rewrite Hview'. destruct n as [|n]; [by rewrite Hone|].
    rewrite Hone, removelast_last, last_snoc, Hlen1. cbn [default from_option id].
    by rewrite <- app_assoc.
Qed.

Lemma heapAB_registered : register 2 initialHeap = Some ([0; 1], heapAB).
Proof. reflexivity. Qed.

(** * The claims *)

(** C1. Register A then B, both with a [cancelAction] that returns
    [false], and dispatch: [reverse()] makes the live group [[B, A]], B is
    closed and spliced out of that same array, the iterator moves on to
    position 1 of [[A]] and stops. [requestClose] is called on B only, and A
    stays active. *)
Theorem processCloseWatchers_skips_after_close :
  exists s',
    processCloseWatchers cancelFalse closeNothing 3 (mkWorld heapAB [])
      = Some (true, s') /\
    groupsOf heapAB = [[0; 1]] /\
    trace s' = [RequestCloseCalled 1; CancelActionCalled 1; CloseActionCalled 1] /\
    requestCloseCalls (trace s') = [1] /\
    groupsOf (heap s') = [[0]] /\
    isActive 0 (heap s') = true.
Proof. eexists. split; [reflexivity|]. repeat split. Qed.

(** A second dispatch over watchers that stayed walks them in registration
    order: the first dispatch left the group reversed. *)
Example processCloseWatchers_second_dispatch_order :
  exists b1 s1 b2 s2,
    processCloseWatchers cancelTrue closeNothing 3 (mkWorld heapAB [])
      = Some (b1, s1) /\
    requestCloseCalls (trace s1) = [1; 0] /\
    processCloseWatchers cancelTrue closeNothing 3 (mkWorld (heap s1) [])
      = Some (b2, s2) /\
    requestCloseCalls (trace s2) = [0; 1].
Proof. do 4 eexists. split; [reflexivity|]. repeat split. Qed.

(** C2. [requestClose()] returns [true] for every watcher in every world,
    whatever the callbacks are: active or not, guard set or not. So the
    [break] of the dispatcher's loop is never taken: the loop is the same
    function as the loop with the [break] left out. *)
Theorem requestClose_always_true :
  forall cancelAction closeAction,
    (forall w s, fst (requestClose cancelAction closeAction w s) = true) /\
    (forall fuel group i processed s,
        forOf cancelAction closeAction fuel group i processed s =
        forOf_nobreak cancelAction closeAction fuel group i processed s).
Proof.
  intros cancelAction closeAction. split; [reflexivity|].
  induction fuel as [|fuel IH]; intros group i processed s; [reflexivity|].
  rewrite forOf_S. cbn [forOf_nobreak].
  destruct (arr (heap s) group !! i); [apply IH | reflexivity].
Qed.

(** C4. In a well-formed heap the constructor places the new watcher by
    the rule: with fewer groups than [allowedNumberOfGroups] it appends a
    new group holding only that watcher; otherwise it appends the watcher
    to the last group. With [allowedNumberOfGroups = 1], any number of
    constructor calls in a row put the new watchers, in the order of their
    construction, at the end of one single group; from the initial heap
    they are all there is. *)
Theorem placement_rule h :
  wf h ->
  (exists h',
      InternalCloseWatcher_new h = Some (length (watchers h), h') /\
      if (Z.of_nat (length (groupsOf h)) <? allowedNumberOfGroups (manager h))%Z
      then groupsOf h' = groupsOf h ++ [[length (watchers h)]]
      else exists init g,
          groupsOf h = init ++ [g] /\
          groupsOf h' = init ++ [g ++ [length (watchers h)]]) /\
  (allowedNumberOfGroups (manager h) = 1%Z ->
   forall n, 0 < n ->
     exists h',
       register n h = Some (seq (length (watchers h)) n, h') /\
       groupsOf h' =
         removelast (groupsOf h)
           ++ [default [] (last (groupsOf h)) ++ seq (length (watchers h)) n]) /\
  (forall n, 0 < n ->
     exists h',
       register n initialHeap = Some (seq 0 n, h') /\ groupsOf h' = [seq 0 n]).
Proof.
  intros Hwf. split; [|split].
  - destruct (InternalCloseWatcher_new_spec h Hwf) as (h' & Hnew & _ & _ & _ & _ & _ & _ & Hv).
    by exists h'.
  - intros Hal n Hn. destruct (register_spec n h Hwf Hal) as (h' & Hreg & _ & _ & _ & Hv).
    exists h'. split; [done|]. by destruct n; [lia|].
  - intros n Hn.
    assert (Hwf0 : wf initialHeap) by (apply wfb_correct; reflexivity).
    destruct (register_spec n initialHeap Hwf0 eq_refl) as (h' & Hreg & _ & _ & _ & Hv).
    exists h'. split; [done|]. by destruct n; [lia|].
Qed.

Lemma placement_rule_witness :
  wf heapGuarded /\
  (exists h', InternalCloseWatcher_new heapTwoGroups = Some (3, h') /\
              groupsOf h' = [[0; 1]; [2; 3]]) /\
  (exists h', InternalCloseWatcher_new initialHeap = Some (0, h') /\
              groupsOf h' = [[0]]) /\
  (exists h', register 3 heapGuarded = Some ([2; 3; 4], h') /\
              groupsOf h' = [[0; 1; 2; 3; 4]]).
Proof.
  assert (Hwf : wf heapGuarded) by (apply wfb_correct; reflexivity).
  assert (Hwf2 : wf heapTwoGroups) by (apply wfb_correct; reflexivity).
  assert (Hwf0 : wf initialHeap) by (apply wfb_correct; reflexivity).
  split; [exact Hwf|]. split; [|split].
  - destruct (placement_rule heapTwoGroups Hwf2) as ((h' & Hnew & Hv) & _).
    exists h'. split; [exact Hnew|].
    destruct Hv as (init & g & Hold & ->).
    change (groupsOf heapTwoGroups) with ([[0; 1]] ++ [[2]]) in Hold.
    apply app_inj_tail in Hold as [<- <-]. reflexivity.
  - destruct (placement_rule initialHeap Hwf0) as ((h' & Hnew & Hv) & _).
    exists h'. split; [exact Hnew | exact Hv].
  - destruct (placement_rule heapGuarded Hwf) as (_ & H & _).
    destruct (H eq_refl 3 ltac:(lia)) as (h' & Hreg & Hv).
    exists h'. split; [exact Hreg | exact Hv].
Defined.

(** C5. Register A then B, both with a [cancelAction] that returns [true],
    and dispatch: both watchers stay, and the group is left as [[B, A]];
    a watcher C registered afterwards gives [[B, A, C]]. *)
Theorem processCloseWatchers_leaves_group_reversed :
  exists s' h'',
    processCloseWatchers cancelTrue closeNothing 3 (mkWorld heapAB [])
      = Some (true, s') /\
    groupsOf heapAB = [[0; 1]] /\
    groupsOf (heap s') = [[1; 0]] /\
    InternalCloseWatcher_new (heap s') = Some (2, h'') /\
    groupsOf h'' = [[1; 0; 2]].
Proof. do 2 eexists. split; [reflexivity|]. repeat split. Qed.



(** C7. On an event that [notify] takes as a trusted activation: when
    [nextUserInteractionAllowsAnewGroup] is set, [allowedNumberOfGroups]
    goes up by exactly one; the flag is cleared in any case; and with the
    flag cleared a further such event leaves [allowedNumberOfGroups] where
    it is. (The first one also aborts the controller, so the document no
    longer calls [notify].) *)
Theorem notify_grants_one_group e h :
  qualifying e = true ->
  (nextUserInteractionAllowsAnewGroup (manager h) = true ->
   allowedNumberOfGroups (manager (notify e h)) =
     (allowedNumberOfGroups (manager h) + 1)%Z) /\
  (nextUserInteractionAllowsAnewGroup (manager h) = false ->
   allowedNumberOfGroups (manager (notify e h)) = allowedNumberOfGroups (manager h)) /\
  nextUserInteractionAllowsAnewGroup (manager (notify e h)) = false /\
  (forall e', qualifying e' = true ->
     allowedNumberOfGroups (manager (notify e' (notify e h))) =
       allowedNumberOfGroups (manager (notify e h))) /\
  (forall e', deliver e' (notify e h) = notify e h).
Proof.
  assert (Hn : forall e0 h0, qualifying e0 = true ->
    notify e0 h0 =
      set_aborted true
        (set_manager
           (set_nextUserInteractionAllowsAnewGroup false
              (if nextUserInteractionAllowsAnewGroup (manager h0)
               then set_allowedNumberOfGroups
                      (allowedNumberOfGroups (manager h0) + 1)%Z (manager h0)
               else manager h0)) h0)).
  { intros e0 h0. unfold qualifying, notify. rewrite !andb_true_iff, !negb_true_iff.
    intros [[-> ->] ->]. reflexivity. }
  intros Hq. rewrite (Hn e h Hq).
  split; [by intros ->|]. split; [by intros ->|]. split; [done|]. split; [|done].
  intros e' Hq'. rewrite (Hn e' _ Hq'). reflexivity.
Qed.

Lemma notify_grants_one_group_witness :
  qualifying keydownEnter = true /\
  allowedNumberOfGroups (manager (notify keydownEnter initialHeap)) = 2%Z /\
  allowedNumberOfGroups
    (manager (notify keydownEnter (notify keydownEnter initialHeap))) = 2%Z.
Proof.
  split; [reflexivity|].
  destruct (notify_grants_one_group keydownEnter initialHeap eq_refl)
    as (H1 & _ & _ & H2 & _).
  split.
  - exact (H1 eq_refl).
  - rewrite (H2 keydownEnter eq_refl). exact (H1 eq_refl).
Defined.

(** C9. In a well-formed heap [destroy()] is idempotent; on an inactive
    watcher it changes nothing; on an active one it removes the watcher
    from the one group that holds it and drops that group from
    [manager.groups] when it has become empty, after which the watcher is
    inactive. *)
Theorem destroy_idempotent w h :
  wf h ->
  destroy w (destroy w h) = destroy w h /\
  (isActive w h = false -> destroy w h = h) /\
  (isActive w h = true ->
   exists i g k,
     groupsOf h !! i = Some g /\ g !! k = Some w /\
     (forall j g', j <> i -> groupsOf h !! j = Some g' -> w ∉ g') /\
     groupsOf (destroy w h) =
       (if decide (delete k g = []) then delete i (groupsOf h)
        else <[i := delete k g]> (groupsOf h)) /\
     isActive w (destroy w h) = false).
Proof.
  intros Hwf. destruct (wf_destroy w h Hwf) as [Hwf' Hgone].
  split; [|split].
  - apply destroy_inactive; [apply Hwf' | exact Hgone].
  - intros Hin. apply destroy_inactive; [apply Hwf | exact Hin].
  - by apply destroy_active.
Qed.

Lemma destroy_idempotent_witness :
  wf heapTwoGroups /\
  destroy 2 (destroy 2 heapTwoGroups) = destroy 2 heapTwoGroups /\
  destroy 7 heapTwoGroups = heapTwoGroups /\
  groupsOf (destroy 2 heapTwoGroups) = [[0; 1]] /\
  groupsOf (destroy 0 heapTwoGroups) = [[1]; [2]].
Proof.
  assert (Hwf : wf heapTwoGroups) by (apply wfb_correct; reflexivity).
  destruct (destroy_idempotent 2 heapTwoGroups Hwf) as (Hidem & _ & _).
  destruct (destroy_idempotent 7 heapTwoGroups Hwf) as (_ & Hnoop & _).
  split; [exact Hwf|]. split; [exact Hidem|]. split; [exact (Hnoop eq_refl)|].
  split; reflexivity.
Defined.

(** C10. [close()] on a watcher that is inactive, or when the document has
    no view, leaves the world as it is: no callback is called and the heap
    is unchanged. On an active watcher, with a view, in a well-formed heap,
    it removes the watcher from its group (dropping the group when it has
    become empty) and then calls [closeAction] exactly once. *)
Theorem close_spec closeAction w s :
  (isActive w (heap s) = false \/ defaultView (heap s) = false ->
   close closeAction w s = s) /\
  (wf (heap s) ->
   isActive w (heap s) = true -> defaultView (heap s) = true ->
   exists i g k,
     groupsOf (heap s) !! i = Some g /\ g !! k = Some w /\
     groupsOf (destroy w (heap s)) =
       (if decide (delete k g = []) then delete i (groupsOf (heap s))
        else <[i := delete k g]> (groupsOf (heap s))) /\
     isActive w (destroy w (heap s)) = false /\
     close closeAction w s =
       mkWorld (closeAction w (destroy w (heap s)))
               (trace s ++ [CloseActionCalled w])).
Proof.
  split; [apply close_noop|].
  intros Hwf Hact Hview.
  destruct (destroy_active w (heap s) Hwf Hact)
    as (i & g & k & Hi & Hk & _ & Hg & Hgone).
  exists i, g, k. repeat split; try done. by apply close_active.
Qed.

Lemma close_spec_witness :
  wf heapAB /\
  close closeNothing 1 (mkWorld heapAB_detached []) = mkWorld heapAB_detached [] /\
  close closeNothing 1 (mkWorld heapAB []) =
    mkWorld (destroy 1 heapAB) [CloseActionCalled 1] /\
  groupsOf (destroy 1 heapAB) = [[0]].
Proof.
  assert (Hwf : wf heapAB) by (apply wfb_correct; reflexivity).
  split; [exact Hwf|]. split; [|split; [|reflexivity]].
  - apply (close_spec closeNothing 1 (mkWorld heapAB_detached [])).
    right. reflexivity.
  - destruct (close_spec closeNothing 1 (mkWorld heapAB [])) as [_ H].
    destruct (H Hwf eq_refl eq_refl) as (i & g & k & _ & _ & _ & _ & E). exact E.
Defined.

(** * Further properties *)

(** ** The registry of managers *)

(** X1. [new CloseWatcherManager(window)] is get-or-create: the manager it
    returns is the one stored for the window afterwards; a manager already
    stored is returned as it is and the registry is left alone; a second
    construction for the same window returns the same manager and changes
    nothing more; and the entries of other windows are untouched. *)
Theorem CloseWatcherManager_new_get_or_create window managers :
  snd (CloseWatcherManager_new window managers) !! window
    = Some (fst (CloseWatcherManager_new window managers)) /\
  (forall m, managers !! window = Some m ->
             CloseWatcherManager_new window managers = (m, managers)) /\
  (managers !! window = None ->
   fst (CloseWatcherManager_new window managers) = newCloseWatcherManager) /\
  CloseWatcherManager_new window (snd (CloseWatcherManager_new window managers))
    = CloseWatcherManager_new window managers /\
  (forall other, other <> window ->
     snd (CloseWatcherManager_new window managers) !! other = managers !! other).
Proof.
  unfold CloseWatcherManager_new.
  destruct (managers !! window) as [m|] eqn:E; simpl.
  - rewrite E. repeat split; try done. by intros m' [= ->].
  - rewrite lookup_insert_eq. repeat split; try done.
    intros other Hne. by rewrite lookup_insert_ne.
Qed.

Lemma CloseWatcherManager_new_get_or_create_witness :
  fst (CloseWatcherManager_new 7 ∅) = newCloseWatcherManager /\
  CloseWatcherManager_new 7 (snd (CloseWatcherManager_new 7 ∅))
    = CloseWatcherManager_new 7 ∅ /\
  CloseWatcherManager_new 7 (<[7 := mkCloseWatcherManager [0] 2 false]> ∅)
    = (mkCloseWatcherManager [0] 2 false,
       <[7 := mkCloseWatcherManager [0] 2 false]> ∅).
Proof.
  destruct (CloseWatcherManager_new_get_or_create 7 ∅) as (_ & _ & Hnew & Hidem & _).
  destruct (CloseWatcherManager_new_get_or_create 7
              (<[7 := mkCloseWatcherManager [0] 2 false]> ∅)) as (_ & Hold & _).
  split; [apply Hnew, lookup_empty|]. split; [exact Hidem|].
  apply Hold, lookup_insert_eq.
Defined.

(** ** [isSupported], [isPolyfilled], [apply] *)

Lemma apply_supported p : isSupported p = true -> apply p = p.
Proof. unfold apply. by intros ->. Qed.

Lemma isSupported_apply p : isSupported (apply p) = true.
Proof. unfold apply. by destruct (isSupported p) eqn:E. Qed.

(** X2. After [apply()] the platform is supported; [apply()] leaves a
    platform that already has a [CloseWatcher] function exactly as it is, a
    native one included; it is polyfilled afterwards exactly when it was
    polyfilled or unsupported before; and calling [apply()] any number of
    times is the same as calling it once, so the listeners are added and
    [showModal] is wrapped at most once. *)
Theorem apply_once p :
  isSupported (apply p) = true /\
  (isSupported p = true -> apply p = p) /\
  isPolyfilled (apply p) = (isPolyfilled p || negb (isSupported p)) /\
  (forall n, apply_times (S n) p = apply p) /\
  (forall n, showModalWrappers (apply_times n p) <= S (showModalWrappers p) /\
             activationListeners (apply_times n p) <= S (activationListeners p)).
Proof.
  assert (Hn : forall n q, isSupported q = true -> apply_times n q = q).
  { induction n as [|n IH]; intros q Hq; [done|]. simpl.
    rewrite apply_supported by done. by apply IH. }
  split; [apply isSupported_apply|]. split; [apply apply_supported|].
  split; [|split].
  - by destruct p as [[] ? ? ? ?].
  - intros n. simpl. apply Hn, isSupported_apply.
  - intros [|n]; simpl; [lia|]. rewrite Hn by apply isSupported_apply.
    unfold apply. destruct (negb (isSupported p)); simpl; lia.
Qed.

Lemma apply_once_witness :
  isSupported platformBare = false /\
  isPolyfilled (apply platformBare) = true /\
  apply_times 3 platformBare = apply platformBare /\
  isSupported platformNative = true /\
  apply platformNative = platformNative /\
  isPolyfilled (apply platformNative) = false.
Proof.
  destruct (apply_once platformBare) as (_ & _ & Hp & Hn & _).
  destruct (apply_once platformNative) as (_ & Hs & Hp' & _).
  split; [reflexivity|]. split; [by rewrite Hp|]. split; [exact (Hn 2)|].
  split; [reflexivity|]. split; [exact (Hs eq_refl)|]. by rewrite Hp'.
Defined.

(** ** Input events *)

Lemma notify_not_qualifying e h : qualifying e = false -> notify e h = h.
Proof.
  unfold qualifying, notify.
  destruct (isKeyboardEvent e && _); [done|].
  destruct (isPointerEvent e && _); [done|]. simpl. by intros ->.
Qed.

Lemma notify_qualifying e h :
  qualifying e = true ->
  allowedNumberOfGroups (manager (notify e h)) =
    (allowedNumberOfGroups (manager h) +
     (if nextUserInteractionAllowsAnewGroup (manager h) then 1 else 0))%Z /\
  nextUserInteractionAllowsAnewGroup (manager (notify e h)) = false /\
  aborted (notify e h) = true /\
  groupsOf (notify e h) = groupsOf h.
Proof.
  unfold qualifying, notify. rewrite !andb_true_iff, !negb_true_iff.
  intros [[-> ->] ->].
  destruct (nextUserInteractionAllowsAnewGroup (manager h)); simpl;
    repeat split; try done; lia.
Qed.

Lemma deliver_all_aborted es : forall h, aborted h = true -> deliver_all es h = h.
Proof.
  induction es as [|e es IH]; intros h Ha; [done|]. simpl.
  unfold deliver. rewrite Ha. by apply IH.
Qed.

(** X3. An event that is untrusted, or a keyboard event for the Esc key, or
    a mouse pointer event, leaves the manager as it is. Of a whole sequence
    of input events only the first other one counts, and only while the
    controller is not aborted: [allowedNumberOfGroups] goes up by one when
    there is such an event and [nextUserInteractionAllowsAnewGroup] was set,
    and not at all otherwise. *)
Theorem deliver_all_grants_at_most_one es h :
  (forall e, qualifying e = false -> notify e h = h) /\
  allowedNumberOfGroups (manager (deliver_all es h)) =
    (allowedNumberOfGroups (manager h) +
     (if negb (aborted h) && existsb qualifying es
         && nextUserInteractionAllowsAnewGroup (manager h)
      then 1 else 0))%Z /\
  nextUserInteractionAllowsAnewGroup (manager (deliver_all es h)) =
    nextUserInteractionAllowsAnewGroup (manager h)
    && negb (negb (aborted h) && existsb qualifying es) /\
  aborted (deliver_all es h) = (aborted h || existsb qualifying es) /\
  groupsOf (deliver_all es h) = groupsOf h.
Proof.
  split; [intros e; apply notify_not_qualifying|].
  revert h. induction es as [|e es IH]; intros h.
  - simpl. rewrite !andb_false_r, andb_true_r, orb_false_r. simpl.
    repeat split; try done. lia.
  - destruct (aborted h) eqn:Ha.
    { rewrite deliver_all_aborted by done. rewrite Ha. simpl.
      rewrite andb_true_r. repeat split; try done. lia. }
    simpl. unfold deliver. rewrite Ha.
    destruct (qualifying e) eqn:Hq.
    + destruct (notify_qualifying e h Hq) as (Hn1 & Hn2 & Hn3 & Hn4).
      rewrite deliver_all_aborted by done. simpl.
      rewrite Hn1, Hn2, Hn3, andb_false_r.
      destruct (nextUserInteractionAllowsAnewGroup (manager h)); repeat split; try done; lia.
    + rewrite notify_not_qualifying by done. simpl.
      destruct (IH h) as (H1 & H2 & H3 & H4). rewrite Ha in *. simpl in *.
      repeat split; done.
Qed.

Lemma deliver_all_grants_at_most_one_witness :
  qualifying syntheticEnter = false /\ qualifying keydownEsc = false /\
  qualifying pointerMouse = false /\
  notify syntheticEnter heapAB = heapAB /\
  allowedNumberOfGroups
    (manager (deliver_all [keydownEsc; syntheticEnter; keydownEnter; keydownEnter]
                heapAB)) = 2%Z /\
  allowedNumberOfGroups
    (manager (deliver_all [keydownEsc; pointerMouse; syntheticEnter] heapAB)) = 1%Z.
Proof.
  split; [reflexivity|]. split; [reflexivity|]. split; [reflexivity|].
  destruct (deliver_all_grants_at_most_one
              [keydownEsc; syntheticEnter; keydownEnter; keydownEnter] heapAB)
    as (Hid & -> & _).
  destruct (deliver_all_grants_at_most_one
              [keydownEsc; pointerMouse; syntheticEnter] heapAB)
    as (_ & -> & _).
  split; [exact (Hid syntheticEnter eq_refl)|]. split; reflexivity.
Defined.

(** ** The constructor *)

Lemma isRunningCancelAction_new h w h' x :
  InternalCloseWatcher_new h = Some (w, h') ->
  isRunningCancelAction x h' = isRunningCancelAction x h.
Proof.
  intros Hnew. apply InternalCloseWatcher_new_watchers in Hnew as [_ Hw].
  unfold isRunningCancelAction. rewrite Hw.
  destruct (Nat.lt_total x (length (watchers h))) as [Hlt|[->|Hgt]].
  - by rewrite lookup_app_l.
  - rewrite list_lookup_middle by done.
    by rewrite (lookup_ge_None_2 (watchers h)) by lia.
  - rewrite !lookup_ge_None_2; [done|lia|rewrite length_app; simpl; lia].
Qed.

Lemma isActive_new h h' :
  wf h -> InternalCloseWatcher_new h = Some (length (watchers h), h') ->
  forall w, isActive w h' = (isActive w h || Nat.eqb w (length (watchers h))).
Proof.
  intros Hwf Hnew w.
  destruct (InternalCloseWatcher_new_spec h Hwf) as (h'' & E & _ & _ & _ & _ & _ & _ & Hv).
  rewrite Hnew in E. injection E as <-.
  apply Bool.eq_true_iff_eq.
  rewrite orb_true_iff, !isActive_true, Nat.eqb_eq.
  destruct (_ <? _)%Z.
  - rewrite Hv, concat_snoc, elem_of_app, list_elem_of_singleton. done.
  - destruct Hv as (init & g & -> & ->).
    rewrite !concat_snoc, !elem_of_app, list_elem_of_singleton. tauto.
Qed.

(** X4. The constructor throws (the [else] branch finds no group to push
    onto) exactly when there is no group and [allowedNumberOfGroups] is not
    positive; in a well-formed heap it never does. *)
Theorem InternalCloseWatcher_new_throws h :
  (InternalCloseWatcher_new h = None <->
   groups (manager h) = [] /\ (allowedNumberOfGroups (manager h) <= 0)%Z) /\
  (wf h -> InternalCloseWatcher_new h <> None).
Proof.
  assert (Hiff : InternalCloseWatcher_new h = None <->
    groups (manager h) = [] /\ (allowedNumberOfGroups (manager h) <= 0)%Z).
  { unfold InternalCloseWatcher_new. cbn [manager set_watchers].
    destruct (Z.ltb_spec (Z.of_nat (length (groups (manager h))))
                (allowedNumberOfGroups (manager h))) as [Hlt|Hge].
    - split; [done|]. intros [Hg Hal]. rewrite Hg in Hlt. simpl in Hlt. lia.
    - destruct (last (groups (manager h))) as [r|] eqn:Hlast.
      + split; [done|]. intros [Hg _]. by rewrite Hg in Hlast.
      + apply last_None in Hlast. rewrite Hlast in *. simpl in Hge. done. }
  split; [exact Hiff|].
  intros Hwf Hnone. apply Hiff in Hnone as [_ Hal].
  pose proof (wf_allowed h Hwf). lia.
Qed.

Lemma InternalCloseWatcher_new_throws_witness :
  InternalCloseWatcher_new heapNoBudget = None /\
  wf heapTwoGroups /\ InternalCloseWatcher_new heapTwoGroups <> None.
Proof.
  assert (Hwf : wf heapTwoGroups) by (apply wfb_correct; reflexivity).
  split; [|split; [exact Hwf|]].
  - apply (proj1 (InternalCloseWatcher_new_throws heapNoBudget)). split; [reflexivity|].
    simpl. lia.
  - exact (proj2 (InternalCloseWatcher_new_throws heapTwoGroups) Hwf).
Defined.

(** X5. In a well-formed heap the constructor returns a watcher that was
    not active and now is, with its guard not set; it changes neither the
    activity nor the guard of any other watcher, and the heap stays
    well-formed. *)
Theorem InternalCloseWatcher_new_activates h :
  wf h ->
  exists h',
    InternalCloseWatcher_new h = Some (length (watchers h), h') /\
    isActive (length (watchers h)) h = false /\
    isActive (length (watchers h)) h' = true /\
    isRunningCancelAction (length (watchers h)) h' = false /\
    (forall w, w <> length (watchers h) ->
       isActive w h' = isActive w h /\
       isRunningCancelAction w h' = isRunningCancelAction w h) /\
    wf h'.
Proof.
  intros Hwf.
  destruct (InternalCloseWatcher_new_spec h Hwf) as (h' & Hnew & Hwf' & _).
  pose proof (isActive_new h h' Hwf Hnew) as Hact.
  assert (Hfresh : isActive (length (watchers h)) h = false).
  { apply isActive_false. intros Hin. apply (wf_allocated h Hwf) in Hin. lia. }
  exists h'. split; [done|]. split; [done|]. split; [|split; [|split; [|done]]].
  - by rewrite Hact, Nat.eqb_refl, orb_true_r.
  - rewrite (isRunningCancelAction_new h _ h' _ Hnew).
    unfold isRunningCancelAction. by rewrite lookup_ge_None_2.
  - intros w Hne. split; [|exact (isRunningCancelAction_new h _ h' w Hnew)].
    rewrite Hact. apply Nat.eqb_neq in Hne. by rewrite Hne, orb_false_r.
Qed.

Lemma InternalCloseWatcher_new_activates_witness :
  wf heapTwoGroups /\
  exists h', InternalCloseWatcher_new heapTwoGroups = Some (3, h') /\
             isActive 3 h' = true /\ isActive 1 h' = true /\
             isRunningCancelAction 1 h' = true.
Proof.
  assert (Hwf : wf heapTwoGroups) by (apply wfb_correct; reflexivity).
  split; [exact Hwf|].
  destruct (InternalCloseWatcher_new_activates heapTwoGroups Hwf)
    as (h' & Hnew & _ & Hact & _ & Hothers & _).
  exists h'. split; [exact Hnew|]. split; [exact Hact|].
  destruct (Hothers 1 ltac:(simpl; lia)) as [-> ->]. split; reflexivity.
Defined.

(** ** What a dispatch returns and whom it asks first *)

Lemma rev_lookup_0 {A} (l : list A) : rev l !! 0 = last l.
Proof.
  destruct (last l) as [x|] eqn:E.
  - apply last_Some in E as [l' ->]. by rewrite rev_unit.
  - apply last_None in E. by subst.
Qed.

Lemma last_group h init g :
  groupsOf h = init ++ [g] ->
  exists refs r, groups (manager h) = refs ++ [r] /\ arr h r = g /\
                 init = arr h <$> refs.
Proof.
  intros Hv.
  assert (Hlast : last (groupsOf h) = Some g) by (rewrite Hv; apply last_snoc).
  unfold groupsOf in Hlast. rewrite fmap_last in Hlast.
  destruct (last (groups (manager h))) as [r|] eqn:E; [|done].
  injection Hlast as Hr. apply last_Some in E as [refs Hrefs].
  exists refs, r. split; [done|]. split; [done|].
  unfold groupsOf in Hv. rewrite Hrefs, fmap_snoc in Hv.
  by apply app_inj_tail in Hv as [<- _].
Qed.

Lemma arr_reverse_in_place h r :
  r < length (arrays h) -> arr (reverse_in_place r h) r = rev (arr h r).
Proof. intros H. unfold reverse_in_place. by apply arr_set_arr_eq. Qed.

Lemma forOf_processed cancelAction closeAction : forall fuel group i s b s',
  forOf cancelAction closeAction fuel group i true s = Some (b, s') -> b = true.
Proof.
  induction fuel as [|fuel IH]; intros group i s b s'; [done|].
  rewrite forOf_S. destruct (arr (heap s) group !! i); [apply IH|].
  by intros [= <- _].
Qed.




Lemma processCloseWatchers_returns cancelAction closeAction fuel s b s' :
  wf (heap s) ->
  processCloseWatchers cancelAction closeAction fuel s = Some (b, s') ->
  (groupsOf (heap s) <> [] -> b = true) /\
  (groupsOf (heap s) = [] ->
   b = false /\ trace s' = trace s /\ groupsOf (heap s') = [] /\
   watchers (heap s') = watchers (heap s)).
Proof.
  intros Hwf. unfold processCloseWatchers.
  destruct (groups (manager (heap s))) as [|r0 refs0] eqn:Hg.
  - cbn [length Nat.ltb Nat.leb]. intros [= <- <-].
    split; [unfold groupsOf; by rewrite Hg|]. intros _.
    destruct (1 <? _)%Z; unfold groupsOf; cbn; by rewrite Hg.
  - cbn [length Nat.ltb Nat.leb].
    destruct (last (r0 :: refs0)) as [r|] eqn:Hlast.
    2:{ by apply last_None in Hlast. }
    destruct (forOf _ _ fuel r 0 false _) as [[p s1]|] eqn:Hloop; [|done].
    intros [= <- <-]. split; [intros _|unfold groupsOf; by rewrite Hg].
    assert (Hr : r ∈ groups (manager (heap s))).
    { rewrite Hg. by apply last_Some_elem_of. }
    pose proof (wf_nonempty _ Hwf r Hr) as Hne.
    destruct fuel as [|fuel]; [done|]. rewrite forOf_S in Hloop. cbn [heap set_heap] in Hloop.
    rewrite arr_reverse_in_place in Hloop by (by apply arr_nonempty_valid).
    rewrite rev_lookup_0 in Hloop.
    destruct (last (arr (heap s) r)) as [w|] eqn:E; [|by apply last_None in E].
    by apply forOf_processed in Hloop.
Qed.





(** ** [destroy] as a filter *)

Lemma filter_ne_id (w : nat) (g : list nat) :
  w ∉ g -> filter (fun x => x <> w) g = g.
Proof.
  induction g as [|x g IH]; intros Hw; [done|].
  apply not_elem_of_cons in Hw as [Hne Hw].
  rewrite filter_cons_True by congruence. by rewrite IH.
Qed.

Lemma filter_ne_delete (w : nat) (g : list nat) k :
  NoDup g -> g !! k = Some w -> filter (fun x => x <> w) g = delete k g.
Proof.
  revert k. induction g as [|x g IH]; intros k Hnd Hk; [done|].
  apply NoDup_cons in Hnd as [Hx Hnd]. destruct k as [|k]; simpl in *.
  - injection Hk as ->. rewrite filter_cons_False by (intros H; by apply H).
    by apply filter_ne_id.
  - assert (x <> w).
    { intros ->. apply Hx. eapply list_elem_of_lookup_2; eauto. }
    rewrite filter_cons_True by done. f_equal. by apply IH.
Qed.

Lemma filter_ne_comm (a b : nat) (g : list nat) :
  filter (fun x => x <> a) (filter (fun x => x <> b) g)
  = filter (fun x => x <> b) (filter (fun x => x <> a) g).
Proof.
  induction g as [|x g IH]; [done|].
  destruct (decide (x = a)) as [Ea|Ha], (decide (x = b)) as [Eb|Hb]; subst.
  - by rewrite !filter_cons_False by (intros H; by apply H).
  - rewrite (filter_cons_True (fun x => x <> b)) by done.
    rewrite !(filter_cons_False (fun x => x <> a)) by (intros H; by apply H).
    done.
  - rewrite (filter_cons_True (fun x => x <> a)) by done.
    rewrite !(filter_cons_False (fun x => x <> b)) by (intros H; by apply H).
    done.
  - rewrite !filter_cons_True by done. by rewrite IH.
Qed.

Lemma without_nil w : without w [] = [].
Proof. reflexivity. Qed.

Lemma without_cons w g gs :
  without w (g :: gs) =
    if decide (filter (fun x => x <> w) g = []) then without w gs
    else filter (fun x => x <> w) g :: without w gs.
Proof.
  unfold without. rewrite fmap_cons. destruct (decide _) as [E|E].
  - by rewrite filter_cons_False by (intros H; by apply H).
  - by rewrite filter_cons_True by done.
Qed.

Lemma without_id w gs :
  (forall g, g ∈ gs -> (w ∉ g) /\ g <> []) -> without w gs = gs.
Proof.
  induction gs as [|g gs IH]; intros H; [done|].
  destruct (H g ltac:(by left)) as [Hw Hne].
  rewrite without_cons, filter_ne_id by done. rewrite decide_False by done.
  f_equal. apply IH. intros g' Hg'. apply H. by right.
Qed.

Lemma without_at w : forall gs i g k,
  NoDup (concat gs) -> (forall g', g' ∈ gs -> g' <> []) ->
  gs !! i = Some g -> g !! k = Some w ->
  without w gs =
    if decide (delete k g = []) then delete i gs else <[i := delete k g]> gs.
Proof.
  induction gs as [|a gs IH]; intros i g k Hnd Hne Hi Hk; [done|].
  assert (Hw : w ∈ g) by (eapply list_elem_of_lookup_2; eauto).
  destruct i as [|i]; simpl in Hi.
  - injection Hi as ->.
    assert (Hg : NoDup g) by (by apply (NoDup_concat_group (g :: gs) 0 g)).
    assert (Hrest : without w gs = gs).
    { apply without_id. intros g' Hg'. split; [|apply Hne; by right].
      apply list_elem_of_lookup in Hg' as [j Hj].
      by apply (NoDup_concat_disjoint (g :: gs) 0 (S j) g g' w). }
    rewrite without_cons, (filter_ne_delete w g k) by done. rewrite Hrest.
    by destruct (decide (delete k g = [])).
  - assert (Ha : w ∉ a).
    { by apply (NoDup_concat_disjoint (a :: gs) (S i) 0 g a w). }
    rewrite without_cons, filter_ne_id by done.
    rewrite decide_False by (apply Hne; by left).
    simpl in Hnd. apply NoDup_app in Hnd as (_ & _ & Hnd).
    rewrite (IH i g k Hnd) by (done || intros g' Hg'; apply Hne; by right).
    by destruct (decide (delete k g = [])).
Qed.

Lemma elem_of_concat_without x w gs :
  x ∈ concat (without w gs) <-> x ∈ concat gs /\ x <> w.
Proof.
  rewrite !elem_of_concat. unfold without. split.
  - intros (g & Hg & Hx).
    apply list_elem_of_filter in Hg as [_ Hg].
    apply list_elem_of_fmap in Hg as (g0 & -> & Hg0).
    apply list_elem_of_filter in Hx as [Hne Hx]. split; [eauto|done].
  - intros [(g & Hg & Hx) Hne].
    exists (filter (fun y => y <> w) g).
    assert (Hin : x ∈ filter (fun y => y <> w) g) by (by apply list_elem_of_filter).
    split; [|done]. apply list_elem_of_filter. split.
    + intros E. rewrite E in Hin. inversion Hin.
    + apply list_elem_of_fmap. eauto.
Qed.

Lemma groupsOf_destroy w h :
  wf h -> groupsOf (destroy w h) = without w (groupsOf h).
Proof.
  intros Hwf. destruct (isActive w h) eqn:Hact.
  - destruct (destroy_active w h Hwf Hact) as (i & g & k & Hi & Hk & _ & -> & _).
    symmetry. apply without_at; try done; [apply Hwf|].
    intros g' Hg'. unfold groupsOf in Hg'.
    apply list_elem_of_fmap in Hg' as (r & -> & Hr). by apply Hwf.
  - rewrite destroy_inactive; [|apply Hwf|done]. symmetry. apply without_id.
    intros g Hg. split.
    + intros Hw. apply isActive_false in Hact. apply Hact, elem_of_concat. eauto.
    + unfold groupsOf in Hg. apply list_elem_of_fmap in Hg as (r & -> & Hr).
      by apply Hwf.
Qed.

Lemma isActive_destroy w h x :
  wf h -> isActive x (destroy w h) = isActive x h && negb (Nat.eqb x w).
Proof.
  intros Hwf. apply Bool.eq_true_iff_eq.
  rewrite andb_true_iff, negb_true_iff, Nat.eqb_neq, !isActive_true.
  rewrite groupsOf_destroy by done. apply elem_of_concat_without.
Qed.

Lemma without_skip_empty w : forall gs,
  without w (filter (fun g => g <> []) gs) = without w gs.
Proof.
  induction gs as [|g gs IH]; [done|].
  destruct (decide (g = [])) as [->|Hne].
  - rewrite filter_cons_False by (intros H; by apply H).
    rewrite without_cons. by rewrite decide_True by done.
  - rewrite filter_cons_True by done. by rewrite !without_cons, IH.
Qed.

Lemma without_comm a b gs : without a (without b gs) = without b (without a gs).
Proof.
  unfold without at 2 4. rewrite !without_skip_empty.
  induction gs as [|g gs IH]; [done|].
  rewrite !fmap_cons, !without_cons, filter_ne_comm, IH. done.
Qed.

(** X8. In a well-formed heap [destroy()] takes out exactly that watcher:
    the groups are the old ones without it, in their old order, with the
    group it emptied dropped; every other watcher is active afterwards
    exactly when it was before; guards, budget and flag are untouched; and
    the heap stays well-formed. *)
Theorem destroy_removes_only_that_watcher w h :
  wf h ->
  groupsOf (destroy w h) = without w (groupsOf h) /\
  (forall x, isActive x (destroy w h) = isActive x h && negb (Nat.eqb x w)) /\
  watchers (destroy w h) = watchers h /\
  allowedNumberOfGroups (manager (destroy w h)) = allowedNumberOfGroups (manager h) /\
  nextUserInteractionAllowsAnewGroup (manager (destroy w h))
    = nextUserInteractionAllowsAnewGroup (manager h) /\
  wf (destroy w h).
Proof.
  intros Hwf. destruct (destroy_shrinks w h) as (Hw & _ & _ & Hal & Hfl & _).
  split; [by apply groupsOf_destroy|].
  split; [intros x; by apply isActive_destroy|].
  repeat split; try done; by apply wf_destroy.
Qed.

Lemma destroy_removes_only_that_watcher_witness :
  wf heapTwoGroups /\
  groupsOf (destroy 2 heapTwoGroups) = [[0; 1]] /\
  isActive 1 (destroy 2 heapTwoGroups) = true /\
  isActive 2 (destroy 2 heapTwoGroups) = false.
Proof.
  assert (Hwf : wf heapTwoGroups) by (apply wfb_correct; reflexivity).
  destruct (destroy_removes_only_that_watcher 2 heapTwoGroups Hwf) as (Hv & Hact & _).
  split; [exact Hwf|]. split; [rewrite Hv; reflexivity|].
  split; rewrite Hact; reflexivity.
Defined.

(** X9. In a well-formed heap the order of two [destroy()] calls does not
    matter for the groups they leave. *)
Theorem destroy_commutes w1 w2 h :
  wf h ->
  groupsOf (destroy w1 (destroy w2 h)) = groupsOf (destroy w2 (destroy w1 h)).
Proof.
  intros Hwf.
  rewrite !groupsOf_destroy by (done || by apply wf_destroy).
  apply without_comm.
Qed.

Lemma destroy_commutes_witness :
  wf heapTwoGroups /\
  groupsOf (destroy 0 (destroy 2 heapTwoGroups)) = [[1]] /\
  groupsOf (destroy 2 (destroy 0 heapTwoGroups)) = [[1]].
Proof.
  assert (Hwf : wf heapTwoGroups) by (apply wfb_correct; reflexivity).
  split; [exact Hwf|]. split.
  - rewrite (destroy_commutes 0 2 heapTwoGroups Hwf). reflexivity.
  - reflexivity.
Defined.

(** ** Invariants of the reachable worlds *)

Lemma isActive_reverse_in_place h i r w :
  wf h -> groups (manager h) !! i = Some r ->
  isActive w (reverse_in_place r h) = isActive w h.
Proof.
  intros Hwf Hi.
  assert (Hr : r ∈ groups (manager h)) by (eapply list_elem_of_lookup_2; eauto).
  assert (Hval : r < length (arrays h)) by (apply arr_nonempty_valid; by apply Hwf).
  assert (Hgi : groupsOf h !! i = Some (arr h r)) by (by rewrite groupsOf_lookup, Hi).
  apply Bool.eq_true_iff_eq. rewrite !isActive_true. unfold reverse_in_place.
  rewrite (groupsOf_set_arr h i r) by (done || apply Hwf).
  rewrite (concat_insert_Permutation _ _ _ _ Hgi); [done|].
  symmetry. apply Permutation_rev.
Qed.

Lemma InternalCloseWatcher_new_manager h w h' :
  InternalCloseWatcher_new h = Some (w, h') ->
  allowedNumberOfGroups (manager h') = allowedNumberOfGroups (manager h) /\
  nextUserInteractionAllowsAnewGroup (manager h')
    = nextUserInteractionAllowsAnewGroup (manager h) /\
  (length (groups (manager h')) = length (groups (manager h)) \/
   (Z.of_nat (length (groups (manager h'))) <= allowedNumberOfGroups (manager h))%Z).
Proof.
  unfold InternalCloseWatcher_new. cbn [manager set_watchers].
  destruct (Z.ltb_spec (Z.of_nat (length (groups (manager h))))
              (allowedNumberOfGroups (manager h))) as [Hlt|Hge].
  - intros [= _ <-]. simpl. repeat split. right. rewrite length_app. simpl. lia.
  - destruct (last (groups (manager h))); [|done].
    intros [= _ <-]. simpl. repeat split. by left.
Qed.

Section Lifetime.

Variable cancelAction : Watcher -> Heap -> bool * Heap.
Variable closeAction : Watcher -> Heap -> Heap.
Hypothesis Hquiet : quiet cancelAction closeAction.

Lemma requestClose_inactive_stays w x s :
  wf (heap s) -> isActive x (heap s) = false ->
  isActive x (heap (snd (requestClose cancelAction closeAction w s))) = false.
Proof.
  intros Hwf Hx. rewrite (requestClose_quiet _ _ Hquiet). cbn [snd].
  destruct (isActive w (heap s) && negb (isRunningCancelAction w (heap s)));
    [|done].
  cbv zeta. destruct (fst (cancelAction w _) || negb (defaultView (heap s)));
    cbn [heap]; [done|].
  rewrite isActive_destroy by (by apply wf_set_isRunningCancelAction).
  change (isActive x (set_isRunningCancelAction w true (heap s)))
    with (isActive x (heap s)). by rewrite Hx.
Qed.

Lemma processCloseWatchers_inactive_stays fuel s b s' x :
  wf (heap s) -> isActive x (heap s) = false ->
  processCloseWatchers cancelAction closeAction fuel s = Some (b, s') ->
  isActive x (heap s') = false.
Proof.
  intros Hwf Hx Hd.
  apply processCloseWatchers_parts in Hd as (s0 & s1 & H0 & Hloop & ->).
  assert (H1 : wf (heap s1) /\ isActive x (heap s1) = false).
  { apply (Hloop (fun y => wf (heap y) /\ isActive x (heap y) = false)).
    - intros w y [Hwy Hxy]. split; [by apply requestClose_wf|].
      by apply requestClose_inactive_stays.
    - destruct H0 as [->|(r & Hlast & ->)]; [done|].
      apply last_Some in Hlast as [init Hinit].
      assert (Hi : groups (manager (heap s)) !! length init = Some r).
      { rewrite Hinit. by apply list_lookup_middle. }
      split; cbn [heap set_heap].
      + by apply (wf_reverse_in_place _ (length init)).
      + by rewrite (isActive_reverse_in_place _ (length init)). }
  destruct (1 <? _)%Z; apply H1.
Qed.

Lemma step_inactive_stays s s' x :
  step cancelAction closeAction s s' ->
  wf (heap s) -> x < length (watchers (heap s)) ->
  isActive x (heap s) = false -> isActive x (heap s') = false.
Proof.
  intros Hstep Hwf Hlt Hx.
  destruct Hstep as [s w h' Hnew|s w|s w|s w|s fuel b s' Hd|s e|s b]; cbn [heap set_heap].
  - pose proof (InternalCloseWatcher_new_watchers _ _ _ Hnew) as [-> _].
    rewrite (isActive_new _ _ Hwf Hnew), Hx.
    apply Nat.eqb_neq. lia.
  - rewrite isActive_destroy by done. by rewrite Hx.
  - rewrite (close_quiet _ _ Hquiet).
    destruct (isActive w (heap s) && defaultView (heap s)); [|done].
    cbn [heap]. rewrite isActive_destroy by done. by rewrite Hx.
  - by apply requestClose_inactive_stays.
  - eapply processCloseWatchers_inactive_stays; eauto.
  - destruct (deliver_frame e (heap s)) as (Hg & Ha & _).
    unfold isActive, arr in *. by rewrite Hg, Ha.
  - done.
Qed.

(** Worlds with the same trace in which nothing became active and no
    watcher was forgotten. *)
Lemma closedOnce_frame s s' t :
  closedOnce s -> trace s' = trace s ++ t ->
  (forall x, closeCalls x t = 0) ->
  (forall x, isActive x (heap s) = false -> isActive x (heap s') = false) ->
  length (watchers (heap s)) <= length (watchers (heap s')) ->
  closedOnce s'.
Proof.
  intros HK Ht Hzero Hact Hlen x. rewrite Ht, closeCalls_app, Hzero, Nat.add_0_r.
  destruct (HK x) as [H1 H2].
  split; [done|]. intros Hx. destruct (H2 Hx). split; [auto|lia].
Qed.

(** A [closeAction] call for an active watcher after its [destroy]. *)
Lemma closedOnce_close w s t :
  wf (heap s) -> closedOnce s -> isActive w (heap s) = true ->
  closeCalls w t = 0 -> (forall x, closeCalls x t = 0) ->
  closedOnce (mkWorld (destroy w (heap s))
                      (trace s ++ t ++ [CloseActionCalled w])).
Proof.
  intros Hwf HK Hact _ Ht x. cbn [heap trace].
  rewrite !closeCalls_app, Ht, closeCalls_one, Nat.add_0_l.
  rewrite isActive_destroy, destroy_watchers by done.
  destruct (HK x) as [H1 H2].
  destruct (decide (CloseActionCalled w = CloseActionCalled x)) as [[= ->]|Hne].
  - assert (Hzero : closeCalls x (trace s) = 0).
    { destruct (closeCalls x (trace s)); [done|].
      destruct H2 as [H2 _]; [lia|]. congruence. }
    rewrite Hzero, Nat.eqb_refl, andb_false_r. split; [lia|]. intros _.
    split; [done|]. apply (wf_allocated _ Hwf). by apply isActive_true.
  - rewrite Nat.add_0_r. split; [done|]. intros Hx. destruct (H2 Hx) as [-> ?].
    done.
Qed.

Lemma requestClose_closedOnce w s :
  wf (heap s) -> closedOnce s ->
  closedOnce (snd (requestClose cancelAction closeAction w s)).
Proof.
  intros Hwf HK. rewrite (requestClose_quiet _ _ Hquiet). cbn [snd].
  assert (Hlen : length (watchers (heap s))
                 <= length (watchers (set_isRunningCancelAction w true (heap s)))).
  { unfold set_isRunningCancelAction; simpl. by rewrite length_insert. }
  assert (Hnone : forall x,
            closeCalls x [RequestCloseCalled w; CancelActionCalled w] = 0).
  { intros x. by rewrite !closeCalls_cons, !decide_False. }
  assert (Hnone1 : forall x, closeCalls x [RequestCloseCalled w] = 0).
  { intros x. by rewrite closeCalls_one, decide_False. }
  destruct (isActive w (heap s)) eqn:Ha; cbn [andb];
    [|by apply (closedOnce_frame s _ [RequestCloseCalled w])].
  destruct (negb (isRunningCancelAction w (heap s)));
    [|by apply (closedOnce_frame s _ [RequestCloseCalled w])].
  cbv zeta. destruct (fst (cancelAction w _) || negb (defaultView (heap s))).
  - by apply (closedOnce_frame s _ [RequestCloseCalled w; CancelActionCalled w]).
  - rewrite <- app_assoc.
    apply (closedOnce_close w
             (mkWorld (set_isRunningCancelAction w true (heap s)) (trace s)));
      [by apply wf_set_isRunningCancelAction| |done|done|done].
    apply (closedOnce_frame s _ []); [done| |done|done|done].
    cbn [trace]. by rewrite app_nil_r.
Qed.

Lemma step_closedOnce s s' :
  step cancelAction closeAction s s' ->
  wf (heap s) -> closedOnce s -> closedOnce s'.
Proof.
  intros Hstep Hwf HK.
  destruct Hstep as [s w h' Hnew|s w|s w|s w|s fuel b s' Hd|s e|s b].
  - pose proof (InternalCloseWatcher_new_watchers _ _ _ Hnew) as [-> Hw].
    intros x. cbn [heap trace set_heap]. destruct (HK x) as [H1 H2].
    split; [done|]. intros Hx. destruct (H2 Hx) as [Hin Hlt].
    rewrite (isActive_new _ _ Hwf Hnew), Hin, Hw, length_app. simpl.
    split; [apply Nat.eqb_neq|]; lia.
  - apply (closedOnce_frame s _ []); try done; cbn [heap set_heap trace].
    + by rewrite app_nil_r.
    + intros x Hx. rewrite isActive_destroy by done. by rewrite Hx.
    + by rewrite destroy_watchers.
  - rewrite (close_quiet _ _ Hquiet).
    destruct (isActive w (heap s) && defaultView (heap s)) eqn:E; [|done].
    apply andb_true_iff in E as [Ha _].
    apply (closedOnce_close w s []); done.
  - by apply requestClose_closedOnce.
  - apply processCloseWatchers_parts in Hd as (s0 & s1 & H0 & Hloop & ->).
    assert (H1 : wf (heap s1) /\ closedOnce s1).
    { apply (Hloop (fun y => wf (heap y) /\ closedOnce y)).
      - intros w y [Hwy HKy]. split; [by apply requestClose_wf|].
        by apply requestClose_closedOnce.
      - destruct H0 as [->|(r & Hlast & ->)]; [done|].
        apply last_Some in Hlast as [init Hinit].
        assert (Hi : groups (manager (heap s)) !! length init = Some r).
        { rewrite Hinit. by apply list_lookup_middle. }
        split; [by apply (wf_reverse_in_place _ (length init))|].
        apply (closedOnce_frame s _ []); try done; cbn [heap set_heap trace].
        + by rewrite app_nil_r.
        + intros x Hx. by rewrite (isActive_reverse_in_place _ (length init)). }
    destruct (1 <? _)%Z; [|apply H1].
    apply (closedOnce_frame s1 _ []); try done; [apply H1|].
    cbn [trace set_heap]. by rewrite app_nil_r.
  - destruct (deliver_frame e (heap s)) as (Hg & Ha & Hw & _).
    apply (closedOnce_frame s _ []); try done; cbn [heap set_heap trace].
    + by rewrite app_nil_r.
    + intros x. unfold isActive, arr. by rewrite Hg, Ha.
    + by rewrite Hw.
  - apply (closedOnce_frame s _ []); try done.
    cbn [trace set_heap]. by rewrite app_nil_r.
Qed.

Lemma reachable_closedOnce s :
  reachable cancelAction closeAction s -> closedOnce s.
Proof.
  induction 1 as [|s s' Hr IH Hstep].
  - intros w. unfold closeCalls. simpl. split; lia.
  - eapply step_closedOnce; eauto. by apply (reachable_wf cancelAction closeAction).
Qed.

Lemma requestClose_smallBudget_frame w s :
  allowedNumberOfGroups
    (manager (heap (snd (requestClose cancelAction closeAction w s))))
    = allowedNumberOfGroups (manager (heap s)) /\
  nextUserInteractionAllowsAnewGroup
    (manager (heap (snd (requestClose cancelAction closeAction w s))))
    = nextUserInteractionAllowsAnewGroup (manager (heap s)) /\
  length (groups (manager (heap (snd (requestClose cancelAction closeAction w s)))))
    <= length (groups (manager (heap s))).
Proof.
  by destruct (requestClose_settles _ _ Hquiet w s) as (_&_&?&?&_&_&?&_).
Qed.

Lemma step_smallBudget s s' :
  step cancelAction closeAction s s' ->
  smallBudget (heap s) ->
  smallBudget (heap s') /\
  (nextUserInteractionAllowsAnewGroup (manager (heap s)) = false ->
   nextUserInteractionAllowsAnewGroup (manager (heap s')) = false).
Proof.
  intros Hstep (Hal & Hfl & Hlen). unfold smallBudget.
  destruct Hstep as [s w h' Hnew|s w|s w|s w|s fuel b s' Hd|s e|s b]; cbn [heap set_heap].
  - destruct (InternalCloseWatcher_new_manager _ _ _ Hnew) as (-> & -> & Hg).
    repeat split; try done; lia.
  - destruct (destroy_shrinks w (heap s)) as (_&_&_&->&->&?&_).
    repeat split; try done; lia.
  - rewrite (close_quiet _ _ Hquiet).
    destruct (isActive w (heap s) && defaultView (heap s)); [|done].
    cbn [heap]. destruct (destroy_shrinks w (heap s)) as (_&_&_&->&->&?&_).
    repeat split; try done; lia.
  - destruct (requestClose_smallBudget_frame w s) as (-> & -> & ?).
    repeat split; try done; lia.
  - apply processCloseWatchers_parts in Hd as (s0 & s1 & H0 & Hloop & ->).
    assert (H1 : allowedNumberOfGroups (manager (heap s1))
                   = allowedNumberOfGroups (manager (heap s)) /\
                 nextUserInteractionAllowsAnewGroup (manager (heap s1))
                   = nextUserInteractionAllowsAnewGroup (manager (heap s)) /\
                 length (groups (manager (heap s1)))
                   <= length (groups (manager (heap s)))).
    { apply (Hloop (fun y =>
        allowedNumberOfGroups (manager (heap y))
          = allowedNumberOfGroups (manager (heap s)) /\
        nextUserInteractionAllowsAnewGroup (manager (heap y))
          = nextUserInteractionAllowsAnewGroup (manager (heap s)) /\
        length (groups (manager (heap y)))
          <= length (groups (manager (heap s))))).
      - intros w y (Ha & Hf & Hg).
        destruct (requestClose_smallBudget_frame w y) as (-> & -> & ?).
        repeat split; try done; lia.
      - by destruct H0 as [->|(r & _ & ->)]. }
    destruct H1 as (Ea & Ef & Hg).
    destruct (Z.ltb_spec 1 (allowedNumberOfGroups (manager (heap s1))));
      cbn [heap set_heap manager set_manager allowedNumberOfGroups
           set_allowedNumberOfGroups nextUserInteractionAllowsAnewGroup groups];
      rewrite ?Ef; rewrite Ea in *;
      (split; [split; [lia|split; [|lia]]|done]);
      intros Hflag; specialize (Hfl Hflag); lia.
  - unfold deliver. destruct (aborted (heap s)); [done|].
    destruct (qualifying e) eqn:Hq; [|by rewrite notify_not_qualifying].
    destruct (notify_qualifying e (heap s) Hq) as (Ea & Ef & _).
    destruct (notify_frame e (heap s)) as (Hg & _).
    rewrite Ea, Ef, Hg.
    destruct (nextUserInteractionAllowsAnewGroup (manager (heap s))) eqn:F.
    + specialize (Hfl eq_refl). repeat split; try done; lia.
    + repeat split; try done; lia.
  - done.
Qed.

Lemma reachable_smallBudget s :
  reachable cancelAction closeAction s -> smallBudget (heap s).
Proof.
  induction 1 as [|s s' _ IH Hstep].
  - unfold smallBudget. simpl. repeat split; lia.
  - by apply (step_smallBudget s s').
Qed.

End Lifetime.

Lemma worldA_reachable cancelAction closeAction :
  reachable cancelAction closeAction worldA.
Proof.
  apply (reachable_step _ _ initialWorld); [constructor|].
  apply (step_new _ _ initialWorld 0). reflexivity.
Qed.

(** X10. With callbacks that only decide, every reachable world has a
    well-formed heap: no group is empty, no watcher sits in two groups or
    twice in one, every watcher in a group has been constructed, and the
    budget is at least one. The in-place reversal of a dispatch does not
    break this. *)
Theorem reachable_wellformed cancelAction closeAction s :
  quiet cancelAction closeAction ->
  reachable cancelAction closeAction s ->
  wf (heap s) /\
  (forall g, g ∈ groupsOf (heap s) -> g <> []) /\
  (forall i j g g' w, groupsOf (heap s) !! i = Some g ->
                      groupsOf (heap s) !! j = Some g' ->
                      w ∈ g -> w ∈ g' -> i = j).
Proof.
  intros Hquiet Hreach.
  pose proof (reachable_wf cancelAction closeAction Hquiet s Hreach) as Hwf.
  split; [done|]. split.
  - intros g Hg. unfold groupsOf in Hg.
    apply list_elem_of_fmap in Hg as (r & -> & Hr). by apply Hwf.
  - intros i j g g' w Hi Hj Hw Hw'. destruct (decide (i = j)) as [|Hne]; [done|].
    exfalso. by apply (NoDup_concat_disjoint (groupsOf (heap s)) i j g g' w (wf_members _ Hwf)).
Qed.

Lemma reachable_wellformed_witness :
  quiet cancelTrue closeNothing /\
  reachable cancelTrue closeNothing
    (snd (requestClose cancelTrue closeNothing 0 worldA)) /\
  wf (heap (snd (requestClose cancelTrue closeNothing 0 worldA))).
Proof.
  assert (Hq : quiet cancelTrue closeNothing) by (split; reflexivity).
  assert (Hr : reachable cancelTrue closeNothing
                 (snd (requestClose cancelTrue closeNothing 0 worldA))).
  { apply (reachable_step _ _ worldA); [apply worldA_reachable|apply step_requestClose]. }
  split; [exact Hq|]. split; [exact Hr|].
  exact (proj1 (reachable_wellformed cancelTrue closeNothing _ Hq Hr)).
Defined.

(** X11. With callbacks that only decide, in every reachable world
    [allowedNumberOfGroups] is 1 or 2, it is 1 as long as
    [nextUserInteractionAllowsAnewGroup] is set, and there are at most two
    groups; and no operation sets the flag again once it is cleared. *)
Theorem reachable_budget_at_most_two cancelAction closeAction :
  quiet cancelAction closeAction ->
  (forall s, reachable cancelAction closeAction s ->
     (1 <= allowedNumberOfGroups (manager (heap s)) <= 2)%Z /\
     (nextUserInteractionAllowsAnewGroup (manager (heap s)) = true ->
      allowedNumberOfGroups (manager (heap s)) = 1%Z) /\
     length (groupsOf (heap s)) <= 2) /\
  (forall s s', reachable cancelAction closeAction s ->
     step cancelAction closeAction s s' ->
     nextUserInteractionAllowsAnewGroup (manager (heap s)) = false ->
     nextUserInteractionAllowsAnewGroup (manager (heap s')) = false).
Proof.
  intros Hquiet. split.
  - intros s Hreach.
    destruct (reachable_smallBudget cancelAction closeAction Hquiet s Hreach)
      as (H1 & H2 & H3).
    rewrite groupsOf_length. done.
  - intros s s' Hreach Hstep.
    apply (step_smallBudget cancelAction closeAction Hquiet s s' Hstep).
    by apply (reachable_smallBudget cancelAction closeAction).
Qed.

Lemma reachable_budget_at_most_two_witness :
  quiet cancelTrue closeNothing /\
  reachable cancelTrue closeNothing
    (set_heap (deliver keydownEnter (heap worldA)) worldA) /\
  allowedNumberOfGroups
    (manager (heap (set_heap (deliver keydownEnter (heap worldA)) worldA))) = 2%Z /\
  (allowedNumberOfGroups
     (manager (heap (set_heap (deliver keydownEnter (heap worldA)) worldA))) <= 2)%Z.
Proof.
  assert (Hq : quiet cancelTrue closeNothing) by (split; reflexivity).
  assert (Hr : reachable cancelTrue closeNothing
                 (set_heap (deliver keydownEnter (heap worldA)) worldA)).
  { apply (reachable_step _ _ worldA); [apply worldA_reachable|apply step_input]. }
  split; [exact Hq|]. split; [exact Hr|]. split; [reflexivity|].
  destruct (reachable_budget_at_most_two cancelTrue closeNothing Hq) as [H _].
  exact (proj2 (proj1 (H _ Hr))).
Defined.

(** X12. With callbacks that only decide, in every reachable world each
    watcher's [closeAction] has been called at most once, and a watcher
    whose [closeAction] has been called is inactive. *)
Theorem closeAction_at_most_once cancelAction closeAction s w :
  quiet cancelAction closeAction ->
  reachable cancelAction closeAction s ->
  closeCalls w (trace s) <= 1 /\
  (1 <= closeCalls w (trace s) -> isActive w (heap s) = false).
Proof.
  intros Hquiet Hreach.
  destruct (reachable_closedOnce cancelAction closeAction Hquiet s Hreach w)
    as [H1 H2].
  split; [done|]. intros Hx. by destruct (H2 Hx).
Qed.

Lemma closeAction_at_most_once_witness :
  quiet cancelFalse closeNothing /\
  reachable cancelFalse closeNothing
    (close closeNothing 0 (snd (requestClose cancelFalse closeNothing 0 worldA))) /\
  closeCalls 0
    (trace (close closeNothing 0
              (snd (requestClose cancelFalse closeNothing 0 worldA)))) = 1 /\
  isActive 0
    (heap (close closeNothing 0
             (snd (requestClose cancelFalse closeNothing 0 worldA)))) = false.
Proof.
  assert (Hq : quiet cancelFalse closeNothing) by (split; reflexivity).
  assert (Hr : reachable cancelFalse closeNothing
    (close closeNothing 0 (snd (requestClose cancelFalse closeNothing 0 worldA)))).
  { apply (reachable_step _ _ (snd (requestClose cancelFalse closeNothing 0 worldA)));
      [|apply step_close].
    apply (reachable_step _ _ worldA); [apply worldA_reachable|apply step_requestClose]. }
  split; [exact Hq|]. split; [exact Hr|]. split; [reflexivity|].
  apply (closeAction_at_most_once cancelFalse closeNothing _ 0 Hq Hr).
  vm_compute. lia.
Defined.

(** X13. With callbacks that only decide, a watcher that has been
    constructed and is inactive stays inactive through every operation:
    nothing brings a closed or destroyed watcher back. *)
Theorem inactive_is_final cancelAction closeAction s s' w :
  quiet cancelAction closeAction ->
  reachable cancelAction closeAction s ->
  step cancelAction closeAction s s' ->
  w < length (watchers (heap s)) ->
  isActive w (heap s) = false ->
  isActive w (heap s') = false.
Proof.
  intros Hquiet Hreach Hstep. apply (step_inactive_stays cancelAction closeAction Hquiet s s' w Hstep).
  by apply (reachable_wf cancelAction closeAction).
Qed.

Lemma inactive_is_final_witness :
  quiet cancelTrue closeNothing /\
  reachable cancelTrue closeNothing (set_heap (destroy 0 (heap worldA)) worldA) /\
  exists h',
    InternalCloseWatcher_new (destroy 0 (heap worldA)) = Some (1, h') /\
    isActive 0 h' = false.
Proof.
  assert (Hq : quiet cancelTrue closeNothing) by (split; reflexivity).
  assert (Hr : reachable cancelTrue closeNothing
                 (set_heap (destroy 0 (heap worldA)) worldA)).
  { apply (reachable_step _ _ worldA); [apply worldA_reachable|apply step_destroy]. }
  split; [exact Hq|]. split; [exact Hr|].
  destruct (InternalCloseWatcher_new (destroy 0 (heap worldA)))
    as [[w h']|] eqn:E; [|discriminate].
  assert (Hw : w = 1) by (vm_compute in E; congruence). subst w.
  exists h'. split; [reflexivity|].
  apply (inactive_is_final cancelTrue closeNothing
           (set_heap (destroy 0 (heap worldA)) worldA) (set_heap h' (set_heap (destroy 0 (heap worldA)) worldA))
           0 Hq Hr).
  - apply (step_new _ _ (set_heap (destroy 0 (heap worldA)) worldA) 1 h'). exact E.
  - vm_compute. lia.
  - reflexivity.
Defined.

(** ** A dispatch in which nobody closes *)

Lemma requestCloseCalls_app t1 t2 :
  requestCloseCalls (t1 ++ t2) = requestCloseCalls t1 ++ requestCloseCalls t2.
Proof. apply omap_app. Qed.

Lemma wf_destroy_at w h i r k :
  wf h -> groups (manager h) !! i = Some r -> arr h r !! k = Some w ->
  destroy w h = destroyed_at i r k h.
Proof.
  intros Hwf Hi Hk.
  assert (Hgi : groupsOf h !! i = Some (arr h r)) by (by rewrite groupsOf_lookup, Hi).
  apply destroy_at; try done.
  - apply Hwf.
  - eapply NoDup_concat_group; [apply Hwf | exact Hgi].
  - intros j r' Hne Hj. split.
    + eapply (NoDup_concat_disjoint (groupsOf h) i j); [apply Hwf|exact Hgi| |done|].
      * by rewrite groupsOf_lookup, Hj.
      * eapply list_elem_of_lookup_2; eauto.
    + apply Hwf. eapply list_elem_of_lookup_2; eauto.
Qed.

Section NobodyCloses.

Variable cancelAction : Watcher -> Heap -> bool * Heap.
Variable closeAction : Watcher -> Heap -> Heap.
Hypothesis Hquiet : quiet cancelAction closeAction.
Hypothesis Hsuppress : forall w h, fst (cancelAction w h) = true.

Lemma requestClose_suppressed w s :
  arrays (heap (snd (requestClose cancelAction closeAction w s))) = arrays (heap s) /\
  manager (heap (snd (requestClose cancelAction closeAction w s))) = manager (heap s) /\
  requestCloseCalls (trace (snd (requestClose cancelAction closeAction w s)))
    = requestCloseCalls (trace s) ++ [w].
Proof.
  rewrite (requestClose_quiet _ _ Hquiet). cbn [snd].
  destruct (isActive w (heap s) && negb (isRunningCancelAction w (heap s))).
  - cbv zeta. rewrite Hsuppress. cbn [orb heap trace].
    by rewrite requestCloseCalls_app.
  - cbn [record heap trace]. by rewrite requestCloseCalls_app.
Qed.

Lemma forOf_suppressed : forall fuel group i processed s b s',
  forOf cancelAction closeAction fuel group i processed s = Some (b, s') ->
  arrays (heap s') = arrays (heap s) /\
  manager (heap s') = manager (heap s) /\
  requestCloseCalls (trace s')
    = requestCloseCalls (trace s) ++ drop i (arr (heap s) group).
Proof.
  induction fuel as [|fuel IH]; intros group i p s b s'; [done|].
  rewrite forOf_S. destruct (arr (heap s) group !! i) as [w|] eqn:Hi.
  - intros Hloop. apply IH in Hloop as (Ha & Hm & Hc).
    destruct (requestClose_suppressed w s) as (Ha1 & Hm1 & Hc1).
    split; [congruence|]. split; [congruence|].
    rewrite Hc, Hc1, <- app_assoc. f_equal.
    unfold arr in *. rewrite Ha1. by rewrite (drop_S _ _ _ Hi).
  - intros [= _ <-]. split; [done|]. split; [done|].
    rewrite drop_ge by (by apply lookup_ge_None). by rewrite app_nil_r.
Qed.

Lemma processCloseWatchers_suppressed fuel s b s' init g :
  wf (heap s) -> groupsOf (heap s) = init ++ [g] ->
  processCloseWatchers cancelAction closeAction fuel s = Some (b, s') ->
  b = true /\
  requestCloseCalls (trace s') = requestCloseCalls (trace s) ++ rev g /\
  groupsOf (heap s') = init ++ [rev g] /\
  wf (heap s').
Proof.
  intros Hwf Hv Hd.
  split; [apply (processCloseWatchers_returns _ _ _ _ _ _ Hwf Hd); rewrite Hv; by destruct init|].
  split; [|split; [|eapply processCloseWatchers_wf; eauto]].
  - destruct (last_group _ _ _ Hv) as (refs & r & Hg & Hr & Hinit).
    assert (Hin : r ∈ groups (manager (heap s))).
    { rewrite Hg. apply elem_of_app. right. by apply list_elem_of_singleton. }
    assert (Hval : r < length (arrays (heap s))) by (apply arr_nonempty_valid; by apply Hwf).
    revert Hd. unfold processCloseWatchers. rewrite Hg, last_snoc, length_app.
    replace (Nat.ltb 0 (length refs + length [r])) with true
      by (symmetry; apply Nat.ltb_lt; simpl; lia).
    destruct (forOf _ _ fuel r 0 false _) as [[p s1]|] eqn:Hloop; [|done].
    intros [= _ <-]. apply forOf_suppressed in Hloop as (_ & _ & Hc).
    cbn [heap set_heap trace] in Hc.
    rewrite arr_reverse_in_place, Hr in Hc by done.
    by destruct (1 <? _)%Z.
  - destruct (last_group _ _ _ Hv) as (refs & r & Hg & Hr & Hinit).
    destruct (groupsOf_reverse_in_place (heap s) r refs Hwf Hg) as [_ Hrev].
    rewrite Hr, <- Hinit in Hrev. rewrite <- Hrev.
    revert Hd. unfold processCloseWatchers. rewrite Hg, last_snoc, length_app.
    replace (Nat.ltb 0 (length refs + length [r])) with true
      by (symmetry; apply Nat.ltb_lt; simpl; lia).
    destruct (forOf _ _ fuel r 0 false _) as [[p s1]|] eqn:Hloop; [|done].
    intros [= _ <-]. apply forOf_suppressed in Hloop as (Ha & Hm & _).
    cbn [heap set_heap] in Ha, Hm.
    assert (E : groupsOf (heap s1) = groupsOf (reverse_in_place r (heap s))).
    { unfold groupsOf, arr. by rewrite Ha, Hm. }
    by destruct (1 <? _)%Z.
Qed.

End NobodyCloses.

(** X14. With callbacks that only decide and a [cancelAction] that always
    returns [true], a dispatch on a well-formed heap, given fuel beyond the
    length of the last group, returns [true], calls [requestClose] on every
    watcher of the last group, in the reverse of the order the group's array
    has when the dispatch starts, closes none, and leaves that array
    reversed in [manager.groups]; the other groups are as before. On an
    array in registration order the calls go from the watcher registered last
    to the one registered first; on an array an earlier dispatch has
    reversed they go from the one registered first to the one registered
    last. *)
Theorem processCloseWatchers_nobody_closes
    cancelAction closeAction fuel s init g :
  quiet cancelAction closeAction ->
  (forall w h, fst (cancelAction w h) = true) ->
  wf (heap s) ->
  groupsOf (heap s) = init ++ [g] ->
  length g < fuel ->
  exists s',
    processCloseWatchers cancelAction closeAction fuel s = Some (true, s') /\
    requestCloseCalls (trace s') = requestCloseCalls (trace s) ++ rev g /\
    groupsOf (heap s') = init ++ [rev g] /\
    (forall w, closeCalls w (trace s') = closeCalls w (trace s)).
Proof.
  intros Hquiet Hsup Hwf Hv Hfuel.
  destruct (processCloseWatchers_total cancelAction closeAction Hquiet fuel s)
    as (b & s' & Hd); [by rewrite Hv, last_snoc|].
  destruct (processCloseWatchers_suppressed cancelAction closeAction Hquiet Hsup
              fuel s b s' init g Hwf Hv Hd) as (-> & Hc & Hg & _).
  exists s'. split; [done|]. split; [done|]. split; [done|].
  intros w. apply processCloseWatchers_parts in Hd as (s0 & s1 & H0 & Hloop & ->).
  assert (E : closeCalls w (trace s1) = closeCalls w (trace s)).
  { apply (Hloop (fun y => closeCalls w (trace y) = closeCalls w (trace s))).
    - intros x y Hy. rewrite (requestClose_quiet _ _ Hquiet). cbn [snd].
      destruct (isActive x (heap y) && negb (isRunningCancelAction x (heap y))).
      + cbv zeta. rewrite Hsup. cbn [orb trace].
        rewrite closeCalls_app, !closeCalls_cons, !decide_False by done.
        change (closeCalls w []) with 0. lia.
      + cbn [record trace]. rewrite closeCalls_app, closeCalls_one.
        rewrite decide_False by done. lia.
    - by destruct H0 as [->|(r & _ & ->)]. }
  by destruct (1 <? _)%Z.
Qed.

Lemma processCloseWatchers_nobody_closes_witness :
  quiet cancelTrue closeNothing /\ wf heapAB /\ wf heapBA /\
  (exists s',
     processCloseWatchers cancelTrue closeNothing 3 (mkWorld heapAB [])
       = Some (true, s') /\
     requestCloseCalls (trace s') = [1; 0] /\
     groupsOf (heap s') = [[1; 0]]) /\
  (exists s',
     processCloseWatchers cancelTrue closeNothing 3 (mkWorld heapBA [])
       = Some (true, s') /\
     requestCloseCalls (trace s') = [0; 1] /\
     groupsOf (heap s') = [[0; 1]]).
Proof.
  assert (Hq : quiet cancelTrue closeNothing) by (split; reflexivity).
  assert (Hwf : wf heapAB) by (apply wfb_correct; reflexivity).
  assert (Hwf' : wf heapBA) by (apply wfb_correct; reflexivity).
  split; [exact Hq|]. split; [exact Hwf|]. split; [exact Hwf'|]. split.
  - destruct (processCloseWatchers_nobody_closes cancelTrue closeNothing 3
                (mkWorld heapAB []) [] [0; 1] Hq
                (fun _ _ => eq_refl) Hwf eq_refl ltac:(simpl; lia))
      as (s' & Hd & Hc & Hg & _).
    exists s'. split; [exact Hd|]. split; [exact Hc | exact Hg].
  - destruct (processCloseWatchers_nobody_closes cancelTrue closeNothing 3
                (mkWorld heapBA []) [] [1; 0] Hq
                (fun _ _ => eq_refl) Hwf' eq_refl ltac:(simpl; lia))
      as (s' & Hd & Hc & Hg & _).
    exists s'. split; [exact Hd|]. split; [exact Hc | exact Hg].
Defined.



(** ** A dispatch and the older groups *)

Lemma forOf_invariant_mem cancelAction closeAction (P : World -> Prop) group :
  (forall w s, P s -> w ∈ arr (heap s) group ->
               P (snd (requestClose cancelAction closeAction w s))) ->
  forall fuel i processed s b s',
    P s ->
    forOf cancelAction closeAction fuel group i processed s = Some (b, s') ->
    P s'.
Proof.
  intros Hstep. induction fuel as [|fuel IH]; intros i p s b s' HP; [done|].
  rewrite forOf_S. destruct (arr (heap s) group !! i) as [w|] eqn:Hi;
    [|by intros [= _ <-]].
  apply IH. apply Hstep; [done|]. eapply list_elem_of_lookup_2; eauto.
Qed.

(** A dispatch on a manager whose last group is the array behind [r]. *)
Lemma processCloseWatchers_last cancelAction closeAction fuel s b s' refs r :
  groups (manager (heap s)) = refs ++ [r] ->
  processCloseWatchers cancelAction closeAction fuel s = Some (b, s') ->
  exists s1,
    forOf cancelAction closeAction fuel r 0 false
      (set_heap (reverse_in_place r (heap s)) s) = Some (b, s1) /\
    groupsOf (heap s') = groupsOf (heap s1) /\
    trace s' = trace s1.
Proof.
  intros Hg. unfold processCloseWatchers. rewrite Hg, last_snoc, length_app.
  replace (Nat.ltb 0 (length refs + length [r])) with true
    by (symmetry; apply Nat.ltb_lt; simpl; lia).
  destruct (forOf _ _ fuel r 0 false _) as [[p s1]|] eqn:Hloop; [|done].
  intros [= <- <-]. exists s1. split; [done|]. by destruct (1 <? _)%Z.
Qed.

Lemma arr_destroyed_at_other h i r k r' :
  r' <> r -> arr (destroyed_at i r k h) r' = arr h r'.
Proof.
  intros Hne. unfold destroyed_at.
  destruct (decide (delete k (arr h r) = []));
    rewrite ?arr_set_manager; by apply arr_set_arr_ne.
Qed.

Lemma arr_destroyed_at h i r k :
  r < length (arrays h) -> arr (destroyed_at i r k h) r = delete k (arr h r).
Proof.
  intros Hval. unfold destroyed_at.
  destruct (decide (delete k (arr h r) = []));
    rewrite ?arr_set_manager; by apply arr_set_arr_eq.
Qed.

Lemma groups_destroyed_at h i r k :
  groups (manager (destroyed_at i r k h)) =
    if decide (delete k (arr h r) = []) then delete i (groups (manager h))
    else groups (manager h).
Proof. unfold destroyed_at. by destruct (decide (delete k (arr h r) = [])). Qed.

Section OlderGroups.

Variable cancelAction : Watcher -> Heap -> bool * Heap.
Variable closeAction : Watcher -> Heap -> Heap.
Hypothesis Hquiet : quiet cancelAction closeAction.

(** What the loop over the array behind [r] keeps: the arrays of the older
    groups, and [r] as the last group unless it has been emptied. *)
Lemma requestClose_older_groups h0 refs r w s :
  (wf (heap s) /\
   (forall r', r' ∈ refs -> arr (heap s) r' = arr h0 r') /\
   (groups (manager (heap s)) = refs ++ [r] \/
    (groups (manager (heap s)) = refs /\ arr (heap s) r = []))) ->
  w ∈ arr (heap s) r ->
  wf (heap (snd (requestClose cancelAction closeAction w s))) /\
  (forall r', r' ∈ refs ->
     arr (heap (snd (requestClose cancelAction closeAction w s))) r' = arr h0 r') /\
  (groups (manager (heap (snd (requestClose cancelAction closeAction w s))))
     = refs ++ [r] \/
   (groups (manager (heap (snd (requestClose cancelAction closeAction w s)))) = refs /\
    arr (heap (snd (requestClose cancelAction closeAction w s))) r = [])).
Proof.
  intros (Hwf & Hold & Hgr) Hw.
  assert (Hg : groups (manager (heap s)) = refs ++ [r]).
  { destruct Hgr as [?|[_ E]]; [done|]. rewrite E in Hw. inversion Hw. }
  clear Hgr. split; [by apply (requestClose_wf _ _ Hquiet)|].
  rewrite (requestClose_quiet _ _ Hquiet). cbn [snd].
  destruct (isActive w (heap s) && negb (isRunningCancelAction w (heap s)));
    [|by split; [|left]].
  cbv zeta. destruct (fst (cancelAction w _) || negb (defaultView (heap s)));
    cbn [heap]; [by split; [|left]|].
  set (h1 := set_isRunningCancelAction w true (heap s)).
  assert (Hwf1 : wf h1) by (by apply wf_set_isRunningCancelAction).
  assert (Hi : groups (manager h1) !! length refs = Some r).
  { change (groups (manager h1)) with (groups (manager (heap s))).
    rewrite Hg. by apply list_lookup_middle. }
  apply list_elem_of_lookup in Hw as [k Hk].
  rewrite (wf_destroy_at w h1 (length refs) r k Hwf1 Hi Hk).
  assert (Hnd : NoDup (refs ++ [r])) by (rewrite <- Hg; apply Hwf).
  assert (Hr : r ∈ groups (manager (heap s))).
  { rewrite Hg. apply elem_of_app. right. by apply list_elem_of_singleton. }
  assert (Hval : r < length (arrays h1)).
  { apply (arr_nonempty_valid (heap s)). by apply Hwf. }
  split.
  - intros r' Hr'. rewrite arr_destroyed_at_other; [by apply Hold|].
    intros ->. apply NoDup_app in Hnd as (_ & Hdisj & _).
    apply (Hdisj r Hr'). by apply list_elem_of_singleton.
  - rewrite groups_destroyed_at, arr_destroyed_at by done.
    change (groups (manager h1)) with (groups (manager (heap s))). rewrite Hg.
    destruct (decide (delete k (arr h1 r) = [])) as [E|E]; [right|by left].
    split; [|done].
    replace (length refs) with (length refs + 0) by lia.
    rewrite <- (app_nil_r (refs ++ [r])), <- app_assoc. simpl.
    replace (length refs + 0) with (length refs) by lia.
    rewrite delete_middle. by rewrite app_nil_r.
Qed.

Lemma processCloseWatchers_older_groups fuel s b s' init g :
  wf (heap s) -> groupsOf (heap s) = init ++ [g] ->
  processCloseWatchers cancelAction closeAction fuel s = Some (b, s') ->
  exists rest, groupsOf (heap s') = init ++ rest /\ length rest <= 1.
Proof.
  intros Hwf Hv Hd.
  destruct (last_group _ _ _ Hv) as (refs & r & Hg & Hr & Hinit).
  destruct (processCloseWatchers_last _ _ _ _ _ _ _ _ Hg Hd) as (s1 & Hloop & -> & _).
  assert (Hi : groups (manager (heap s)) !! length refs = Some r).
  { rewrite Hg. by apply list_lookup_middle. }
  assert (Hnd : NoDup (refs ++ [r])) by (rewrite <- Hg; apply Hwf).
  assert (H1 : wf (heap s1) /\
               (forall r', r' ∈ refs -> arr (heap s1) r' = arr (heap s) r') /\
               (groups (manager (heap s1)) = refs ++ [r] \/
                (groups (manager (heap s1)) = refs /\ arr (heap s1) r = []))).
  { revert Hloop.
    apply (forOf_invariant_mem cancelAction closeAction
             (fun y => wf (heap y) /\
                       (forall r', r' ∈ refs -> arr (heap y) r' = arr (heap s) r') /\
                       (groups (manager (heap y)) = refs ++ [r] \/
                        (groups (manager (heap y)) = refs /\ arr (heap y) r = [])))
             r).
    - intros w y Hy Hw. by apply requestClose_older_groups.
    - cbn [heap set_heap]. split; [by apply (wf_reverse_in_place _ (length refs))|].
      split; [|by left].
      intros r' Hr'. unfold reverse_in_place. apply arr_set_arr_ne.
      intros <-. apply NoDup_app in Hnd as (_ & Hdisj & _).
      apply (Hdisj r Hr'). by apply list_elem_of_singleton. }
  destruct H1 as (_ & Hold & [Hg1|[Hg1 _]]).
  - exists [arr (heap s1) r]. split; [|simpl; lia].
    unfold groupsOf. rewrite Hg1, fmap_snoc. f_equal. rewrite Hinit.
    apply list_fmap_ext. intros j r' Hj. apply Hold.
    eapply list_elem_of_lookup_2; eauto.
  - exists []. split; [|simpl; lia]. rewrite app_nil_r.
    unfold groupsOf. rewrite Hg1, Hinit.
    apply list_fmap_ext. intros j r' Hj. apply Hold.
    eapply list_elem_of_lookup_2; eauto.
Qed.

End OlderGroups.

(** X16. With callbacks that only decide, a dispatch on a well-formed heap
    leaves every group but the last exactly as it was; of the last group at
    most one group remains, holding only watchers that were in it; and no
    watcher that was inactive is active afterwards. *)
Theorem processCloseWatchers_touches_last_group_only
    cancelAction closeAction fuel s b s' init g :
  quiet cancelAction closeAction ->
  wf (heap s) ->
  groupsOf (heap s) = init ++ [g] ->
  processCloseWatchers cancelAction closeAction fuel s = Some (b, s') ->
  (exists rest,
      groupsOf (heap s') = init ++ rest /\ length rest <= 1 /\
      forall x, x ∈ concat rest -> x ∈ g) /\
  (forall x, isActive x (heap s') = true -> isActive x (heap s) = true).
Proof.
  intros Hquiet Hwf Hv Hd.
  assert (Hmono : forall x, isActive x (heap s') = true -> isActive x (heap s) = true).
  { intros x Hx. destruct (isActive x (heap s)) eqn:E; [done|].
    rewrite (processCloseWatchers_inactive_stays cancelAction closeAction Hquiet
               fuel s b s' x Hwf E Hd) in Hx. done. }
  split; [|done].
  destruct (processCloseWatchers_older_groups cancelAction closeAction Hquiet
              fuel s b s' init g Hwf Hv Hd) as (rest & Hrest & Hlen).
  exists rest. split; [done|]. split; [done|].
  intros x Hx.
  pose proof (processCloseWatchers_wf cancelAction closeAction Hquiet
                fuel s b s' Hd Hwf) as Hwf'.
  assert (Hact : x ∈ concat (groupsOf (heap s))).
  { apply isActive_true, Hmono, isActive_true. rewrite Hrest, concat_app.
    apply elem_of_app. by right. }
  rewrite Hv, concat_snoc in Hact. apply elem_of_app in Hact as [Hin|Hin]; [|done].
  exfalso. pose proof (wf_members _ Hwf') as Hnd.
  rewrite Hrest, concat_app in Hnd. apply NoDup_app in Hnd as (_ & Hdisj & _).
  by apply (Hdisj x).
Qed.

Lemma processCloseWatchers_touches_last_group_only_witness :
  quiet cancelFalse closeNothing /\ wf heapTwoGroups /\
  exists b s' rest,
    processCloseWatchers cancelFalse closeNothing 2 (mkWorld heapTwoGroups [])
      = Some (b, s') /\
    groupsOf (heap s') = [[0; 1]] ++ rest /\ length rest <= 1.
Proof.
  assert (Hq : quiet cancelFalse closeNothing) by (split; reflexivity).
  assert (Hwf : wf heapTwoGroups) by (apply wfb_correct; reflexivity).
  split; [exact Hq|]. split; [exact Hwf|].
  destruct (processCloseWatchers cancelFalse closeNothing 2 (mkWorld heapTwoGroups []))
    as [[b s']|] eqn:E; [|discriminate].
  destruct (processCloseWatchers_touches_last_group_only cancelFalse closeNothing 2
              (mkWorld heapTwoGroups []) b s' [[0; 1]] [2] Hq Hwf eq_refl E)
    as ((rest & Hrest & Hlen & _) & _).
  exists b, s', rest. split; [reflexivity|]. split; [exact Hrest | exact Hlen].
Defined.

(** ** A dispatch in which everybody agrees to close *)

Lemma isRunningCancelAction_set_other w x h :
  x <> w ->
  isRunningCancelAction x (set_isRunningCancelAction w true h)
    = isRunningCancelAction x h.
Proof.
  intros Hne. unfold isRunningCancelAction, set_isRunningCancelAction; simpl.
  by rewrite list_lookup_insert_ne.
Qed.

Lemma groups_after_removal (A : list (list nat)) (g l : list nat) :
  (if decide (l = []) then delete (length A) (A ++ [g])
   else <[length A := l]> (A ++ [g]))
  = A ++ (if decide (l = []) then [] else [l]).
Proof.
  destruct (decide (l = [])).
  - by rewrite delete_middle.
  - replace (length A) with (length A + 0) by lia. by rewrite insert_app_r.
Qed.

Section EverybodyCloses.

Variable cancelAction : Watcher -> Heap -> bool * Heap.
Variable closeAction : Watcher -> Heap -> Heap.
Hypothesis Hquiet : quiet cancelAction closeAction.
Hypothesis Hagree : forall w h, fst (cancelAction w h) = false.

Lemma requestClose_agreed w s :
  isActive w (heap s) = true ->
  isRunningCancelAction w (heap s) = false ->
  defaultView (heap s) = true ->
  snd (requestClose cancelAction closeAction w s) =
    mkWorld (destroy w (set_isRunningCancelAction w true (heap s)))
            (trace s ++ [RequestCloseCalled w; CancelActionCalled w;
                         CloseActionCalled w]).
Proof.
  intros Ha Hr Hv. rewrite (requestClose_quiet _ _ Hquiet). cbn [snd].
  rewrite Ha, Hr, Hv, Hagree. cbn [andb negb orb]. cbv zeta.
  by rewrite <- app_assoc.
Qed.

Lemma forOf_alternates r refs : forall fuel q pre s processed,
  wf (heap s) -> defaultView (heap s) = true ->
  groups (manager (heap s)) = refs ++ [r] ->
  arr (heap s) r = pre ++ q ->
  (forall w, w ∈ q -> isRunningCancelAction w (heap s) = false) ->
  length q < fuel ->
  exists b s',
    forOf cancelAction closeAction fuel r (length pre) processed s = Some (b, s') /\
    requestCloseCalls (trace s')
      = requestCloseCalls (trace s) ++ every_other true q /\
    groupsOf (heap s') =
      (arr (heap s) <$> refs)
        ++ (if decide (pre ++ every_other false q = []) then []
            else [pre ++ every_other false q]).
Proof.
  induction fuel as [|fuel IH]; intros q pre s p Hwf Hview Hg Harr Hunset Hfuel; [lia|].
  assert (Hnd : NoDup (refs ++ [r])) by (rewrite <- Hg; apply Hwf).
  assert (Hrin : r ∈ groups (manager (heap s))).
  { rewrite Hg. apply elem_of_app. right. by apply list_elem_of_singleton. }
  assert (Hval : r < length (arrays (heap s))) by (apply arr_nonempty_valid; by apply Hwf).
  assert (Hview0 : groupsOf (heap s) = (arr (heap s) <$> refs) ++ [pre ++ q]).
  { unfold groupsOf. by rewrite Hg, fmap_snoc, Harr. }
  rewrite forOf_S, Harr. destruct q as [|w q'].
  - rewrite app_nil_r. rewrite (lookup_ge_None_2 pre) by lia.
    exists p, s. split; [done|]. split; [by rewrite app_nil_r|].
    simpl. rewrite Hview0, !app_nil_r. rewrite decide_False; [done|].
    intros E. apply (wf_nonempty _ Hwf r Hrin). by rewrite Harr, E.
  - rewrite list_lookup_middle by done.
    assert (Hact : isActive w (heap s) = true).
    { apply isActive_true. rewrite Hview0, concat_snoc.
      apply elem_of_app. right. apply elem_of_app. right. by left. }
    rewrite (requestClose_agreed w s Hact (Hunset w ltac:(by left)) Hview).
    set (h1 := set_isRunningCancelAction w true (heap s)).
    assert (Hwf1 : wf h1) by (by apply wf_set_isRunningCancelAction).
    assert (Hi : groups (manager h1) !! length refs = Some r).
    { change (groups (manager h1)) with (groups (manager (heap s))).
      rewrite Hg. by apply list_lookup_middle. }
    assert (Hk : arr h1 r !! length pre = Some w).
    { change (arr h1 r) with (arr (heap s) r). rewrite Harr.
      by apply list_lookup_middle. }
    rewrite (wf_destroy_at w h1 (length refs) r (length pre) Hwf1 Hi Hk).
    set (hd := destroyed_at (length refs) r (length pre) h1).
    assert (Hwfd : wf hd).
    { unfold hd. rewrite <- (wf_destroy_at w h1 _ r _ Hwf1 Hi Hk). by apply wf_destroy. }
    assert (Harrd : arr hd r = pre ++ q').
    { unfold hd. rewrite arr_destroyed_at by done.
      change (arr h1 r) with (arr (heap s) r). rewrite Harr. apply delete_middle. }
    assert (Hold : arr hd <$> refs = arr (heap s) <$> refs).
    { apply list_fmap_ext. intros j r' Hj. unfold hd.
      rewrite arr_destroyed_at_other; [done|].
      intros ->. apply NoDup_app in Hnd as (_ & Hdisj & _).
      apply (Hdisj r); [eapply list_elem_of_lookup_2; eauto|].
      by apply list_elem_of_singleton. }
    assert (Hcalls : requestCloseCalls
                       (trace s ++ [RequestCloseCalled w; CancelActionCalled w;
                                    CloseActionCalled w])
                     = requestCloseCalls (trace s) ++ [w]).
    { by rewrite requestCloseCalls_app. }
    assert (Hviewd : groupsOf hd =
              (arr (heap s) <$> refs)
                ++ (if decide (pre ++ q' = []) then [] else [pre ++ q'])).
    { unfold hd. rewrite groupsOf_destroyed_at by (done || apply Hwf1).
      change (arr h1 r) with (arr (heap s) r).
      change (groupsOf h1) with (groupsOf (heap s)).
      rewrite Harr, delete_middle, Hview0.
      replace (length refs) with (length (arr (heap s) <$> refs))
        by apply length_fmap.
      apply groups_after_removal. }
    destruct q' as [|x q''].
    + destruct fuel as [|fuel]; [simpl in Hfuel; lia|].
      rewrite forOf_S. cbn [heap]. rewrite Harrd, app_nil_r.
      rewrite (lookup_ge_None_2 pre) by lia.
      eexists _, _. split; [reflexivity|]. cbn [heap trace].
      split; [exact Hcalls|]. exact Hviewd.
    + assert (Hgd : groups (manager hd) = refs ++ [r]).
      { unfold hd. rewrite groups_destroyed_at.
        change (arr h1 r) with (arr (heap s) r). rewrite Harr, delete_middle.
        rewrite decide_False; [done|]. by destruct pre. }
      assert (Hndr : NoDup (pre ++ w :: x :: q'')).
      { rewrite <- Harr. apply (NoDup_concat_group (groupsOf (heap s)) (length refs)).
        - apply Hwf.
        - rewrite groupsOf_lookup, Hg. by rewrite list_lookup_middle. }
      assert (Hunset' : forall y, y ∈ q'' -> isRunningCancelAction y hd = false).
      { intros y Hy. unfold isRunningCancelAction at 1. unfold hd.
        rewrite <- (wf_destroy_at w h1 _ r _ Hwf1 Hi Hk), destroy_watchers.
        fold (isRunningCancelAction y h1). unfold h1.
        rewrite isRunningCancelAction_set_other; [apply Hunset; by do 2 right|].
        intros ->. apply NoDup_app in Hndr as (_ & _ & Hndr).
        apply NoDup_cons in Hndr as [Hw _]. apply Hw. by right. }
      destruct (IH q'' (pre ++ [x])
                  (mkWorld hd (trace s ++ [RequestCloseCalled w; CancelActionCalled w;
                                           CloseActionCalled w])) true)
        as (b & s' & Hloop & Hc & Hv); cbn [heap trace]; try done.
      * unfold hd. rewrite <- (wf_destroy_at w h1 _ r _ Hwf1 Hi Hk).
        destruct (destroy_shrinks w h1) as (_ & -> & _). exact Hview.
      * by rewrite Harrd, <- app_assoc.
      * simpl in Hfuel. lia.
      * exists b, s'. rewrite length_app in Hloop. simpl in Hloop.
        rewrite Nat.add_1_r in Hloop. split; [done|].
        cbn [heap trace] in Hc, Hv. split.
        -- rewrite Hc, Hcalls, <- app_assoc. done.
        -- rewrite Hv, Hold. simpl. by rewrite <- !app_assoc.
Qed.

End EverybodyCloses.

(** X17. With callbacks that only decide and a [cancelAction] that always
    returns [false], in a document with a view, a dispatch on a well-formed
    heap whose last group has no guard set closes only every second watcher
    of that group: it calls [requestClose] on the last one, the third last
    and so on, and the watchers in between are skipped and stay, in reversed
    order. *)
Theorem processCloseWatchers_closes_every_other
    cancelAction closeAction fuel s init g :
  quiet cancelAction closeAction ->
  (forall w h, fst (cancelAction w h) = false) ->
  wf (heap s) ->
  defaultView (heap s) = true ->
  groupsOf (heap s) = init ++ [g] ->
  (forall w, w ∈ g -> isRunningCancelAction w (heap s) = false) ->
  length g < fuel ->
  exists s',
    processCloseWatchers cancelAction closeAction fuel s = Some (true, s') /\
    requestCloseCalls (trace s')
      = requestCloseCalls (trace s) ++ every_other true (rev g) /\
    groupsOf (heap s') =
      init ++ (if decide (every_other false (rev g) = []) then []
               else [every_other false (rev g)]).
Proof.
  intros Hquiet Hagree Hwf Hview Hv Hunset Hfuel.
  destruct (last_group _ _ _ Hv) as (refs & r & Hg & Hr & Hinit).
  assert (Hi : groups (manager (heap s)) !! length refs = Some r).
  { rewrite Hg. by apply list_lookup_middle. }
  assert (Hrin : r ∈ groups (manager (heap s))).
  { eapply list_elem_of_lookup_2; eauto. }
  assert (Hval : r < length (arrays (heap s))) by (apply arr_nonempty_valid; by apply Hwf).
  assert (Hnd : NoDup (refs ++ [r])) by (rewrite <- Hg; apply Hwf).
  destruct (forOf_alternates cancelAction closeAction Hquiet Hagree r refs
              fuel (rev g) [] (set_heap (reverse_in_place r (heap s)) s) false)
    as (b & s1 & Hloop & Hc & Hview1); cbn [heap set_heap trace]; try done.
  - by apply (wf_reverse_in_place _ (length refs)).
  - rewrite arr_reverse_in_place by done. by rewrite Hr.
  - intros w Hw. apply list_elem_of_In, in_rev, list_elem_of_In in Hw.
    by apply Hunset.
  - by rewrite length_rev.
  - destruct (processCloseWatchers cancelAction closeAction fuel s)
      as [[b' s']|] eqn:Hd.
    2:{ revert Hd. unfold processCloseWatchers. rewrite Hg, last_snoc, length_app.
        replace (Nat.ltb 0 (length refs + length [r])) with true
          by (symmetry; apply Nat.ltb_lt; simpl; lia).
        simpl in Hloop. by rewrite Hloop. }
    destruct (processCloseWatchers_last _ _ _ _ _ _ _ _ Hg Hd) as (s1' & Hloop' & Hg' & Ht').
    simpl in Hloop. rewrite Hloop in Hloop'. injection Hloop' as -> <-.
    assert (Hb : b' = true).
    { apply (processCloseWatchers_returns _ _ _ _ _ _ Hwf Hd). rewrite Hv. by destruct init. }
    subst b'. exists s'. split; [done|]. rewrite Hg', Ht'.
    cbn [heap set_heap trace] in Hc, Hview1. split; [done|].
    rewrite Hview1. simpl. f_equal. rewrite Hinit.
    apply list_fmap_ext. intros j r' Hj. unfold reverse_in_place.
    apply arr_set_arr_ne. intros <-.
    apply NoDup_app in Hnd as (_ & Hdisj & _).
    apply (Hdisj r); [eapply list_elem_of_lookup_2; eauto|].
    by apply list_elem_of_singleton.
Qed.

Lemma processCloseWatchers_closes_every_other_witness :
  quiet cancelFalse closeNothing /\ wf heapFive /\
  exists s',
    processCloseWatchers cancelFalse closeNothing 6 (mkWorld heapFive [])
      = Some (true, s') /\
    requestCloseCalls (trace s') = [4; 2; 0] /\
    groupsOf (heap s') = [[3; 1]].
Proof.
  assert (Hq : quiet cancelFalse closeNothing) by (split; reflexivity).
  assert (Hwf : wf heapFive) by (apply wfb_correct; reflexivity).
  split; [exact Hq|]. split; [exact Hwf|].
  destruct (processCloseWatchers_closes_every_other cancelFalse closeNothing 6
              (mkWorld heapFive []) [] [0; 1; 2; 3; 4] Hq
              (fun _ _ => eq_refl) Hwf eq_refl eq_refl)
    as (s' & Hd & Hc & Hg).
  - intros w Hw. simpl.
    repeat (apply elem_of_cons in Hw as [->|Hw]; [reflexivity|]). inversion Hw.
  - simpl. lia.
  - exists s'. split; [exact Hd|]. split; [exact Hc | exact Hg].
Defined.

(** ** After [destroy] *)

(** X18. In a well-formed heap, once a watcher is destroyed its methods do
    nothing more, whatever the callbacks are: [close()] leaves the world as
    it is, [requestClose()] calls no callback, leaves the heap as it is and
    returns [true], and a further [destroy()] changes nothing. *)
Theorem methods_after_destroy cancelAction closeAction w s :
  wf (heap s) ->
  close closeAction w (set_heap (destroy w (heap s)) s)
    = set_heap (destroy w (heap s)) s /\
  requestClose cancelAction closeAction w (set_heap (destroy w (heap s)) s)
    = (true, mkWorld (destroy w (heap s)) (trace s ++ [RequestCloseCalled w])) /\
  destroy w (destroy w (heap s)) = destroy w (heap s).
Proof.
  intros Hwf. destruct (wf_destroy w (heap s) Hwf) as [Hwf' Hgone].
  split; [|split].
  - apply close_noop. by left.
  - rewrite requestClose_guarded; [done|]. by left.
  - apply destroy_inactive; [apply Hwf'|done].
Qed.

Lemma methods_after_destroy_witness :
  wf heapAB /\
  close closeNothing 1 (mkWorld (destroy 1 heapAB) [])
    = mkWorld (destroy 1 heapAB) [] /\
  requestClose cancelFalse closeNothing 1 (mkWorld (destroy 1 heapAB) [])
    = (true, mkWorld (destroy 1 heapAB) [RequestCloseCalled 1]).
Proof.
  assert (Hwf : wf heapAB) by (apply wfb_correct; reflexivity).
  destruct (methods_after_destroy cancelFalse closeNothing 1 (mkWorld heapAB []) Hwf)
    as (Hc & Hr & _).
  split; [exact Hwf|]. split; [exact Hc | exact Hr].
Defined.

(** ** An activation and the registrations after it *)

Lemma register_appends : forall n h,
  wf h ->
  (allowedNumberOfGroups (manager h) <= Z.of_nat (length (groupsOf h)))%Z ->
  exists h',
    register n h = Some (seq (length (watchers h)) n, h') /\
    groupsOf h' =
      match n with
      | O => groupsOf h
      | S _ =>
          removelast (groupsOf h)
            ++ [default [] (last (groupsOf h)) ++ seq (length (watchers h)) n]
      end.
Proof.
  induction n as [|n IH]; intros h Hwf Hfull; [by exists h|].
  destruct (InternalCloseWatcher_new_spec h Hwf)
    as (h1 & Hnew & Hwf1 & Hw1 & Hal1 & _ & _ & _ & Hview1).
  destruct (Z.ltb_spec (Z.of_nat (length (groupsOf h)))
              (allowedNumberOfGroups (manager h))); [lia|].
  destruct Hview1 as (init & g & Hv & Hv1).
  assert (Hlen1 : length (watchers h1) = S (length (watchers h))).
  { rewrite Hw1, length_app. simpl. lia. }
  destruct (IH h1 Hwf1) as (h' & Hreg & Hview').
  { rewrite Hal1, Hv1. rewrite Hv in Hfull. by rewrite !length_app in *. }
  exists h'. cbn [register]. rewrite Hnew, Hreg, Hlen1. split; [done|].
  rewrite Hview', Hv, removelast_last, last_snoc. cbn [default from_option id].
  destruct n as [|n]; [by rewrite Hv1|].
  rewrite Hv1, removelast_last, last_snoc, Hlen1. cbn [default from_option id].
  by rewrite <- app_assoc.
Qed.

(** X19. In a well-formed heap whose groups fill the budget, with the
    flag set and the controller not aborted, an event that [notify] takes as
    a trusted activation makes room for exactly one more group: the
    constructor calls that follow put their watchers, in order, into one new
    group after the old ones. *)
Theorem activation_opens_one_group e h n :
  wf h ->
  qualifying e = true ->
  aborted h = false ->
  nextUserInteractionAllowsAnewGroup (manager h) = true ->
  Z.of_nat (length (groupsOf h)) = allowedNumberOfGroups (manager h) ->
  exists h',
    register (S n) (deliver e h) = Some (seq (length (watchers h)) (S n), h') /\
    groupsOf h' = groupsOf h ++ [seq (length (watchers h)) (S n)].
Proof.
  intros Hwf Hq Hab Hflag Hfull.
  pose proof (wf_deliver e h Hwf) as Hwf0.
  destruct (deliver_frame e h) as (Hg0 & Ha0 & Hw0 & _).
  assert (Hv0 : groupsOf (deliver e h) = groupsOf h).
  { unfold groupsOf, arr. by rewrite Hg0, Ha0. }
  assert (Hal0 : allowedNumberOfGroups (manager (deliver e h))
                 = (allowedNumberOfGroups (manager h) + 1)%Z).
  { unfold deliver. rewrite Hab.
    destruct (notify_qualifying e h Hq) as (-> & _). by rewrite Hflag. }
  destruct (InternalCloseWatcher_new_spec (deliver e h) Hwf0)
    as (h1 & Hnew & Hwf1 & Hw1 & Hal1 & _ & _ & _ & Hview1).
  rewrite Hv0, Hal0, Hw0 in *.
  destruct (Z.ltb_spec (Z.of_nat (length (groupsOf h)))
              (allowedNumberOfGroups (manager h) + 1)); [|lia].
  assert (Hlen1 : length (watchers h1) = S (length (watchers h))).
  { rewrite Hw1, length_app. simpl. lia. }
  destruct (register_appends n h1 Hwf1) as (h' & Hreg & Hview').
  { rewrite Hal1, Hview1, length_app. simpl. lia. }
  exists h'. cbn [register]. rewrite Hnew, Hreg, Hlen1. split; [done|].
  rewrite Hview', Hview1. destruct n as [|n]; [done|].
  rewrite removelast_last, last_snoc, Hlen1. done.
Qed.

Lemma activation_opens_one_group_witness :
  wf heapAB /\ qualifying keydownEnter = true /\
  exists h',
    register 2 (deliver keydownEnter heapAB) = Some ([2; 3], h') /\
    groupsOf h' = [[0; 1]; [2; 3]].
Proof.
  assert (Hwf : wf heapAB) by (apply wfb_correct; reflexivity).
  split; [exact Hwf|]. split; [reflexivity|].
  destruct (activation_opens_one_group keydownEnter heapAB 1 Hwf
              eq_refl eq_refl eq_refl eq_refl) as (h' & Hreg & Hv).
  exists h'. split; [exact Hreg | exact Hv].
Defined.

(** * Callbacks that call back into the module *)

(** ** Every operation is a stretch of moves *)

Lemma stretch_trans s1 s2 s3 : stretch s1 s2 -> stretch s2 s3 -> stretch s1 s3.
Proof.
  intros H12 H23. induction H23 as [|s2 s3 s4 _ IH Hp]; [done|].
  eapply stretch_snoc; [by apply IH | exact Hp].
Qed.

Lemma stretch_one s s' : prim s s' -> stretch s s'.
Proof. intros Hp. eapply stretch_snoc; [apply stretch_nil | exact Hp]. Qed.

Lemma stretch_invariant (P : World -> Prop) s s' :
  (forall s1 s2, prim s1 s2 -> P s1 -> P s2) -> stretch s s' -> P s -> P s'.
Proof.
  intros Hstep Hrun Hs. induction Hrun as [|s s1 s2 _ IH Hp]; [done|].
  apply (Hstep s1 s2 Hp). by apply IH.
Qed.

Lemma ret_moves {R : Type} (r : R) : moves (ret r).
Proof. intros s. apply stretch_nil. Qed.

Lemma bind_stretch {A B : Type} (m : M A) (k : A -> M B) s :
  stretch s (snd (m s)) -> (forall a, moves (k a)) ->
  stretch s (snd (bind m k s)).
Proof.
  intros Hm Hk. unfold bind.
  destruct (m s) as [[a| |] s1]; cbn [snd] in *; [|done|done].
  eapply stretch_trans; [exact Hm | apply Hk].
Qed.

Lemma bind_moves {A B : Type} (m : M A) (k : A -> M B) :
  moves m -> (forall a, moves (k a)) -> moves (bind m k).
Proof. intros Hm Hk s. by apply bind_stretch. Qed.


Section BodiesMove.

Variable cancelAction : Watcher -> M bool.
Variable closeAction : Watcher -> M unit.
Hypothesis Hcancel : forall w, moves (cancelAction w).
Hypothesis Hclose : forall w, moves (closeAction w).

Lemma close_with_moves w : moves (Reentrant.close_with closeAction w).
Proof.
  intros s. unfold Reentrant.close_with.
  destruct (isActive w (heap s)) eqn:Ha; [|apply stretch_nil].
  destruct (defaultView (heap s)) eqn:Hv; [|apply stretch_nil]. cbn [andb].
  eapply stretch_trans; [apply stretch_one, (prim_closeAction s w Ha Hv)|].
  apply Hclose.
Qed.

Lemma requestClose_with_moves w :
  moves (Reentrant.requestClose_with cancelAction closeAction w).
Proof.
  intros s. unfold Reentrant.requestClose_with. cbv zeta.
  eapply stretch_trans; [apply stretch_one, (prim_requestClose s w)|].
  change (heap (record (RequestCloseCalled w) s)) with (heap s).
  destruct (isActive w (heap s)) eqn:Ha; [|apply stretch_nil].
  destruct (isRunningCancelAction w (heap s)) eqn:Hr; [apply stretch_nil|].
  cbn [andb negb].
  eapply stretch_trans.
  { apply stretch_one.
    by apply (prim_cancelAction (record (RequestCloseCalled w) s) w). }
  apply bind_moves; [apply Hcancel|]. intros r.
  apply bind_moves; [|intros; apply ret_moves].
  destruct r; cbn [negb]; [apply ret_moves | apply close_with_moves].
Qed.

Lemma forOf_with_moves fuel group i processed :
  moves (Reentrant.forOf_with cancelAction closeAction fuel group i processed).
Proof.
  revert i processed. induction fuel as [|fuel IH]; intros i processed s;
    cbn [Reentrant.forOf_with]; [apply stretch_nil|].
  destruct (arr (heap s) group !! i) as [closeWatcher|]; [|apply stretch_nil].
  apply bind_moves; [apply requestClose_with_moves|].
  intros r. destruct r; cbn [negb]; [apply IH | apply ret_moves].
Qed.

Lemma processCloseWatchers_with_moves fuel :
  moves (Reentrant.processCloseWatchers_with cancelAction closeAction fuel).
Proof.
  intros s. unfold Reentrant.processCloseWatchers_with. cbv zeta.
  apply bind_stretch.
  - destruct (Nat.ltb 0 (length (groups (manager (heap s)))));
      [|apply stretch_nil].
    destruct (last (groups (manager (heap s)))) as [r|] eqn:Hlast;
      [|apply stretch_nil].
    eapply stretch_trans; [apply stretch_one, (prim_reverse s r Hlast)|].
    apply forOf_with_moves.
  - intros b s1. cbn [ret snd].
    destruct (Z.ltb_spec 1 (allowedNumberOfGroups (manager (heap s1))));
      [|apply stretch_nil].
    by apply stretch_one, prim_decrement.
Qed.

End BodiesMove.

Lemma exec_moves (requestClose : Watcher -> M bool) (close : Watcher -> M unit)
    {R : Type} (p : Reentrant.Script R) :
  (forall w, moves (requestClose w)) -> (forall w, moves (close w)) ->
  moves (Reentrant.exec requestClose close p).
Proof.
  intros Hr Hc.
  induction p as [r| |k IH|w k IH|w k IH|w k IH|k IH|b k IH]; intros s;
    cbn [Reentrant.exec].
  - apply stretch_nil.
  - apply stretch_nil.
  - apply IH.
  - specialize (Hr w s). destruct (requestClose w s) as [[r| |] s1]; cbn [snd] in *.
    + eapply stretch_trans; [exact Hr | apply IH].
    + eapply stretch_trans; [exact Hr | apply IH].
    + exact Hr.
  - specialize (Hc w s). destruct (close w s) as [[r| |] s1]; cbn [snd] in *.
    + eapply stretch_trans; [exact Hc | apply IH].
    + eapply stretch_trans; [exact Hc | apply IH].
    + exact Hc.
  - eapply stretch_trans; [apply stretch_one, (prim_destroy s w) | apply IH].
  - destruct (InternalCloseWatcher_new (heap s)) as [[w h']|] eqn:Hnew; [|apply IH].
    eapply stretch_trans; [apply stretch_one, (prim_new s w h' Hnew) | apply IH].
  - eapply stretch_trans; [apply stretch_one, (prim_view s b) | apply IH].
Qed.

Section HandlersMove.

Variable onCancel : Watcher -> Reentrant.Script bool.
Variable onClose : Watcher -> Reentrant.Script unit.

Lemma callbacks_move fuel :
  (forall w, moves (Reentrant.cancelAction onCancel onClose fuel w)) /\
  (forall w, moves (Reentrant.closeAction onCancel onClose fuel w)).
Proof.
  induction fuel as [|fuel [IHc IHl]]; (split; intros w);
    cbn [Reentrant.cancelAction Reentrant.closeAction];
    try (intros s; apply stretch_nil);
    (apply exec_moves; intros x;
     [by apply requestClose_with_moves | by apply close_with_moves]).
Qed.

Lemma cancelAction_moves fuel w :
  moves (Reentrant.cancelAction onCancel onClose fuel w).
Proof. apply callbacks_move. Qed.

Lemma closeAction_moves fuel w :
  moves (Reentrant.closeAction onCancel onClose fuel w).
Proof. apply callbacks_move. Qed.

Lemma close_moves fuel w : moves (Reentrant.close onCancel onClose fuel w).
Proof. apply close_with_moves, closeAction_moves. Qed.

Lemma requestClose_moves fuel w :
  moves (Reentrant.requestClose onCancel onClose fuel w).
Proof.
  apply requestClose_with_moves; [apply cancelAction_moves | apply closeAction_moves].
Qed.

Lemma processCloseWatchers_moves fuel :
  moves (Reentrant.processCloseWatchers onCancel onClose fuel).
Proof.
  apply processCloseWatchers_with_moves;
    [apply cancelAction_moves | apply closeAction_moves].
Qed.

Lemma step_stretch s s' : Reentrant.step onCancel onClose s s' -> stretch s s'.
Proof.
  intros [s0 w h' Hnew|s0 w|s0 fuel w|s0 fuel w|s0 fuel|s0 e|s0 b].
  - by apply stretch_one, (prim_new s0 w h').
  - apply stretch_one, prim_destroy.
  - apply close_moves.
  - apply requestClose_moves.
  - apply processCloseWatchers_moves.
  - apply stretch_one, prim_input.
  - apply stretch_one, prim_view.
Qed.

Lemma reachable_stretch s :
  Reentrant.reachable onCancel onClose s -> stretch initialWorld s.
Proof.
  induction 1 as [|s s' _ IH Hstep]; [apply stretch_nil|].
  eapply stretch_trans; [exact IH | by apply step_stretch].
Qed.

End HandlersMove.

(** ** What no move breaks *)

Lemma last_lookup_Some {A : Type} (l : list A) (x : A) :
  last l = Some x -> exists i, l !! i = Some x.
Proof.
  intros H. apply last_Some in H as [init ->].
  exists (length init). by apply list_lookup_middle.
Qed.

Lemma prim_wf s s' : prim s s' -> wf (heap s) -> wf (heap s').
Proof.
  intros Hp Hwf.
  destruct Hp as [s w|s w Ha Hr|s w Ha Hv|s w|s w h' Hnew|s b|s r Hlast|s Hlt|s e];
    cbn [heap record set_heap].
  - done.
  - by apply wf_set_isRunningCancelAction.
  - by apply wf_destroy.
  - by apply wf_destroy.
  - destruct (InternalCloseWatcher_new_spec (heap s) Hwf) as (h'' & E & Hwf' & _).
    rewrite Hnew in E. injection E as _ ->. exact Hwf'.
  - apply (wf_transfer (heap s)); try done. apply Hwf.
  - apply last_lookup_Some in Hlast as [i Hi].
    by apply (wf_reverse_in_place (heap s) i r).
  - apply (wf_transfer (heap s)); try done. cbn. lia.
  - by apply wf_deliver.
Qed.


Lemma prim_keeps_guard s s' w :
  prim s s' ->
  isRunningCancelAction w (heap s) = true ->
  isRunningCancelAction w (heap s') = true.
Proof.
  intros Hp.
  destruct Hp as [s x|s x Ha Hr|s x Ha Hv|s x|s x h' Hnew|s b|s r Hlast|s Hlt|s e];
    cbn [heap record set_heap].
  - done.
  - apply isRunningCancelAction_set.
  - unfold isRunningCancelAction. by rewrite destroy_watchers.
  - unfold isRunningCancelAction. by rewrite destroy_watchers.
  - apply InternalCloseWatcher_new_watchers in Hnew as [_ Hw].
    unfold isRunningCancelAction. rewrite Hw.
    destruct (watchers (heap s) !! w) eqn:E; [|done].
    rewrite lookup_app_l; [by rewrite E|]. eapply lookup_lt_Some; eauto.
  - done.
  - done.
  - done.
  - destruct (deliver_frame e (heap s)) as (_ & _ & Hw & _).
    unfold isRunningCancelAction. by rewrite Hw.
Qed.

(** The trace of a move: at most one call more on record. *)
Lemma prim_trace s s' :
  prim s s' ->
  trace s' = trace s \/
  (exists w, trace s' = trace s ++ [RequestCloseCalled w]) \/
  (exists w, trace s' = trace s ++ [CancelActionCalled w] /\
             isActive w (heap s) = true /\
             isRunningCancelAction w (heap s) = false /\
             heap s' = set_isRunningCancelAction w true (heap s)) \/
  (exists w, trace s' = trace s ++ [CloseActionCalled w] /\
             isActive w (heap s) = true /\
             heap s' = destroy w (heap s)).
Proof.
  intros Hp.
  destruct Hp as [s x|s x Ha Hr|s x Ha Hv|s x|s x h' Hnew|s b|s r Hlast|s Hlt|s e];
    cbn [heap trace record set_heap]; eauto 10.
Qed.

Lemma prim_guarded s s' :
  prim s s' -> wf (heap s) -> guarded s -> guarded s'.
Proof.
  intros Hp Hwf HJ x.
  pose proof (prim_keeps_guard s s' x Hp) as Hkeep.
  destruct (prim_trace s s' Hp)
    as [E|[(w & E)|[(w & E & Ha & Hr & Hh)|(w & E & _)]]]; rewrite E.
  - destruct (HJ x) as [H1 H2]. split; [done|]. intros H. by apply Hkeep, H2.
  - rewrite cancelCalls_app, cancelCalls_one, decide_False by done.
    rewrite Nat.add_0_r.
    destruct (HJ x) as [H1 H2]. split; [done|]. intros H. by apply Hkeep, H2.
  - rewrite cancelCalls_app, cancelCalls_one.
    destruct (decide (CancelActionCalled w = CancelActionCalled x)) as [[= ->]|Hne].
    + assert (Hzero : cancelCalls x (trace s) = 0).
      { destruct (HJ x) as [_ Himp]. destruct (cancelCalls x (trace s)); [done|].
        rewrite Himp in Hr by lia. done. }
      rewrite Hzero. split; [done|]. intros _. rewrite Hh.
      apply isRunningCancelAction_set_eq.
      apply (wf_allocated _ Hwf). by apply isActive_true.
    + rewrite Nat.add_0_r.
      destruct (HJ x) as [H1 H2]. split; [done|]. intros H. by apply Hkeep, H2.
  - rewrite cancelCalls_app, cancelCalls_one, decide_False by done.
    rewrite Nat.add_0_r.
    destruct (HJ x) as [H1 H2]. split; [done|]. intros H. by apply Hkeep, H2.
Qed.




(** ** What no stretch breaks *)



Lemma stretch_keeps_guard s s' w :
  stretch s s' ->
  isRunningCancelAction w (heap s) = true ->
  isRunningCancelAction w (heap s') = true.
Proof.
  apply (stretch_invariant (fun x => isRunningCancelAction w (heap x) = true)).
  intros s1 s2. apply prim_keeps_guard.
Qed.

Lemma stretch_guarded s s' :
  stretch s s' -> wf (heap s) -> guarded s -> wf (heap s') /\ guarded s'.
Proof.
  intros Hrun Hwf HJ.
  apply (stretch_invariant (fun x => wf (heap x) /\ guarded x) s s'); [|done|done].
  intros s1 s2 Hp [H1 H2]. split; [by apply (prim_wf s1) | by apply (prim_guarded s1)].
Qed.





(** ** [close()] and [requestClose()] with such callbacks *)


Section HandlersSemantics.

Variable onCancel : Watcher -> Reentrant.Script bool.
Variable onClose : Watcher -> Reentrant.Script unit.



Lemma requestClose_idle fuel w s :
  isActive w (heap s) = false \/ isRunningCancelAction w (heap s) = true ->
  Reentrant.requestClose onCancel onClose fuel w s =
    (Returns true, mkWorld (heap s) (trace s ++ [RequestCloseCalled w])).
Proof.
  intros H. unfold Reentrant.requestClose, Reentrant.requestClose_with.
  cbv zeta. change (heap (record (RequestCloseCalled w) s)) with (heap s).
  destruct H as [-> | ->]; [done|]. by rewrite andb_false_r.
Qed.

Lemma requestClose_enters fuel w s :
  isActive w (heap s) = true -> isRunningCancelAction w (heap s) = false ->
  Reentrant.requestClose onCancel onClose fuel w s =
    (let* r := Reentrant.cancelAction onCancel onClose fuel w in
     let* _ := (if negb r then Reentrant.close onCancel onClose fuel w
                else ret tt) in
     ret true) (entered w s).
Proof.
  intros Ha Hr. unfold Reentrant.requestClose, Reentrant.requestClose_with.
  cbv zeta. change (heap (record (RequestCloseCalled w) s)) with (heap s).
  by rewrite Ha, Hr.
Qed.

(** What holds in the world in which [cancelAction] starts. *)
Lemma entered_spec w s :
  wf (heap s) -> isActive w (heap s) = true ->
  wf (heap (entered w s)) /\
  isActive w (heap (entered w s)) = true /\
  isRunningCancelAction w (heap (entered w s)) = true /\
  w < length (watchers (heap (entered w s))) /\
  cancelCalls w (trace (entered w s)) = S (cancelCalls w (trace s)) /\
  closeCalls w (trace (entered w s)) = closeCalls w (trace s).
Proof.
  intros Hwf Ha.
  assert (Halloc : w < length (watchers (heap s))).
  { apply (wf_allocated _ Hwf). by apply isActive_true. }
  unfold entered. cbn [heap trace record set_heap].
  split; [by apply wf_set_isRunningCancelAction|]. split; [done|].
  split; [by apply isRunningCancelAction_set_eq|].
  split; [unfold set_isRunningCancelAction; cbn; by rewrite length_insert|].
  split; count_calls.
Qed.

End HandlersSemantics.

(** ** Callbacks that only decide: the two semantics agree *)

Lemma requestClose_only_decides (b : Watcher -> bool) fuel w s :
  Reentrant.requestClose (fun x => Reentrant.Return (b x)) nothing (S fuel) w s =
    (Returns true, snd (requestClose (fun x h => (b x, h)) (fun _ h => h) w s)).
Proof.
  unfold Reentrant.requestClose, Reentrant.requestClose_with, requestClose.
  cbv zeta. cbn [snd].
  destruct (isActive w (heap (record (RequestCloseCalled w) s))
            && negb (isRunningCancelAction w (heap (record (RequestCloseCalled w) s))));
    [|done].
  unfold bind at 1. cbn [Reentrant.cancelAction Reentrant.exec].
  destruct (b w); cbn [negb]; [done|].
  unfold bind, ret, Reentrant.close_with, close. cbn [heap set_heap record].
  destruct (isActive w _ && defaultView _); [|done].
  by cbn [Reentrant.closeAction Reentrant.exec nothing].
Qed.

Lemma forOf_only_decides (b : Watcher -> bool) depth fuel group i processed s r s' :
  forOf (fun x h => (b x, h)) (fun _ h => h) fuel group i processed s = Some (r, s') ->
  Reentrant.forOf_with
    (Reentrant.cancelAction (fun x => Reentrant.Return (b x)) nothing (S depth))
    (Reentrant.closeAction (fun x => Reentrant.Return (b x)) nothing (S depth))
    fuel group i processed s = (Returns r, s').
Proof.
  revert i processed s. induction fuel as [|fuel IH]; intros i processed s; [done|].
  rewrite forOf_S. cbn [Reentrant.forOf_with].
  destruct (arr (heap s) group !! i) as [closeWatcher|]; [|by intros [= <- <-]].
  pose proof (requestClose_only_decides b depth closeWatcher s) as Hlink.
  unfold Reentrant.requestClose in Hlink. unfold bind at 1. rewrite Hlink.
  pose proof (requestClose_true (fun x h => (b x, h)) (fun _ h => h) closeWatcher s)
    as Htrue.
  destruct (requestClose _ _ closeWatcher s) as [r0 s0]. cbn [fst snd] in *.
  subst r0. cbn [negb]. apply IH.
Qed.

(** The dispatcher of the first part is the one of this part run with
    callbacks that only return their decision. *)
Lemma processCloseWatchers_only_decides (b : Watcher -> bool) fuel s r s' :
  processCloseWatchers (fun x h => (b x, h)) (fun _ h => h) fuel s = Some (r, s') ->
  Reentrant.processCloseWatchers (fun x => Reentrant.Return (b x)) nothing fuel s
    = (Returns r, s').
Proof.
  unfold processCloseWatchers, Reentrant.processCloseWatchers,
    Reentrant.processCloseWatchers_with. cbv zeta.
  destruct (Nat.ltb 0 (length (groups (manager (heap s))))).
  2:{ intros [= <- <-]. done. }
  destruct (last (groups (manager (heap s)))) as [g|].
  2:{ intros [= <- <-]. done. }
  destruct (forOf _ _ fuel g 0 false _) as [[p s1]|] eqn:Hloop; [|done].
  intros [= <- <-]. destruct fuel as [|fuel]; [done|].
  unfold bind. by rewrite (forOf_only_decides b fuel _ _ _ _ _ _ _ Hloop).
Qed.

(** ** The guard *)

Section HandlersGuard.

Variable onCancel : Watcher -> Reentrant.Script bool.
Variable onClose : Watcher -> Reentrant.Script unit.

(** What [requestClose()] does once it has handed control to
    [cancelAction] is a stretch of moves. *)
Lemma requestClose_rest_moves fuel w :
  moves (let* r := Reentrant.cancelAction onCancel onClose fuel w in
         let* _ := (if negb r then Reentrant.close onCancel onClose fuel w
                    else ret tt) in
         ret true).
Proof.
  apply bind_moves; [apply cancelAction_moves|]. intros r.
  apply bind_moves; [|intros; apply ret_moves].
  destruct r; cbn [negb]; [apply ret_moves | apply close_moves].
Qed.

Lemma reachable_wf_guarded s :
  Reentrant.reachable onCancel onClose s -> wf (heap s) /\ guarded s.
Proof.
  intros Hreach. apply reachable_stretch in Hreach.
  apply (stretch_guarded initialWorld s Hreach).
  - apply wfb_correct. reflexivity.
  - intros w. cbn. split; [lia|]. intros H. exfalso. revert H. cbn. lia.
Qed.

Lemma requestClose_sets_guard fuel w s :
  wf (heap s) -> isActive w (heap s) = true ->
  isRunningCancelAction w
    (heap (snd (Reentrant.requestClose onCancel onClose fuel w s))) = true.
Proof.
  intros Hwf Ha. destruct (isRunningCancelAction w (heap s)) eqn:Hr.
  - rewrite requestClose_idle by auto. done.
  - rewrite requestClose_enters by done.
    apply (stretch_keeps_guard (entered w s)); [apply requestClose_rest_moves|].
    by apply entered_spec.
Qed.

End HandlersGuard.

(** C8. Whatever the callbacks do, calls back into [requestClose()] of
    their own watcher included: after [requestClose()] on an active watcher
    of a reachable world its [isRunningCancelAction] is set, however the call
    ends; no operation clears a set guard; so in every reachable world each
    watcher's [cancelAction] has been called at most once; and
    [requestClose()] on a watcher whose guard is set calls no callback and
    leaves the heap as it is, returning [true]. *)
Theorem guard_is_set_once onCancel onClose :
  (forall s fuel w,
      Reentrant.reachable onCancel onClose s ->
      isActive w (heap s) = true ->
      isRunningCancelAction w
        (heap (snd (Reentrant.requestClose onCancel onClose fuel w s))) = true) /\
  (forall s s' w,
      Reentrant.step onCancel onClose s s' ->
      isRunningCancelAction w (heap s) = true ->
      isRunningCancelAction w (heap s') = true) /\
  (forall s w,
      Reentrant.reachable onCancel onClose s -> cancelCalls w (trace s) <= 1) /\
  (forall s fuel w,
      isRunningCancelAction w (heap s) = true ->
      Reentrant.requestClose onCancel onClose fuel w s =
        (Returns true, mkWorld (heap s) (trace s ++ [RequestCloseCalled w]))).
Proof.
  split; [|split; [|split]].
  - intros s fuel w Hreach Ha.
    apply requestClose_sets_guard; [|done].
    by apply (reachable_wf_guarded onCancel onClose).
  - intros s s' w Hstep. apply stretch_keeps_guard.
    by apply (step_stretch onCancel onClose).
  - intros s w Hreach.
    destruct (reachable_wf_guarded onCancel onClose s Hreach) as [_ HJ].
    apply HJ.
  - intros s fuel w Hg. apply requestClose_idle. by right.
Qed.

Lemma guard_is_set_once_witness :
  Reentrant.reachable (asksAgain true) nothing worldA /\
  Reentrant.requestClose (asksAgain true) nothing 2 0 worldA =
    (Returns true,
     mkWorld (set_isRunningCancelAction 0 true (heap worldA))
       [RequestCloseCalled 0; CancelActionCalled 0; RequestCloseCalled 0]) /\
  isRunningCancelAction 0
    (heap (snd (Reentrant.requestClose (asksAgain true) nothing 2 0 worldA))) = true /\
  cancelCalls 0
    (trace (snd (Reentrant.requestClose (asksAgain true) nothing 2 0
                   (snd (Reentrant.requestClose (asksAgain true) nothing 2 0
                           worldA))))) <= 1 /\
  Reentrant.requestClose (asksAgain true) nothing 2 0 (mkWorld heapGuarded [])
    = (Returns true, mkWorld heapGuarded [RequestCloseCalled 0]).
Proof.
  assert (Hr1 : Reentrant.reachable (asksAgain true) nothing worldA).
  { apply (Reentrant.reachable_step _ _ initialWorld); [constructor|].
    apply (Reentrant.step_new _ _ initialWorld 0). reflexivity. }
  destruct (guard_is_set_once (asksAgain true) nothing)
    as (Hset & _ & Honce & Hidle).
  split; [exact Hr1|]. split; [reflexivity|]. split; [|split].
  - apply Hset; [exact Hr1 | reflexivity].
  - apply Honce.
    apply (Reentrant.reachable_step _ _
             (snd (Reentrant.requestClose (asksAgain true) nothing 2 0 worldA)));
      [|apply Reentrant.step_requestClose].
    apply (Reentrant.reachable_step _ _ worldA);
      [exact Hr1 | apply Reentrant.step_requestClose].
  - apply (Hidle (mkWorld heapGuarded []) 2 0). reflexivity.
Defined.

(** ** What [requestClose()] does with the decision *)



